(** * Aura reconciliation on token movement

    A shallow embedding of [updateToken] from [scripts/auras.mjs], the hook
    that reconciles aura effects when a token moves, together with the
    properties its specification states about it.

    The handler is an [async] function talking to the host engine: it reads
    ambient session state, asks geometry helpers, awaits the movement
    animation and awaits queries sent to the active GM.  Every such
    interaction is a [Call]; the handler is a finite tree of calls ([Prog])
    and an environment ([Env]) answers them while threading its own state,
    so the answers may change from one call to the next.  The helpers of
    [helpers.mjs] and the queries of [queries.mjs] are calls like the others:
    nothing is assumed of what they answer or do beyond what a theorem
    states. *)

From Stdlib Require Import QArith.
From stdpp Require Import base option list strings gmap.

Local Open Scope string_scope.
Local Open Scope list_scope.
Local Open Scope Z_scope.

(** ** JavaScript values *)

(** A JavaScript number.  Every finite double is a rational, so comparisons
    of finite numbers are comparisons in [Q]. *)
Inductive number : Type :=
  | Fin (q : Q)
  | PosInfinity
  | NegInfinity
  | NaN.

(** The values a numeric property can hold. *)
Inductive jsval : Type :=
  | undefined
  | null
  | num (n : number).

(** [!!v] *)
Definition truthy (v : jsval) : bool :=
  match v with
  | num (Fin q) => negb (Qeq_bool q 0)
  | num PosInfinity | num NegInfinity => true
  | num NaN | undefined | null => false
  end.

(** [ToNumber(v)] *)
Definition toNumber (v : jsval) : number :=
  match v with
  | undefined => NaN
  | null => Fin 0
  | num n => n
  end.

Definition Qlt_bool (x y : Q) : bool := negb (Qle_bool y x).

(** [a < b] on numbers: false as soon as one side is [NaN]. *)
Definition number_lt (a b : number) : bool :=
  match a, b with
  | NaN, _ | _, NaN => false
  | Fin x, Fin y => Qlt_bool x y
  | NegInfinity, NegInfinity => false
  | NegInfinity, _ => true
  | _, NegInfinity => false
  | PosInfinity, _ => false
  | Fin _, PosInfinity => true
  end.

(** [a < b] where [a] is a property value and [b] a number. *)
Definition js_lt (a : jsval) (b : number) : bool := number_lt (toNumber a) b.

(** [a === b] on numbers. *)
Definition number_eq (a b : number) : bool :=
  match a, b with
  | Fin x, Fin y => Qeq_bool x y
  | PosInfinity, PosInfinity | NegInfinity, NegInfinity => true
  | _, _ => false
  end.

(** ** Documents *)

(** A user of the session, identified by its id. *)
Definition User : Type := string.

Module Actor.
(** An actor document.  [id] stands for the identity of the object, which
    is what [===] compares; [uuid] is the property read from it. *)
Record t : Type := mk { id : nat; uuid : string }.
End Actor.

Global Instance Actor_eq_dec : EqDecision Actor.t.
Proof. solve_decision. Defined.

Module System.
(** [effect.system] of an aura effect. *)
Record t : Type := mk {
  distance : jsval;
  disposition : Z;
  collisionTypes : list string
}.
End System.

Module Effect.
(** An active effect document, as far as the handler looks at it.
    [originalType] is [getFlag("auras", "originalType")]. *)
Record t : Type := mk {
  uuid : string;
  type : string;
  origin : option string;
  system : System.t;
  originalType : option string
}.
End Effect.

Module Token.
(** A token document.  [actor] is [None] when the token has no actor. *)
Record t : Type := mk {
  id : string;
  actor : option Actor.t;
  disposition : Z
}.
End Token.

Global Instance Token_eq_dec : EqDecision Token.t.
Proof. solve_decision. Defined.

(** The [updates] object of the hook: the changed properties only. *)
Record Updates : Type := mkUpdates {
  x : jsval;
  y : jsval;
  elevation : jsval
}.

(** The [options] object of the hook; the handler never reads it. *)
Definition Options : Type := unit.

(** ** Queries sent to the active GM *)

Inductive Query : Type :=
  | deleteEffects (effectUuids : list (option string))
  | applyEffect (effectData : Effect.t) (actorUuids : list (option string))
  | deleteAuraEffects (actorUuid : string) (effectUuids : list string)
  | applyAuraEffects (actorUuid : string) (effectUuids : list string).

(** ** Interactions with the host engine *)

Inductive Call : Type :=
  | game_user_id
  | game_users_activeGM
  | ui_notifications_warn (msg : string)
  | appliedEffects (a : Actor.t)
  | effects (a : Actor.t)
  | getNearbyTokens (token : Token.t) (radius : jsval) (disposition : Z)
      (collisionTypes : list string)
  | movementAnimationPromise (token : Token.t)
  | isFinalMovementComplete (token : Token.t)
  | parent_tokens (token : Token.t)
  | getTokenToTokenDistance (token sourceToken : Token.t)
      (collisionTypes : list string)
  | query (activeGM : User) (q : Query).

(** The outcome of an awaited promise. *)
Inductive Settled : Type := resolved | rejected.

(** What the engine answers to each call.  [movementAnimationPromise] is
    read from [token.object], which is [None] when the token is not drawn. *)
Definition Resp (c : Call) : Type :=
  match c with
  | game_user_id => string
  | game_users_activeGM => option User
  | ui_notifications_warn _ => unit
  | appliedEffects _ => list Effect.t
  | effects _ => list Effect.t
  | getNearbyTokens _ _ _ _ => list Token.t
  | movementAnimationPromise _ => option Settled
  | isFinalMovementComplete _ => bool
  | parent_tokens _ => list Token.t
  | getTokenToTokenDistance _ _ _ => number
  | query _ _ => Settled
  end.

(** ** Programs *)

(** A handler run: it returns, throws, or makes a call and goes on with the
    answer.  The tree is well founded: the handler always terminates. *)
Inductive Prog (A : Type) : Type :=
  | Ret (a : A)
  | Throw
  | Do (c : Call) (k : Resp c → Prog A).

Arguments Ret {A} a.
Arguments Throw {A}.
Arguments Do {A} c k.

Fixpoint bind {A B : Type} (p : Prog A) (f : A → Prog B) : Prog B :=
  match p with
  | Ret a => f a
  | Throw => Throw
  | Do c k => Do c (λ r, bind (k r) f)
  end.

Declare Scope prog_scope.
Delimit Scope prog_scope with prog.
Bind Scope prog_scope with Prog.
Notation "x ← y ; z" := (bind y (λ x, z)) : prog_scope.
Notation "y ;; z" := (bind y (λ _, z)) : prog_scope.
Local Open Scope prog_scope.

Definition call (c : Call) : Prog (Resp c) := Do c Ret.

(** Property access on a value that may be null. *)
Definition deref {A : Type} (o : option A) : Prog A :=
  match o with
  | Some a => Ret a
  | None => Throw
  end.

(** [await p] for a promise that settled. *)
Definition await (r : Settled) : Prog unit :=
  match r with
  | resolved => Ret tt
  | rejected => Throw
  end.

Fixpoint foldM {A B : Type} (f : B → A → Prog B) (l : list A) (b : B) : Prog B :=
  match l with
  | [] => Ret b
  | a :: l' => b' ← f b a; foldM f l' b'
  end.

Fixpoint mapM {A B : Type} (f : A → Prog B) (l : list A) : Prog (list B) :=
  match l with
  | [] => Ret []
  | a :: l' => b ← f a; bs ← mapM f l'; Ret (b :: bs)
  end.

Fixpoint filterM {A : Type} (f : A → Prog bool) (l : list A) : Prog (list A) :=
  match l with
  | [] => Ret []
  | a :: l' => keep ← f a; rest ← filterM f l'; Ret (if (keep : bool) then a :: rest else rest)
  end.

Fixpoint forM_ {A : Type} (f : A → Prog unit) (l : list A) : Prog unit :=
  match l with
  | [] => Ret tt
  | a :: l' => f a;; forM_ f l'
  end.

(** ** Environments and runs *)

(** An environment answers every call and moves to its next state. *)
Definition Env (S : Type) : Type := ∀ c : Call, S → Resp c * S.

(** Run a program: the result ([None] when it threw), the final state of
    the environment and the calls made, in order. *)
Fixpoint run {S A : Type} (h : Env S) (p : Prog A) (s : S)
  : option A * S * list Call :=
  match p with
  | Ret a => (Some a, s, [])
  | Throw => (None, s, [])
  | Do c k =>
      let '(r, s') := h c s in
      let '(o, s'', t) := run h (k r) s' in
      (o, s'', c :: t)
  end.

Definition result {S A : Type} (h : Env S) (p : Prog A) (s : S) : option A :=
  fst (fst (run h p s)).

Definition trace {S A : Type} (h : Env S) (p : Prog A) (s : S) : list Call :=
  snd (run h p s).

(** ** Sets of actors *)

(** A JavaScript [Set] keeps its elements in insertion order, each once.
    Its elements here are the [t.actor] of tokens: an actor or null. *)
Abbreviation ActorSet := (list (option Actor.t)).

(** [new Set(l)] *)
Definition Set_new (l : list (option Actor.t)) : ActorSet :=
  fold_left (λ acc a, if bool_decide (a ∈ acc) then acc else acc ++ [a]) l [].

(** [a.difference(b)] *)
Definition Set_difference (a b : ActorSet) : ActorSet :=
  List.filter (λ e, bool_decide (e ∉ b)) a.

(** ** The movement handler, [updateToken] *)

(** [e.type === "auras.aura"] *)
Definition isAura (e : Effect.t) : bool :=
  bool_decide (Effect.type e = "auras.aura").

(** [es.find(e => e.origin === uuid)] *)
Definition findByOrigin (uuid : string) (es : list Effect.t) : option Effect.t :=
  List.find (λ e, bool_decide (Effect.origin e = Some uuid)) es.

(** [new Set(getNearbyTokens(token, radius, {disposition, collisionTypes}).map(t => t.actor))] *)
Definition nearbyActors (token : Token.t) (effect : Effect.t) : Prog ActorSet :=
  let radius := System.distance (Effect.system effect) in
  let disposition := System.disposition (Effect.system effect) in
  let collisionTypes := System.collisionTypes (Effect.system effect) in
  nearby ← call (getNearbyTokens token radius disposition collisionTypes);
  Ret (Set_new (Token.actor <$> nearby)).

(** One turn of the first loop: the start-of-movement range of one aura
    source effect. *)
Definition preMoveStep (token : Token.t)
    (preMoveRanges : gmap string ActorSet) (effect : Effect.t)
  : Prog (gmap string ActorSet) :=
  let radius := System.distance (Effect.system effect) in
  if negb (truthy radius) then Ret preMoveRanges
  else
    range ← nearbyActors token effect;
    Ret (<[Effect.uuid effect := range]> preMoveRanges).

(** [mergeObject(effect.toObject(), {origin: effect.uuid,
    type: effect.getFlag("auras", "originalType") ?? "base"})] *)
Definition effectData (effect : Effect.t) : Effect.t :=
  Effect.mk (Effect.uuid effect)
            (default "base" (Effect.originalType effect))
            (Some (Effect.uuid effect))
            (Effect.system effect)
            (Effect.originalType effect).

(** [Array.from(preMoveRange.difference(postMoveRange))
      .map(a => a.effects.find(e => e.origin === effect.uuid)?.uuid)] *)
Definition toDelete (effect : Effect.t) (preMoveRange postMoveRange : ActorSet)
  : Prog (list (option string)) :=
  mapM (λ a,
          a' ← deref a;
          es ← call (effects a');
          Ret (Effect.uuid <$> findByOrigin (Effect.uuid effect) es))
       (Set_difference preMoveRange postMoveRange).

(** [Array.from(postMoveRange.filter(a => (a !== token.actor)
      && !a?.effects.find(e => e.origin === effect.uuid))).map(a => a?.uuid)] *)
Definition toAddTo (token : Token.t) (effect : Effect.t) (postMoveRange : ActorSet)
  : Prog (list (option string)) :=
  kept ← filterM (λ a,
            if bool_decide (a = Token.actor token) then Ret false
            else match a with
                 | None => Ret true
                 | Some a' =>
                     es ← call (effects a');
                     Ret (negb (bool_decide (is_Some (findByOrigin (Effect.uuid effect) es))))
                 end)
          postMoveRange;
  Ret ((λ a : option Actor.t, Actor.uuid <$> a) <$> kept).

(** One turn of the second loop: the end-of-movement range of one aura
    source effect, the removals and, on the final segment, the additions. *)
Definition postMoveStep (activeGM : User) (token : Token.t)
    (preMoveRanges : gmap string ActorSet) (effect : Effect.t) : Prog unit :=
  let radius := System.distance (Effect.system effect) in
  if negb (truthy radius) then Ret tt
  else
    let preMoveRange := preMoveRanges !! Effect.uuid effect in
    postMoveRange ← nearbyActors token effect;
    pre ← deref preMoveRange;
    del ← toDelete effect pre postMoveRange;
    r ← call (query activeGM (deleteEffects del));
    await r;;
    final ← call (isFinalMovementComplete token);
    if (final : bool) then
      add ← toAddTo token effect postMoveRange;
      r ← call (query activeGM (applyEffect (effectData effect) add));
      await r
    else Ret tt.

(** [token.disposition * sourceToken.disposition]:
    -1 if enemies, 0 if at least one is neutral, 1 if allied. *)
Definition effectiveDisposition (token sourceToken : Token.t) : Z :=
  Token.disposition token * Token.disposition sourceToken.

(** The filter on the other token's applied effects:
    [(e.type === "auras.aura") && ((e.system.disposition === 0)
      || (e.system.disposition === disposition))] *)
Definition auraFilter (disposition : Z) (e : Effect.t) : bool :=
  isAura e
  && (bool_decide (System.disposition (Effect.system e) = 0)
      || bool_decide (System.disposition (Effect.system e) = disposition)).

(** The inner loop of the scan: one aura effect of the other token goes to
    [toRemove] or to [toAdd]. *)
Definition classify (token sourceToken : Token.t)
    (acc : list Effect.t * list Effect.t) (currEffect : Effect.t)
  : Prog (list Effect.t * list Effect.t) :=
  let '(toRemove, toAdd) := acc in
  distance ← call (getTokenToTokenDistance token sourceToken
                     (System.collisionTypes (Effect.system currEffect)));
  if js_lt (System.distance (Effect.system currEffect)) distance
  then Ret (toRemove ++ [currEffect], toAdd)
  else Ret (toRemove, toAdd ++ [currEffect]).

(** The reducer over [token.parent.tokens]. *)
Definition sceneStep (token : Token.t)
    (acc : list Effect.t * list Effect.t) (sourceToken : Token.t)
  : Prog (list Effect.t * list Effect.t) :=
  if bool_decide (Token.actor sourceToken = Token.actor token) then Ret acc
  else
    let disposition := effectiveDisposition token sourceToken in
    sourceActor ← deref (Token.actor sourceToken);
    applied ← call (appliedEffects sourceActor);
    let auraEffects := List.filter (auraFilter disposition) applied in
    if bool_decide (length auraEffects = 0%nat) then Ret acc
    else foldM (classify token sourceToken) auraEffects acc.

(** The two batched requests that end the handler. *)
Definition sceneDispatch (activeGM : User) (token : Token.t)
    (sceneAurasToRemove sceneAurasToAdd : list Effect.t) : Prog unit :=
  (if bool_decide (length sceneAurasToRemove ≠ 0%nat) then
     actor ← deref (Token.actor token);
     r ← call (query activeGM
                 (deleteAuraEffects (Actor.uuid actor) (Effect.uuid <$> sceneAurasToRemove)));
     await r
   else Ret tt);;
  if bool_decide (length sceneAurasToAdd ≠ 0%nat) then
    final ← call (isFinalMovementComplete token);
    if (final : bool) then
      actor ← deref (Token.actor token);
      r ← call (query activeGM
                  (applyAuraEffects (Actor.uuid actor) (Effect.uuid <$> sceneAurasToAdd)));
      await r
    else Ret tt
  else Ret tt.

(** The handler past its guards. *)
Definition reconcile (activeGM : User) (token : Token.t) : Prog unit :=
  actor ← deref (Token.actor token);
  allEffects ← call (appliedEffects actor);
  let sourceEffects := List.filter isAura allEffects in
  preMoveRanges ← foldM (preMoveStep token) sourceEffects ∅;
  object ← call (movementAnimationPromise token);
  settled ← deref object;
  await settled;;
  forM_ (postMoveStep activeGM token preMoveRanges) sourceEffects;;
  tokens ← call (parent_tokens token);
  scene ← foldM (sceneStep token) tokens ([], []);
  sceneDispatch activeGM token scene.1 scene.2.

(** [updateToken(token, updates, options, userId)].  The module variable
    [seenWarning] is passed in and its value after the call is returned. *)
Definition updateToken (seenWarning : bool) (token : Token.t) (updates : Updates)
    (options : Options) (userId : string) : Prog bool :=
  me ← call game_user_id;
  if bool_decide (me ≠ userId) then Ret seenWarning
  else
    activeGM ← call game_users_activeGM;
    match activeGM with
    | None =>
        if negb seenWarning then
          call (ui_notifications_warn "AURAS.NoActiveGM");;
          Ret true
        else Ret seenWarning
    | Some gm =>
        if negb (bool_decide (is_Some (Token.actor token))) then Ret seenWarning
        else if negb (truthy (x updates)) && negb (truthy (y updates))
                && negb (truthy (elevation updates))
        then Ret seenWarning
        else reconcile gm token;; Ret seenWarning
    end.

(** ** Sessions *)

(** One firing of the hook on this client. *)
Record Invocation : Type := mkInvocation {
  inv_token : Token.t;
  inv_updates : Updates;
  inv_options : Options;
  inv_userId : string
}.

(** Invocations run one after the other, from a given value of
    [seenWarning]: the calls of each invocation and the final value of the
    variable.  An invocation that throws leaves the variable as it found it
    (the handler writes it only on a path that cannot throw). *)
Fixpoint runSession {S : Type} (h : Env S) (seenWarning : bool)
    (invs : list Invocation) (s : S) : list (list Call) * bool * S :=
  match invs with
  | [] => ([], seenWarning, s)
  | i :: rest =>
      let '(o, s', t) :=
        run h (updateToken seenWarning (inv_token i) (inv_updates i)
                 (inv_options i) (inv_userId i)) s in
      let '(ts, seen, s'') := runSession h (default seenWarning o) rest s' in
      (t :: ts, seen, s'')
  end.

(** The calls of each invocation of a session. *)
Definition sessionTraces {S : Type} (h : Env S) (seenWarning : bool)
    (invs : list Invocation) (s : S) : list (list Call) :=
  fst (fst (runSession h seenWarning invs s)).

(** ** The aura checkbox of the effect sheet, [injectAuraCheckbox] *)

Module Checkbox.
(** What the change listener sets under [flags]:
    ["flags.-=auras"] to null, or ["flags.auras.originalType"] to the
    current type. *)
Inductive FlagsUpdate : Type :=
  | unsetAuras
  | setOriginalType (currType : string).

(** The [updates] passed to [app.document.update]: the processed form data,
    then the keys the listener sets, [type], the key under [flags] and
    ["==system"]. *)
Record Updates (F : Type) : Type := mk {
  form : F;
  type : string;
  flags : FlagsUpdate;
  system : System.t
}.

Arguments mk {F} form type flags system.
Arguments form {F} u.
Arguments type {F} u.
Arguments flags {F} u.
Arguments system {F} u.
End Checkbox.

(** The value the checkbox is drawn with: [app.document.type === "auras.aura"]. *)
Definition checkboxValue (document : Effect.t) : bool :=
  bool_decide (Effect.type document = "auras.aura").

(** The change listener: the updates it passes to [app.document.update],
    from the document of the sheet and the processed form data. *)
Definition changeListener {F : Type} (document : Effect.t) (formData : F)
  : Checkbox.Updates F :=
  let currType := Effect.type document in
  if bool_decide (currType = "auras.aura")
  then Checkbox.mk formData (default "base" (Effect.originalType document))
         Checkbox.unsetAuras (Effect.system document)
  else Checkbox.mk formData "auras.aura" (Checkbox.setOriginalType currType)
         (Effect.system document).

(** ** The queries of the module, [registerQueries] *)

Module Queries.
(** The functions of [CONFIG.queries]: the four of queries.mjs, and any
    other. *)
Inductive t : Type :=
  | applyEffect
  | deleteEffects
  | applyAuraEffects
  | deleteAuraEffects
  | other (name : string).
End Queries.

(** [registerQueries()], on the content of [CONFIG.queries]. *)
Definition registerQueries (queries : gmap string Queries.t) : gmap string Queries.t :=
  <["auras.deleteAuraEffects" := Queries.deleteAuraEffects]>
    (<["auras.applyAuraEffects" := Queries.applyAuraEffects]>
       (<["auras.deleteEffects" := Queries.deleteEffects]>
          (<["auras.applyEffect" := Queries.applyEffect]> queries))).

(** The name under which [updateToken] dispatches a request. *)
Definition queryName (q : Query) : string :=
  match q with
  | deleteEffects _ => "auras.deleteEffects"
  | applyEffect _ _ => "auras.applyEffect"
  | deleteAuraEffects _ _ => "auras.deleteAuraEffects"
  | applyAuraEffects _ _ => "auras.applyAuraEffects"
  end.

(** ** Assumptions and guarantees of a run *)

(** [wp G p Φ]: whatever the environment answers within [G], the calls [p]
    makes and the way it ends ([None]: it threw) satisfy [Φ]. *)
Fixpoint wp (G : ∀ c : Call, Resp c → Prop) {A : Type} (p : Prog A)
    (Φ : list Call → option A → Prop) : Prop :=
  match p with
  | Ret a => Φ [] (Some a)
  | Throw => Φ [] None
  | Do c k => ∀ r, G c r → wp G (k r) (λ t o, Φ (c :: t) o)
  end.

(** An environment whose every answer is within [G]. *)
Definition respects (G : ∀ c : Call, Resp c → Prop) {S : Type} (h : Env S) : Prop :=
  ∀ c s, G c (h c s).1.

(** [triple G Q P p]: every call of [p] satisfies [Q], and [P] holds of what
    [p] returns. *)
Definition triple (G : ∀ c : Call, Resp c → Prop) {A : Type} (Q : Call → Prop)
    (P : A → Prop) (p : Prog A) : Prop :=
  wp G p (λ t o, Forall Q t ∧ ∀ a, o = Some a → P a).

(** ** Kinds of calls *)

Definition isQuery (c : Call) : bool :=
  match c with query _ _ => true | _ => false end.

Definition isWarning (c : Call) : bool :=
  match c with ui_notifications_warn _ => true | _ => false end.



(** A proximity snapshot. *)
Definition isSnapshot (c : Call) : bool :=
  match c with getNearbyTokens _ _ _ _ => true | _ => false end.

(** A geometry computation. *)
Definition isGeometry (c : Call) : bool :=
  match c with
  | getNearbyTokens _ _ _ _ | getTokenToTokenDistance _ _ _ => true
  | _ => false
  end.

(** A read of some actor's effects. *)
Definition isEffectsRead (c : Call) : bool :=
  match c with appliedEffects _ | effects _ => true | _ => false end.


(** A call that only reconciliation makes: a read of some actor's effects,
    a proximity snapshot or another geometry computation, or a request. *)
Definition isReconciliation (c : Call) : bool :=
  isEffectsRead c || isGeometry c || isQuery c.

(** One of the two batched requests that end the handler. *)
Definition isSceneBatch (c : Call) : bool :=
  match c with
  | query _ (deleteAuraEffects _ _) | query _ (applyAuraEffects _ _) => true
  | _ => false
  end.

(** The read of the movement animation promise. *)
Definition isAnimation (c : Call) : bool :=
  match c with movementAnimationPromise _ => true | _ => false end.

(** The number of calls of a kind in a run. *)
Definition countCalls (f : Call → bool) (t : list Call) : nat :=
  length (List.filter f t).

(** The distance computations of the inner loop, one per aura effect. *)
Definition distanceCalls (token sourceToken : Token.t) (auraEffects : list Effect.t)
  : list Call :=
  (λ e, getTokenToTokenDistance token sourceToken
          (System.collisionTypes (Effect.system e))) <$> auraEffects.

(** ** The order of the calls of a run *)

(** Every request comes after the movement animation of [token] was
    awaited. *)
Definition afterAnimation (token : Token.t) (t : list Call) : Prop :=
  ∀ i c, t !! i = Some c → isQuery c = true →
    ∃ k, (k < i)%nat ∧ t !! k = Some (movementAnimationPromise token).

(** An applyAuraEffects request is the last call; after a deleteAuraEffects
    request come at most the check of the final segment and the
    applyAuraEffects request to the same user, for the same actor. *)
Definition batchesLast (token : Token.t) (t : list Call) : Prop :=
  (∀ i gm key uuids,
     t !! i = Some (query gm (applyAuraEffects key uuids)) → length t = S i)
  ∧ (∀ i j gm key uuids c,
       t !! i = Some (query gm (deleteAuraEffects key uuids)) →
       (i < j)%nat → t !! j = Some c →
       c = isFinalMovementComplete token
       ∨ ∃ uuids', c = query gm (applyAuraEffects key uuids')).

(** Some request within [P] was dispatched to [activeGM]. *)
Definition requested (activeGM : User) (P : Query → Prop) (t : list Call) : Prop :=
  ∃ q, P q ∧ query activeGM q ∈ t.

(** ** What may be assumed of the engine *)

(** Nothing is assumed of the engine. *)
Definition anyAnswer (c : Call) (r : Resp c) : Prop := True.


(** Among the tokens a spatial query returns, only the actor [who] has its
    uuid. *)
Definition uuidIdentifies (who : Actor.t) (c : Call) : Resp c → Prop :=
  match c return Resp c → Prop with
  | getNearbyTokens _ _ _ _ =>
      λ nearby, ∀ a, Some a ∈ Token.actor <$> nearby →
                     Actor.uuid a = Actor.uuid who → a = who
  | _ => λ _, True
  end.

(** The actor [target] holds an effect derived from [origin]. *)
Definition holdsDerived (target : Actor.t) (origin : string) (c : Call)
  : Resp c → Prop :=
  match c return Resp c → Prop with
  | effects a => λ es, a = target → is_Some (findByOrigin origin es)
  | _ => λ _, True
  end.

(** The proximity set of every spatial query is [N], whenever it is asked,
    and the applied effects of an actor have distinct uuids. *)
Definition stableGeometry (N : Token.t → jsval → Z → list string → ActorSet)
    (c : Call) : Resp c → Prop :=
  match c return Resp c → Prop with
  | getNearbyTokens t r d ct =>
      λ nearby, ∀ a, a ∈ Token.actor <$> nearby ↔ a ∈ N t r d ct
  | appliedEffects _ => λ applied, NoDup (Effect.uuid <$> applied)
  | _ => λ _, True
  end.

(** The movement animation does not settle: the token is not drawn, or its
    promise is rejected. *)
Definition unsettled (c : Call) : Resp c → Prop :=
  match c return Resp c → Prop with
  | movementAnimationPromise _ => λ object, object ≠ Some resolved
  | _ => λ _, True
  end.

(** The GM rejects every query. *)
Definition rejecting (c : Call) : Resp c → Prop :=
  match c return Resp c → Prop with
  | query _ _ => λ r, r = rejected
  | _ => λ _, True
  end.

(** The actor [actor] has no aura effect applied. *)
Definition noAura (actor : Actor.t) (c : Call) : Resp c → Prop :=
  match c return Resp c → Prop with
  | appliedEffects a => λ applied, a = actor → List.filter isAura applied = []
  | _ => λ _, True
  end.

(** Some token of the scene has no actor. *)
Definition actorlessOnScene (c : Call) : Resp c → Prop :=
  match c return Resp c → Prop with
  | parent_tokens _ => λ tokens, ∃ t : Token.t, t ∈ tokens ∧ Token.actor t = None
  | _ => λ _, True
  end.

(** A run that made at most one request, and none if it went on. *)
Definition stopsAtRequest {A : Type} (t : list Call) (o : option A) : Prop :=
  (countCalls isQuery t ≤ 1)%nat ∧ (is_Some o → countCalls isQuery t = 0%nat).

(** [r] is what the environment [h] answers to [c] in some state. *)
Definition answered {S : Type} (h : Env S) (c : Call) (r : Resp c) : Prop :=
  ∃ s, r = (h c s).1.

(** ** What the requests of a reconciliation are made of *)

(** [range] is a proximity snapshot of [effect]. *)
Definition rangeOf (G : ∀ c : Call, Resp c → Prop) (token : Token.t)
    (effect : Effect.t) (range : ActorSet) : Prop :=
  ∃ nearby : list Token.t,
    G (getNearbyTokens token (System.distance (Effect.system effect))
         (System.disposition (Effect.system effect))
         (System.collisionTypes (Effect.system effect))) nearby
    ∧ range = Set_new (Token.actor <$> nearby).

(** [u] is what [toDelete] holds for the actor [a]. *)
Definition deleted (G : ∀ c : Call, Resp c → Prop) (effect : Effect.t)
    (a : option Actor.t) (u : option string) : Prop :=
  ∃ (a' : Actor.t) (es : list Effect.t),
    a = Some a' ∧ G (effects a') es
    ∧ u = Effect.uuid <$> findByOrigin (Effect.uuid effect) es.

(** [a] passes the filter of [toAddTo]. *)
Definition addable (G : ∀ c : Call, Resp c → Prop) (token : Token.t)
    (effect : Effect.t) (a : option Actor.t) : Prop :=
  a ≠ Token.actor token
  ∧ ∀ a', a = Some a' →
      ∃ es : list Effect.t,
        G (effects a') es ∧ findByOrigin (Effect.uuid effect) es = None.

(** [e] was read from another actor's token on the scene, passed the
    disposition filter and compared with the distance to that token. *)
Definition evaluated (G : ∀ c : Call, Resp c → Prop) (token : Token.t)
    (tokens : list Token.t) (outOfRange : bool) (e : Effect.t) : Prop :=
  ∃ (sourceToken : Token.t) (sourceActor : Actor.t) (applied : list Effect.t)
    (d : number),
    sourceToken ∈ tokens
    ∧ Token.actor sourceToken = Some sourceActor
    ∧ Token.actor sourceToken ≠ Token.actor token
    ∧ G (appliedEffects sourceActor) applied
    ∧ e ∈ List.filter (auraFilter (effectiveDisposition token sourceToken)) applied
    ∧ G (getTokenToTokenDistance token sourceToken
           (System.collisionTypes (Effect.system e))) d
    ∧ js_lt (System.distance (Effect.system e)) d = outOfRange.

(** The ranges recorded by the first loop, by the uuid they are filed under. *)
Definition recorded (G : ∀ c : Call, Resp c → Prop) (token : Token.t)
    (sourceEffects : list Effect.t) (preMoveRanges : gmap string ActorSet) : Prop :=
  ∀ u pre, preMoveRanges !! u = Some pre →
    ∃ source, source ∈ sourceEffects ∧ Effect.uuid source = u
              ∧ truthy (System.distance (Effect.system source)) = true
              ∧ rangeOf G token source pre.


(** ** Concrete scenes *)

(** A scene at one instant: what the engine would answer. *)
Record World : Type := mkWorld {
  w_user : string;
  w_activeGM : option User;
  w_appliedEffects : Actor.t → list Effect.t;
  w_effects : Actor.t → list Effect.t;
  w_nearby : Token.t → jsval → Z → list string → list Token.t;
  w_distance : Token.t → Token.t → list string → number;
  w_final : Token.t → bool;
  w_tokens : list Token.t
}.

Definition answer (w : World) (c : Call) : Resp c :=
  match c return Resp c with
  | game_user_id => w_user w
  | game_users_activeGM => w_activeGM w
  | ui_notifications_warn _ => tt
  | appliedEffects a => w_appliedEffects w a
  | effects a => w_effects w a
  | getNearbyTokens t r d ct => w_nearby w t r d ct
  | movementAnimationPromise _ => Some resolved
  | isFinalMovementComplete t => w_final w t
  | parent_tokens _ => w_tokens w
  | getTokenToTokenDistance t s ct => w_distance w t s ct
  | query _ _ => resolved
  end.

(** A scene that changes as the handler waits: the state counts the movement
    animations awaited so far and [worlds] gives the scene after each.
    Queries are acknowledged. *)
Definition timelineEnv (worlds : nat → World) : Env nat :=
  λ c n,
    (answer (worlds n) c,
     match c with
     | movementAnimationPromise _ => S n
     | _ => n
     end).

(** A scene that never changes. *)
Definition staticEnv (w : World) : Env nat := timelineEnv (λ _, w).

(** The scene [w] with a GM that rejects every query. *)
Definition rejectingEnv (w : World) : Env nat :=
  λ c n,
    (match c return Resp c with
     | query _ _ => rejected
     | c' => answer w c'
     end, n).

(** The scene [w] seen by a client on which the token is not drawn. *)
Definition undrawnEnv (w : World) : Env nat :=
  λ c n,
    (match c return Resp c with
     | movementAnimationPromise _ => None
     | c' => answer w c'
     end, n).

(** The scene [w] is at rest: who is connected, the tokens of the scene, the
    effects applied to each actor, the distances between tokens and the
    segment of the movement are those of [w] whenever the handler asks. *)
Definition sceneAtRest (w : World) (c : Call) : Resp c → Prop :=
  match c return Resp c → Prop with
  | game_user_id => λ me, me = w_user w
  | game_users_activeGM => λ gm, gm = w_activeGM w
  | appliedEffects a => λ applied, applied = w_appliedEffects w a
  | isFinalMovementComplete t => λ final, final = w_final w t
  | parent_tokens _ => λ tokens, tokens = w_tokens w
  | getTokenToTokenDistance t s ct => λ d, d = w_distance w t s ct
  | _ => λ _, True
  end.

(** In the scene [w], the aura [e] of [sourceToken] is in the list of [acc]
    that its radius and the distance to [token] send it to. *)
Definition filed (w : World) (token sourceToken : Token.t)
    (acc : list Effect.t * list Effect.t) (e : Effect.t) : Prop :=
  e ∈ (if js_lt (System.distance (Effect.system e))
            (w_distance w token sourceToken (System.collisionTypes (Effect.system e)))
       then acc.1 else acc.2).

(** The engine answers as in the scene [w]. *)
Definition answeredBy (w : World) (c : Call) (r : Resp c) : Prop := r = answer w c.

(** A host that applies the keys the change listener sets as they are
    written, and leaves the rest of the document as it is. *)
Definition documentUpdate {F : Type} (document : Effect.t)
    (updates : Checkbox.Updates F) : Effect.t :=
  Effect.mk (Effect.uuid document) (Checkbox.type updates) (Effect.origin document)
    (Checkbox.system updates)
    (match Checkbox.flags updates with
     | Checkbox.unsetAuras => None
     | Checkbox.setOriginalType currType => Some currType
     end).

Module Scene1.
(** Two allied tokens five units apart, each carrying an aura of radius
    ten, each already holding the effect derived from the other's aura. *)
Definition actorA : Actor.t := Actor.mk 1 "Actor.A".
Definition actorB : Actor.t := Actor.mk 2 "Actor.B".
Definition aura (uuid : string) (radius : jsval) : Effect.t :=
  Effect.mk uuid "auras.aura" None (System.mk radius 0 ["move"]) None.
Definition derived (uuid origin : string) : Effect.t :=
  Effect.mk uuid "base" (Some origin) (System.mk undefined 0 []) None.
Definition auraE : Effect.t := aura "Actor.A.ActiveEffect.E" (num (Fin 10)).
Definition auraF : Effect.t := aura "Actor.B.ActiveEffect.F" (num (Fin 10)).
Definition effectsOf (a : Actor.t) : list Effect.t :=
  if bool_decide (a = actorA)
  then [auraE; derived "Actor.A.ActiveEffect.F1" "Actor.B.ActiveEffect.F"]
  else if bool_decide (a = actorB)
  then [auraF; derived "Actor.B.ActiveEffect.E1" "Actor.A.ActiveEffect.E"]
  else [].
Definition tokenA : Token.t := Token.mk "TA" (Some actorA) 1.
Definition tokenB : Token.t := Token.mk "TB" (Some actorB) 1.
Definition world : World :=
  mkWorld "alice" (Some "gm") effectsOf effectsOf
    (λ t _ _ _, if bool_decide (t = tokenA) then [tokenB] else [tokenA])
    (λ _ _ _, Fin 5)
    (λ _, true)
    [tokenA; tokenB].
Definition updatesX : Updates := mkUpdates (num (Fin 100)) undefined undefined.
Definition moveA : Invocation := mkInvocation tokenA updatesX tt "alice".
(** The same update, seen on alice's client when bob initiated it. *)
Definition moveByBob : Invocation := mkInvocation tokenA updatesX tt "bob".
(** The same scene when the spatial query also returns the moving token
    itself and nobody holds a derived effect yet. *)
Definition worldSelf : World :=
  mkWorld "alice" (Some "gm")
    (λ a, if bool_decide (a = actorA) then [auraE]
          else if bool_decide (a = actorB) then [auraF] else [])
    (λ a, if bool_decide (a = actorA) then [auraE]
          else if bool_decide (a = actorB) then [auraF] else [])
    (λ _ _ _ _, [tokenA; tokenB])
    (λ t s _, if bool_decide (t = s) then Fin 0 else Fin 5)
    (λ _, true)
    [tokenA; tokenB].
(** The same scene when no GM is connected. *)
Definition worldNoGM : World :=
  mkWorld "alice" None effectsOf effectsOf (w_nearby world) (w_distance world)
    (w_final world) (w_tokens world).
End Scene1.

Module Inert.
(** The token of actor A carries an aura of radius zero; the token of actor
    B, five units away, carries one aura of radius zero and one whose radius
    is unset. *)
Definition actorA : Actor.t := Actor.mk 1 "Actor.A".
Definition actorB : Actor.t := Actor.mk 2 "Actor.B".
Definition aura (uuid : string) (radius : jsval) : Effect.t :=
  Effect.mk uuid "auras.aura" None (System.mk radius 0 ["move"]) None.
Definition auraA : Effect.t := aura "Actor.A.ActiveEffect.E0" (num (Fin 0)).
Definition auraZero : Effect.t := aura "Actor.B.ActiveEffect.Z" (num (Fin 0)).
Definition auraUnset : Effect.t := aura "Actor.B.ActiveEffect.U" undefined.
Definition effectsOf (a : Actor.t) : list Effect.t :=
  if bool_decide (a = actorA) then [auraA]
  else if bool_decide (a = actorB) then [auraZero; auraUnset]
  else [].
Definition tokenA : Token.t := Token.mk "TA" (Some actorA) 1.
Definition tokenB : Token.t := Token.mk "TB" (Some actorB) 1.
Definition world : World :=
  mkWorld "alice" (Some "gm") effectsOf effectsOf
    (λ _ _ _ _, [])
    (λ _ _ _, Fin 5)
    (λ _, true)
    [tokenA; tokenB].
Definition updatesX : Updates := mkUpdates (num (Fin 100)) undefined undefined.
End Inert.

Module Path.
(** A move in three segments: the token of actor A carries an aura of
    radius ten; the token of actor B is in range at the start, out of range
    after the first and the second segment and in range again after the
    third.  B holds the derived effect until the GM deletes it. *)
Definition actorA : Actor.t := Actor.mk 1 "Actor.A".
Definition actorB : Actor.t := Actor.mk 2 "Actor.B".
Definition auraE : Effect.t :=
  Effect.mk "Actor.A.ActiveEffect.E" "auras.aura" None
    (System.mk (num (Fin 10)) 0 ["move"]) None.
Definition derivedE : Effect.t :=
  Effect.mk "Actor.B.ActiveEffect.E1" "base" (Some "Actor.A.ActiveEffect.E")
    (System.mk (num (Fin 10)) 0 ["move"]) None.
Definition tokenA : Token.t := Token.mk "TA" (Some actorA) 1.
Definition tokenB : Token.t := Token.mk "TB" (Some actorB) (-1).
(** The scene with B in or out of range, holding the derived effect or
    not, on the final segment or not. *)
Definition scene (inRange holds final : bool) : World :=
  let effectsOf (a : Actor.t) :=
    if bool_decide (a = actorA) then [auraE]
    else if bool_decide (a = actorB) then (if holds then [derivedE] else [])
    else [] in
  mkWorld "alice" (Some "gm") effectsOf effectsOf
    (λ t _ _ _, if bool_decide (t = tokenA) && inRange then [tokenB] else [])
    (λ _ _ _, if inRange then Fin 5 else Fin 30)
    (λ _, final)
    [tokenA; tokenB].
Definition worlds (n : nat) : World :=
  match n with
  | 0%nat => scene true true false
  | 1%nat => scene false true false
  | 2%nat => scene false false false
  | _ => scene true false true
  end.
(** The first segment alone: the movement never gets to its final segment. *)
Definition transit (n : nat) : World :=
  match n with
  | 0%nat => scene true true false
  | _ => scene false true false
  end.
Definition updatesX : Updates := mkUpdates (num (Fin 100)) undefined undefined.
Definition move : Invocation := mkInvocation tokenA updatesX tt "alice".
End Path.

Module Stray.
(** The token of actor A carries an aura of radius ten.  A token without
    actor is the only one in range, or nobody is; [tokens] are the tokens of
    the scene. *)
Definition actorA : Actor.t := Actor.mk 1 "Actor.A".
Definition auraE : Effect.t :=
  Effect.mk "Actor.A.ActiveEffect.E" "auras.aura" None
    (System.mk (num (Fin 10)) 0 ["move"]) None.
Definition tokenA : Token.t := Token.mk "TA" (Some actorA) 1.
Definition stray : Token.t := Token.mk "TS" None 0.
Definition scene (inRange : bool) (tokens : list Token.t) : World :=
  let effectsOf (a : Actor.t) :=
    if bool_decide (a = actorA) then [auraE] else [] in
  mkWorld "alice" (Some "gm") effectsOf effectsOf
    (λ _ _ _ _, if inRange then [stray] else [])
    (λ _ _ _, Fin 5)
    (λ _, true)
    tokens.
Definition updatesX : Updates := mkUpdates (num (Fin 100)) undefined undefined.
End Stray.

Module Twin.
(** Actor B carries an aura of radius ten and has two tokens on the scene,
    one five units and one thirty units away from the token of actor A. *)
Definition actorA : Actor.t := Actor.mk 1 "Actor.A".
Definition actorB : Actor.t := Actor.mk 2 "Actor.B".
Definition auraF : Effect.t :=
  Effect.mk "Actor.B.ActiveEffect.F" "auras.aura" None
    (System.mk (num (Fin 10)) 0 ["move"]) None.
Definition tokenA : Token.t := Token.mk "TA" (Some actorA) 1.
Definition near : Token.t := Token.mk "TB1" (Some actorB) 1.
Definition far : Token.t := Token.mk "TB2" (Some actorB) 1.
Definition world : World :=
  let effectsOf (a : Actor.t) :=
    if bool_decide (a = actorB) then [auraF] else [] in
  mkWorld "alice" (Some "gm") effectsOf effectsOf
    (λ _ _ _ _, [])
    (λ _ s _, if bool_decide (s = far) then Fin 30 else Fin 5)
    (λ _, true)
    [tokenA; near; far].
Definition updatesX : Updates := mkUpdates (num (Fin 100)) undefined undefined.
End Twin.

Module Leaving.
(** A segment that is not the last of its path.  The token of actor A
    carries an aura of radius ten, the token of actor B another; B holds the
    effect derived from the aura of A.  B is in range of A's aura at the
    start of the segment and thirty units away at its end. *)
Definition actorA : Actor.t := Actor.mk 1 "Actor.A".
Definition actorB : Actor.t := Actor.mk 2 "Actor.B".
Definition auraE : Effect.t :=
  Effect.mk "Actor.A.ActiveEffect.E" "auras.aura" None
    (System.mk (num (Fin 10)) 0 ["move"]) None.
Definition auraF : Effect.t :=
  Effect.mk "Actor.B.ActiveEffect.F" "auras.aura" None
    (System.mk (num (Fin 10)) 0 ["move"]) None.
Definition derivedE : Effect.t :=
  Effect.mk "Actor.B.ActiveEffect.E1" "base" (Some "Actor.A.ActiveEffect.E")
    (System.mk (num (Fin 10)) 0 ["move"]) None.
Definition tokenA : Token.t := Token.mk "TA" (Some actorA) 1.
Definition tokenB : Token.t := Token.mk "TB" (Some actorB) 1.
Definition scene (inRange : bool) : World :=
  let effectsOf (a : Actor.t) :=
    if bool_decide (a = actorA) then [auraE]
    else if bool_decide (a = actorB) then [auraF; derivedE]
    else [] in
  mkWorld "alice" (Some "gm") effectsOf effectsOf
    (λ _ _ _ _, if inRange then [tokenB] else [])
    (λ _ _ _, Fin 30)
    (λ _, false)
    [tokenA; tokenB].
Definition worlds (n : nat) : World :=
  match n with
  | 0%nat => scene true
  | _ => scene false
  end.
Definition updatesX : Updates := mkUpdates (num (Fin 100)) undefined undefined.
End Leaving.

(** * Properties *)

(** ** Reasoning about runs *)

Lemma run_bind {S A B : Type} (h : Env S) (p : Prog A) (f : A → Prog B) (s : S) :
  run h (bind p f) s =
    match run h p s with
    | (Some a, s', t) => let '(o, s'', t') := run h (f a) s' in (o, s'', t ++ t')
    | (None, s', t) => (None, s', t)
    end.
Proof.
  revert s. induction p as [a | | c k IH]; intros s; simpl.
  - by destruct (run h (f a) s) as [[o s'] t].
  - done.
  - destruct (h c s) as [r s']. rewrite IH.
    destruct (run h (k r) s') as [[[a|] s''] t]; [|done].
    by destruct (run h (f a) s'') as [[o s3] t'].
Qed.

Section Logic.
(** What is assumed of the answers of the environment. *)
Context (G : ∀ c : Call, Resp c → Prop).

Lemma wp_mono {A : Type} (p : Prog A) (Φ Ψ : list Call → option A → Prop) :
  (∀ t o, Φ t o → Ψ t o) → wp G p Φ → wp G p Ψ.
Proof.
  revert Φ Ψ. induction p as [a | | c k IH]; intros Φ Ψ HΦ; simpl; [auto..|].
  intros Hk r Hr. eapply IH; [|by apply Hk]. intros t o. apply HΦ.
Qed.

Lemma wp_bind {A B : Type} (p : Prog A) (f : A → Prog B)
    (Φ : list Call → option B → Prop) :
  wp G p (λ t o, match o with
               | Some a => wp G (f a) (λ t' o', Φ (t ++ t') o')
               | None => Φ t None
               end) →
  wp G (bind p f) Φ.
Proof.
  revert Φ. induction p as [a | | c k IH]; intros Φ; simpl; [done..|].
  intros Hk r Hr. apply IH. eapply wp_mono; [|by apply Hk]. by intros t [a|].
Qed.

Lemma wp_sound {S A : Type} (h : Env S) (p : Prog A)
    (Φ : list Call → option A → Prop) (s : S) :
  respects G h → wp G p Φ → Φ (trace h p s) (result h p s).
Proof.
  intros Hh. revert Φ s. unfold trace, result.
  induction p as [a | | c k IH]; intros Φ s; simpl; [done..|].
  intros Hk. specialize (Hh c s). destruct (h c s) as [r s']. simpl in Hh.
  specialize (IH r _ s' (Hk r Hh)).
  by destruct (run h (k r) s') as [[o s''] t].
Qed.

Lemma triple_ret {A : Type} (Q : Call → Prop) (P : A → Prop) (a : A) :
  P a → triple G Q P (Ret a).
Proof. intros Ha. split; [constructor|]. by intros ? [= <-]. Qed.

Lemma triple_throw {A : Type} (Q : Call → Prop) (P : A → Prop) :
  triple G Q P (@Throw A).
Proof. split; [constructor|done]. Qed.

Lemma triple_call (Q : Call → Prop) (c : Call) (P : Resp c → Prop) :
  Q c → (∀ r, G c r → P r) → triple G Q P (call c).
Proof.
  intros Hc HP r Hr. split; [by repeat constructor|]. intros ? [= <-]. auto.
Qed.

Lemma triple_bind {A B : Type} (Q : Call → Prop) (P : A → Prop) (R : B → Prop)
    (p : Prog A) (f : A → Prog B) :
  triple G Q P p → (∀ a, P a → triple G Q R (f a)) → triple G Q R (bind p f).
Proof.
  intros Hp Hf. apply wp_bind. eapply wp_mono; [|exact Hp].
  intros t [a|] [Ht Ho]; simpl.
  - eapply wp_mono; [|apply Hf; by apply Ho].
    intros t' o' [Ht' Ho']. split; [by apply Forall_app|done].
  - split; [done|]. by intros ? [=].
Qed.

Lemma triple_deref {A : Type} (Q : Call → Prop) (P : A → Prop) (o : option A) :
  (∀ a, o = Some a → P a) → triple G Q P (deref o).
Proof. destruct o; intros H; [apply triple_ret; auto|apply triple_throw]. Qed.

Lemma triple_await (Q : Call → Prop) (P : unit → Prop) (r : Settled) :
  P tt → triple G Q P (await r).
Proof. destruct r; intros H; [by apply triple_ret|apply triple_throw]. Qed.

(** The loops, with an invariant that follows the elements already seen. *)
Lemma triple_foldM {A B : Type} (Q : Call → Prop) (I : list A → B → Prop)
    (f : B → A → Prog B) (l : list A) (b : B) :
  I [] b →
  (∀ done a rest b, l = done ++ a :: rest → I done b →
     triple G Q (I (done ++ [a])) (f b a)) →
  triple G Q (I l) (foldM f l b).
Proof.
  intros Hb Hf.
  cut (∀ rest done b, l = done ++ rest → I done b →
         triple G Q (I l) (foldM f rest b)).
  { intros H. by apply (H l [] b). }
  clear b Hb. induction rest as [|a rest IH]; intros done b Hl Hb; simpl.
  - apply triple_ret. by rewrite Hl, app_nil_r.
  - eapply triple_bind; [by eapply Hf|].
    intros b' Hb'. apply (IH (done ++ [a])); [|done].
    by rewrite <- app_assoc.
Qed.

Lemma triple_forM_ {A : Type} (Q : Call → Prop) (f : A → Prog unit) (l : list A) :
  (∀ a, a ∈ l → triple G Q (λ _, True) (f a)) →
  triple G Q (λ _, True) (forM_ f l).
Proof.
  induction l as [|a l IH]; intros Hf; simpl; [by apply triple_ret|].
  eapply triple_bind; [apply Hf; left|].
  intros _ _. apply IH. intros a' Ha'. apply Hf. by right.
Qed.

Lemma triple_mapM {A B : Type} (Q : Call → Prop) (P : A → B → Prop)
    (f : A → Prog B) (l : list A) :
  (∀ a, a ∈ l → triple G Q (P a) (f a)) →
  triple G Q (Forall2 P l) (mapM f l).
Proof.
  induction l as [|a l IH]; intros Hf; simpl; [by apply triple_ret|].
  eapply triple_bind; [apply Hf; left|]. intros b Hb.
  eapply triple_bind; [apply IH; intros a' Ha'; apply Hf; by right|].
  intros bs Hbs. apply triple_ret. by constructor.
Qed.

Lemma triple_filterM {A : Type} (Q : Call → Prop) (P : A → Prop)
    (f : A → Prog bool) (l : list A) :
  (∀ a, a ∈ l → triple G Q (λ keep : bool, keep = true → P a) (f a)) →
  triple G Q (λ kept, Forall P kept ∧ kept ⊆ l) (filterM f l).
Proof.
  induction l as [|a l IH]; intros Hf; simpl.
  { apply triple_ret. by split. }
  eapply triple_bind; [apply Hf; left|]. intros keep Hkeep.
  eapply triple_bind; [apply IH; intros a' Ha'; apply Hf; by right|].
  intros rest [Hrest Hsub]. apply triple_ret. destruct keep.
  - split; [constructor; auto|]. by apply list_subseteq_skip.
  - split; [done|]. by apply list_subseteq_cons.
Qed.

Lemma triple_sound {S A : Type} (h : Env S) (Q : Call → Prop) (P : A → Prop)
    (p : Prog A) (s : S) :
  respects G h → triple G Q P p →
  Forall Q (trace h p s) ∧ ∀ a, result h p s = Some a → P a.
Proof. intros Hh Hp. by apply (wp_sound h p _ s Hh Hp). Qed.
End Logic.

(** ** The guards of the handler *)

(** C10 — Null-actor guard: when the moved token has no actor, the handler
    returns normally (it dereferences nothing that is missing) without any
    proximity snapshot, geometry computation, read of an actor's effects or
    request to the active GM, whatever the environment answers. *)
Theorem null_actor_guard {S : Type} (h : Env S) (s : S) (seenWarning : bool)
    (token : Token.t) (updates : Updates) (options : Options) (userId : string) :
  Token.actor token = None →
  is_Some (result h (updateToken seenWarning token updates options userId) s)
  ∧ Forall (λ c, isSnapshot c = false ∧ isGeometry c = false
                 ∧ isEffectsRead c = false ∧ isQuery c = false)
      (trace h (updateToken seenWarning token updates options userId) s).
Proof.
  intros Hactor. unfold result, trace, updateToken. simpl.
  destruct (h game_user_id s) as [me s1]. simpl.
  case_bool_decide; simpl; [split; [eauto|by repeat constructor]|].
  destruct (h game_users_activeGM s1) as [[gm|] s2]; simpl.
  - rewrite Hactor. simpl. split; [eauto|by repeat constructor].
  - destruct seenWarning; simpl; [split; [eauto|by repeat constructor]|].
    destruct (h (ui_notifications_warn "AURAS.NoActiveGM") s2) as [[] s3]. simpl.
    split; [eauto|by repeat constructor].
Qed.

Lemma null_actor_guard_witness :
  Token.actor (Token.mk "T0" None 1) = None
  ∧ is_Some (result (staticEnv Scene1.world)
               (updateToken false (Token.mk "T0" None 1)
                  (mkUpdates (num (Fin 100)) undefined undefined) tt "alice")
               0%nat).
Proof.
  split; [reflexivity|].
  apply (null_actor_guard (staticEnv Scene1.world) 0%nat false (Token.mk "T0" None 1)).
  reflexivity.
Defined.

(** C6 (amended) — Trigger condition: the handler performs reconciliation
    when the initiating user is the local participant, an active GM is
    present, the token has an actor and the update carries a truthy x, y or
    elevation; any reconciliation it performs implies that the initiator is
    local, a GM is present, the token has an actor and the update touches x,
    y or elevation; and for an invocation by a non-initiating participant, or
    whose update touches none of x, y and elevation, the handler returns
    without any snapshot or request. *)
Theorem trigger_condition {S : Type} (h : Env S) (s : S) (seenWarning : bool)
    (token : Token.t) (updates : Updates) (options : Options) (userId : string) :
  let me := (h game_user_id s).1 in
  let s1 := (h game_user_id s).2 in
  let activeGM := (h game_users_activeGM s1).1 in
  let s2 := (h game_users_activeGM s1).2 in
  let touched :=
    x updates ≠ undefined ∨ y updates ≠ undefined ∨ elevation updates ≠ undefined in
  let t := trace h (updateToken seenWarning token updates options userId) s in
  (∀ gm, me = userId → activeGM = Some gm → is_Some (Token.actor token) →
     truthy (x updates) || truthy (y updates) || truthy (elevation updates) = true →
     t = game_user_id :: game_users_activeGM :: trace h (reconcile gm token) s2)
  ∧ (existsb isReconciliation t = true →
     me = userId ∧ is_Some activeGM ∧ is_Some (Token.actor token) ∧ touched)
  ∧ (me ≠ userId ∨ ¬ touched →
     is_Some (result h (updateToken seenWarning token updates options userId) s)
     ∧ existsb isReconciliation t = false).
Proof.
  unfold result, trace, updateToken. simpl.
  destruct (h game_user_id s) as [me s1]. simpl.
  case_bool_decide as Hme; simpl.
  { split; [by intros|]. split; [done|]. eauto. }
  destruct (h game_users_activeGM s1) as [[gm|] s2]; simpl.
  2:{ destruct seenWarning; simpl.
      - split; [by intros|]. split; [done|]. eauto.
      - destruct (h (ui_notifications_warn "AURAS.NoActiveGM") s2) as [[] s3]. simpl.
        split; [by intros|]. split; [done|]. eauto. }
  destruct (Token.actor token) as [a|] eqn:Hactor; simpl.
  2:{ split; [by intros ???[]|]. split; [done|]. eauto. }
  destruct (negb (truthy (x updates)) && negb (truthy (y updates))
            && negb (truthy (elevation updates))) eqn:Hfalsy; simpl.
  { apply andb_true_iff in Hfalsy as [Hxy Hz]. apply andb_true_iff in Hxy as [Hx Hy].
    apply negb_true_iff in Hx, Hy, Hz. rewrite Hx, Hy, Hz.
    split; [by intros|]. split; [done|]. eauto. }
  assert (x updates ≠ undefined ∨ y updates ≠ undefined ∨ elevation updates ≠ undefined)
    as Htouched.
  { destruct (x updates), (y updates), (elevation updates); simpl in Hfalsy;
      try discriminate; eauto. }
  rewrite run_bind.
  destruct (run h (reconcile gm token) s2) as [[[[]|] s3] tr] eqn:Hrun; simpl;
    rewrite ?app_nil_r.
  all: split; [by intros ? _ [= <-] _ _; rewrite Hrun|].
  all: split; [by eauto|].
  all: intros [?|?]; [done|tauto].
Qed.

Lemma trigger_condition_witness :
  trace (staticEnv Scene1.world)
    (updateToken false Scene1.tokenA Scene1.updatesX tt "alice") 0%nat
  = game_user_id :: game_users_activeGM
      :: trace (staticEnv Scene1.world) (reconcile "gm" Scene1.tokenA) 0%nat
  ∧ existsb isReconciliation
      (trace (staticEnv Scene1.world)
         (updateToken false Scene1.tokenA Scene1.updatesX tt "bob") 0%nat) = false.
Proof.
  split.
  - apply (proj1 (trigger_condition (staticEnv Scene1.world) 0%nat false Scene1.tokenA
                    Scene1.updatesX tt "alice") "gm");
      [reflexivity | reflexivity | by eexists | reflexivity].
  - apply (proj2 (proj2 (trigger_condition (staticEnv Scene1.world) 0%nat false
                           Scene1.tokenA Scene1.updatesX tt "bob"))).
    left. discriminate.
Defined.

(** C6 as stated fails: the local participant initiates an update that
    changes x, yet with no active GM nothing of the reconciliation runs. *)
Lemma trigger_condition_counterexample :
  ¬ (existsb isReconciliation
       (trace (staticEnv Scene1.worldNoGM)
          (updateToken false Scene1.tokenA Scene1.updatesX tt "alice") 0%nat) = true
     ↔ answer Scene1.worldNoGM game_user_id = "alice"
       ∧ (x Scene1.updatesX ≠ undefined ∨ y Scene1.updatesX ≠ undefined
          ∨ elevation Scene1.updatesX ≠ undefined)).
Proof.
  intros [_ H]. assert (false = true) as Hf; [|discriminate Hf].
  apply H. split; [reflexivity|]. left. discriminate.
Qed.

(** An update that moves the token to x = 0 is taken for no movement. *)
Example move_to_zero_not_reconciled :
  trace (staticEnv Scene1.world)
    (updateToken false Scene1.tokenA (mkUpdates (num (Fin 0)) undefined undefined) tt
       "alice") 0%nat
  = [game_user_id; game_users_activeGM].
Proof. reflexivity. Qed.

(** ** The warning latch *)

Lemma updateToken_no_authority {S : Type} (h : Env S) (me : string) (s : S)
    (seenWarning : bool) (token : Token.t) (updates : Updates) (options : Options)
    (userId : string) :
  (∀ s, (h game_user_id s).1 = me) →
  (∀ s, (h game_users_activeGM s).1 = None) →
  ∃ s',
    run h (updateToken seenWarning token updates options userId) s
    = (Some (seenWarning || bool_decide (userId = me)), s',
       game_user_id ::
         (if bool_decide (userId = me)
          then game_users_activeGM ::
                 (if seenWarning then [] else [ui_notifications_warn "AURAS.NoActiveGM"])
          else [])).
Proof.
  intros Hme Hgm. unfold updateToken. simpl.
  specialize (Hme s). destruct (h game_user_id s) as [me' s1]. simpl in Hme. subst me'.
  case_bool_decide as Hne; simpl.
  - rewrite bool_decide_eq_false_2 by done. rewrite orb_false_r. eauto.
  - rewrite (bool_decide_eq_true_2 (userId = me)) by done. rewrite orb_true_r.
    specialize (Hgm s1). destruct (h game_users_activeGM s1) as [gm s2].
    simpl in Hgm. subst gm. simpl.
    destruct seenWarning; simpl; [eauto|].
    destruct (h (ui_notifications_warn "AURAS.NoActiveGM") s2) as [[] s3]. eauto.
Qed.

Lemma no_authority_session {S : Type} (h : Env S) (me : string) :
  (∀ s, (h game_user_id s).1 = me) →
  (∀ s, (h game_users_activeGM s).1 = None) →
  ∀ (invs : list Invocation) (seenWarning : bool) (s : S),
    length (sessionTraces h seenWarning invs s) = length invs
    ∧ (∀ k i t, invs !! k = Some i → sessionTraces h seenWarning invs s !! k = Some t →
         countCalls isWarning t =
           if bool_decide (seenWarning = false ∧ inv_userId i = me
                           ∧ Forall (λ j, inv_userId j ≠ me) (take k invs))
           then 1%nat else 0%nat)
    ∧ Forall (Forall (λ c, isQuery c = false)) (sessionTraces h seenWarning invs s).
Proof.
  intros Hme Hgm. unfold sessionTraces.
  induction invs as [|i0 invs IH]; intros seenWarning s.
  { split; [done|]. split; [|constructor]. by intros k i t Hk. }
  cbn [runSession].
  destruct (updateToken_no_authority h me s seenWarning (inv_token i0) (inv_updates i0)
              (inv_options i0) (inv_userId i0) Hme Hgm) as [s' ->]. simpl.
  specialize (IH (seenWarning || bool_decide (inv_userId i0 = me)) s').
  destruct (runSession h (seenWarning || bool_decide (inv_userId i0 = me)) invs s')
    as [[ts seen'] s''] eqn:Hrest. simpl in *.
  destruct IH as (Hlen & Hcount & Hquery).
  split; [by rewrite Hlen|]. split.
  - intros [|k] i t Hi Ht; simpl in *.
    + injection Hi as <-. injection Ht as <-.
      pose proof (Forall_nil_2 (λ j : Invocation, inv_userId j ≠ me)) as Hnil.
      destruct seenWarning; repeat case_bool_decide; simpl; try done.
      all: exfalso; intuition (try done).
    + rewrite (Hcount k i t Hi Ht).
      destruct seenWarning; simpl; repeat case_bool_decide; try done.
      all: exfalso; rewrite ?Forall_cons in *; intuition (try done).
  - constructor; [|done].
    destruct seenWarning; case_bool_decide; by repeat constructor.
Qed.

(** C4 (amended) — No-authority behaviour: in a session during which no
    active GM is present, starting with the latch unset, the first invocation
    initiated by the local participant surfaces exactly one warning, every
    other invocation (earlier ones by other participants, and all later ones)
    surfaces none, and no invocation dispatches a request. *)
Theorem no_authority_latch {S : Type} (h : Env S) (me : string)
    (invs : list Invocation) (s : S) :
  (∀ s, (h game_user_id s).1 = me) →
  (∀ s, (h game_users_activeGM s).1 = None) →
  length (sessionTraces h false invs s) = length invs
  ∧ (∀ k i t, invs !! k = Some i → sessionTraces h false invs s !! k = Some t →
       countCalls isWarning t =
         if bool_decide (inv_userId i = me
                         ∧ Forall (λ j, inv_userId j ≠ me) (take k invs))
         then 1%nat else 0%nat)
  ∧ Forall (Forall (λ c, isQuery c = false)) (sessionTraces h false invs s).
Proof.
  intros Hme Hgm.
  destruct (no_authority_session h me Hme Hgm invs false s) as (Hlen & Hcount & Hquery).
  split; [done|]. split; [|done].
  intros k i t Hi Ht. rewrite (Hcount k i t Hi Ht).
  apply (f_equal (λ b : bool, if b then 1%nat else 0%nat)).
  apply bool_decide_ext. tauto.
Qed.

Lemma no_authority_latch_witness :
  countCalls isWarning <$>
    sessionTraces (staticEnv Scene1.worldNoGM) false
      [Scene1.moveByBob; Scene1.moveA; Scene1.moveA] 0%nat
  = [0%nat; 1%nat; 0%nat]
  ∧ Forall (Forall (λ c, isQuery c = false))
      (sessionTraces (staticEnv Scene1.worldNoGM) false
         [Scene1.moveByBob; Scene1.moveA; Scene1.moveA] 0%nat).
Proof.
  split; [reflexivity|].
  apply (no_authority_latch (staticEnv Scene1.worldNoGM) "alice"
           [Scene1.moveByBob; Scene1.moveA; Scene1.moveA] 0%nat);
    intros n; reflexivity.
Defined.

(** C4 as stated fails: with no active GM, the first invocation of the
    session is an update initiated by another participant, and it surfaces no
    warning. *)
Lemma no_authority_latch_counterexample :
  answer Scene1.worldNoGM game_users_activeGM = None
  ∧ ¬ (countCalls isWarning <$>
         sessionTraces (staticEnv Scene1.worldNoGM) false [Scene1.moveByBob] 0%nat !! 0%nat
       = Some 1%nat).
Proof. split; [reflexivity|]. intros [=]. Qed.

(** ** The scan of the scene *)

Lemma Qlt_bool_iff (x y : Q) : Qlt_bool x y = true ↔ (x < y)%Q.
Proof.
  unfold Qlt_bool. rewrite negb_true_iff, <- not_true_iff_false, Qle_bool_iff.
  split; [apply Qnot_le_lt|apply Qlt_not_le].
Qed.

Lemma run_classify {S : Type} (h : Env S) (s : S) (token sourceToken : Token.t)
    (toRemove toAdd : list Effect.t) (currEffect : Effect.t) :
  run h (classify token sourceToken (toRemove, toAdd) currEffect) s
  = let c := getTokenToTokenDistance token sourceToken
               (System.collisionTypes (Effect.system currEffect)) in
    (Some (if js_lt (System.distance (Effect.system currEffect)) (h c s).1
           then (toRemove ++ [currEffect], toAdd)
           else (toRemove, toAdd ++ [currEffect])),
     (h c s).2, [c]).
Proof.
  unfold classify. simpl.
  destruct (h (getTokenToTokenDistance token sourceToken
                 (System.collisionTypes (Effect.system currEffect))) s) as [d s'].
  simpl. by destruct (js_lt _ d).
Qed.

(** C7 — Inclusive boundary: when an aura of radius R is evaluated against
    the moving token, a distance equal to R puts the aura in the addition
    list and not in the removal list; the aura goes to the removal list
    exactly when the distance is strictly greater than R, and to the addition
    list exactly when the distance is at most R. *)
Theorem inclusive_boundary {S : Type} (h : Env S) (s : S)
    (token sourceToken : Token.t) (toRemove toAdd : list Effect.t)
    (currEffect : Effect.t) (R : Q) :
  System.distance (Effect.system currEffect) = num (Fin R) →
  let distance :=
    (h (getTokenToTokenDistance token sourceToken
          (System.collisionTypes (Effect.system currEffect))) s).1 in
  let o := result h (classify token sourceToken (toRemove, toAdd) currEffect) s in
  (number_eq distance (Fin R) = true → o = Some (toRemove, toAdd ++ [currEffect]))
  ∧ (∀ q, distance = Fin q →
       (o = Some (toRemove ++ [currEffect], toAdd) ↔ (R < q)%Q)
       ∧ (o = Some (toRemove, toAdd ++ [currEffect]) ↔ (q <= R)%Q)).
Proof.
  intros HR. unfold result. rewrite run_classify. simpl. rewrite HR.
  destruct (h _ s) as [d s']. simpl. unfold js_lt. simpl.
  assert (∀ l : list Effect.t, l ++ [currEffect] ≠ l) as Hne.
  { intros l Hl. apply (f_equal length) in Hl. rewrite length_app in Hl.
    simpl in Hl. lia. }
  split.
  - destruct d as [q| | |]; simpl; try done. intros Heq%Qeq_bool_iff.
    destruct (Qlt_bool R q) eqn:Hlt; [|done].
    apply Qlt_bool_iff in Hlt. rewrite Heq in Hlt. by apply Qlt_irrefl in Hlt.
  - intros q ->. simpl. destruct (Qlt_bool R q) eqn:Hlt.
    + apply Qlt_bool_iff in Hlt. split; [done|]. split.
      * intros [= Hl _]. first [by apply Hne in Hl | symmetry in Hl; by apply Hne in Hl].
      * intros Hle. by apply Qlt_not_le in Hlt.
    + assert (q <= R)%Q as Hle.
      { apply Qnot_lt_le. intros Hl%Qlt_bool_iff. congruence. }
      split; [|done]. split.
      * intros [= Hl _]. first [by apply Hne in Hl | symmetry in Hl; by apply Hne in Hl].
      * intros Hl. by apply Qlt_not_le in Hl.
Qed.

Lemma inclusive_boundary_witness :
  result (staticEnv Scene1.world)
    (classify Scene1.tokenA Scene1.tokenB ([], [])
       (Scene1.aura "Actor.B.ActiveEffect.F" (num (Fin 5)))) 0%nat
  = Some ([], [Scene1.aura "Actor.B.ActiveEffect.F" (num (Fin 5))]).
Proof.
  apply (inclusive_boundary (staticEnv Scene1.world) 0%nat Scene1.tokenA Scene1.tokenB
           [] [] (Scene1.aura "Actor.B.ActiveEffect.F" (num (Fin 5))) 5);
    reflexivity.
Defined.

Lemma run_foldM_classify {S : Type} (h : Env S) (token sourceToken : Token.t)
    (auraEffects : list Effect.t) (acc : list Effect.t * list Effect.t) (s : S) :
  is_Some (result h (foldM (classify token sourceToken) auraEffects acc) s)
  ∧ trace h (foldM (classify token sourceToken) auraEffects acc) s
    = distanceCalls token sourceToken auraEffects.
Proof.
  unfold result, trace. revert acc s.
  induction auraEffects as [|e l IH]; intros [toRemove toAdd] s.
  { simpl. eauto. }
  cbn [foldM]. rewrite run_bind, run_classify. cbn beta iota zeta.
  match goal with |- context [run h (foldM _ l ?acc') ?s'] =>
    specialize (IH acc' s'); destruct (run h (foldM _ l acc') s') as [[o s''] t]
  end.
  simpl in *. destruct IH as [Ho ->]. done.
Qed.

Lemma trace_sceneStep {S : Type} (h : Env S) (s : S) (token sourceToken : Token.t)
    (acc : list Effect.t * list Effect.t) (sourceActor : Actor.t) :
  Token.actor sourceToken = Some sourceActor →
  Token.actor sourceToken ≠ Token.actor token →
  trace h (sceneStep token acc sourceToken) s
  = appliedEffects sourceActor ::
      distanceCalls token sourceToken
        (List.filter (auraFilter (effectiveDisposition token sourceToken))
           (h (appliedEffects sourceActor) s).1).
Proof.
  intros Hsa Hne. unfold trace, sceneStep.
  rewrite bool_decide_eq_false_2 by done. rewrite Hsa. simpl.
  destruct (h (appliedEffects sourceActor) s) as [applied s']. simpl.
  case_bool_decide as Hlen.
  - apply length_zero_iff_nil in Hlen. by rewrite Hlen.
  - pose proof (run_foldM_classify h token sourceToken
                  (List.filter (auraFilter (effectiveDisposition token sourceToken)) applied)
                  acc s') as [_ Ht].
    unfold trace in Ht.
    destruct (run h (foldM _ _ acc) s') as [[o s''] t]. simpl in *. by rewrite Ht.
Qed.

(** C8 — Disposition matching: for the moving token and another token of a
    different actor, the effective disposition is the product of the two
    tokens' disposition codes (again in {-1, 0, 1} when both are); the distance
    is computed for exactly the applied effects of the other actor that pass
    the filter, and an aura-tagged effect passes it if and only if its own
    disposition is 0 or equals the product; the product is the same whichever
    of the two tokens is the moving one. *)
Theorem disposition_matching {S : Type} (h : Env S) (s : S)
    (token sourceToken : Token.t) (acc : list Effect.t * list Effect.t)
    (sourceActor : Actor.t) :
  Token.actor sourceToken = Some sourceActor →
  Token.actor sourceToken ≠ Token.actor token →
  let product := Token.disposition token * Token.disposition sourceToken in
  let applied := (h (appliedEffects sourceActor) s).1 in
  let auraEffects :=
    List.filter (auraFilter (effectiveDisposition token sourceToken)) applied in
  effectiveDisposition token sourceToken = product
  ∧ (Token.disposition token ∈ [-1; 0; 1] → Token.disposition sourceToken ∈ [-1; 0; 1] →
     product ∈ [-1; 0; 1])
  ∧ trace h (sceneStep token acc sourceToken) s
    = appliedEffects sourceActor :: distanceCalls token sourceToken auraEffects
  ∧ (∀ e, e ∈ applied → Effect.type e = "auras.aura" →
       (e ∈ auraEffects ↔
        System.disposition (Effect.system e) = 0
        ∨ System.disposition (Effect.system e) = product))
  ∧ effectiveDisposition token sourceToken = effectiveDisposition sourceToken token.
Proof.
  intros Hsa Hne. cbn zeta. split; [done|]. split.
  { rewrite !elem_of_cons, !elem_of_nil. lia. }
  split; [by apply trace_sceneStep|]. split.
  - intros e He Haura. rewrite list_elem_of_In, filter_In, <- list_elem_of_In.
    unfold auraFilter, isAura, effectiveDisposition.
    rewrite (bool_decide_eq_true_2 _ Haura). simpl.
    rewrite orb_true_iff, !bool_decide_eq_true. tauto.
  - unfold effectiveDisposition. lia.
Qed.

Lemma disposition_matching_witness :
  effectiveDisposition Scene1.tokenA Scene1.tokenB = 1
  ∧ trace (staticEnv Scene1.world) (sceneStep Scene1.tokenA ([], []) Scene1.tokenB) 0%nat
    = [appliedEffects Scene1.actorB;
       getTokenToTokenDistance Scene1.tokenA Scene1.tokenB ["move"]].
Proof.
  pose proof (disposition_matching (staticEnv Scene1.world) 0%nat Scene1.tokenA Scene1.tokenB
                ([], []) Scene1.actorB eq_refl) as H.
  destruct H as (Hd & _ & Ht & _); [discriminate|].
  split; [exact Hd | exact Ht].
Defined.

(** ** What every request of a reconciliation is made of *)

Lemma elem_of_Set_new (l : list (option Actor.t)) (a : option Actor.t) :
  a ∈ Set_new l ↔ a ∈ l.
Proof.
  unfold Set_new.
  cut (∀ acc,
         a ∈ fold_left (λ acc a, if bool_decide (a ∈ acc) then acc else acc ++ [a]) l acc
         ↔ a ∈ acc ∨ a ∈ l).
  { intros H. rewrite H, elem_of_nil. tauto. }
  induction l as [|b l IH]; intros acc; simpl.
  - rewrite elem_of_nil. tauto.
  - rewrite IH, elem_of_cons. case_bool_decide as Hb.
    + split; [tauto|]. intros [?|[->|?]]; auto.
    + rewrite elem_of_app, list_elem_of_singleton. tauto.
Qed.

Lemma elem_of_Set_difference (a b : ActorSet) (e : option Actor.t) :
  e ∈ Set_difference a b ↔ e ∈ a ∧ e ∉ b.
Proof.
  unfold Set_difference.
  rewrite list_elem_of_In, filter_In, <- list_elem_of_In, bool_decide_eq_true. tauto.
Qed.

Section Reconcile.
(** [G] is what is assumed of the engine's answers, [Q] what is to be shown
    of every call of the handler. *)
Context (G : ∀ c : Call, Resp c → Prop) (Q : Call → Prop).
Context (activeGM : User) (token : Token.t).

Hypothesis Q_other : ∀ c, isQuery c = false → Q c.

Hypothesis Q_deleteEffects :
  ∀ actor applied effect source pre post del,
    Token.actor token = Some actor →
    G (appliedEffects actor) applied →
    effect ∈ List.filter isAura applied →
    truthy (System.distance (Effect.system effect)) = true →
    source ∈ List.filter isAura applied →
    Effect.uuid source = Effect.uuid effect →
    truthy (System.distance (Effect.system source)) = true →
    rangeOf G token source pre →
    rangeOf G token effect post →
    Forall2 (deleted G effect) (Set_difference pre post) del →
    Q (query activeGM (deleteEffects del)).

Hypothesis Q_applyEffect :
  ∀ actor applied effect post kept,
    Token.actor token = Some actor →
    G (appliedEffects actor) applied →
    effect ∈ List.filter isAura applied →
    truthy (System.distance (Effect.system effect)) = true →
    rangeOf G token effect post →
    G (isFinalMovementComplete token) true →
    kept ⊆ post →
    Forall (addable G token effect) kept →
    Q (query activeGM
         (applyEffect (effectData effect) ((λ a : option Actor.t, Actor.uuid <$> a) <$> kept))).

Hypothesis Q_deleteAuraEffects :
  ∀ actor tokens sceneAurasToRemove,
    Token.actor token = Some actor →
    G (parent_tokens token) tokens →
    sceneAurasToRemove ≠ [] →
    Forall (evaluated G token tokens true) sceneAurasToRemove →
    Q (query activeGM
         (deleteAuraEffects (Actor.uuid actor) (Effect.uuid <$> sceneAurasToRemove))).

Hypothesis Q_applyAuraEffects :
  ∀ actor tokens sceneAurasToAdd,
    Token.actor token = Some actor →
    G (parent_tokens token) tokens →
    sceneAurasToAdd ≠ [] →
    Forall (evaluated G token tokens false) sceneAurasToAdd →
    G (isFinalMovementComplete token) true →
    Q (query activeGM
         (applyAuraEffects (Actor.uuid actor) (Effect.uuid <$> sceneAurasToAdd))).

Lemma triple_ask (c : Call) : isQuery c = false → triple G Q (G c) (call c).
Proof. intros Hc. apply triple_call; auto. Qed.

Lemma triple_nearbyActors (effect : Effect.t) :
  triple G Q (rangeOf G token effect) (nearbyActors token effect).
Proof.
  unfold nearbyActors.
  eapply triple_bind; [by apply triple_ask|]. intros nearby Hnearby.
  apply triple_ret. by exists nearby.
Qed.

Lemma triple_preMoveStep (sourceEffects : list Effect.t)
    (preMoveRanges : gmap string ActorSet) (effect : Effect.t) :
  effect ∈ sourceEffects →
  recorded G token sourceEffects preMoveRanges →
  triple G Q (recorded G token sourceEffects) (preMoveStep token preMoveRanges effect).
Proof.
  intros Heffect Hranges. unfold preMoveStep.
  destruct (truthy (System.distance (Effect.system effect))) eqn:Hradius; cbn [negb];
    [|by apply triple_ret].
  eapply triple_bind; [apply triple_nearbyActors|]. intros range Hrange.
  apply triple_ret. intros u pre.
  destruct (decide (Effect.uuid effect = u)) as [<-|Hu].
  - rewrite lookup_insert_eq. intros [= <-]. by exists effect.
  - rewrite lookup_insert_ne by done. apply Hranges.
Qed.

Lemma triple_toDelete (effect : Effect.t) (pre post : ActorSet) :
  triple G Q (Forall2 (deleted G effect) (Set_difference pre post))
    (toDelete effect pre post).
Proof.
  unfold toDelete. apply triple_mapM. intros a _.
  eapply triple_bind; [apply (triple_deref G Q (λ a', a = Some a')); auto|].
  intros a' Ha'.
  eapply triple_bind; [by apply triple_ask|]. intros es Hes.
  apply triple_ret. by exists a', es.
Qed.

Lemma triple_toAddTo (effect : Effect.t) (post : ActorSet) :
  triple G Q
    (λ uuids, ∃ kept, kept ⊆ post ∧ Forall (addable G token effect) kept
                      ∧ uuids = (λ a : option Actor.t, Actor.uuid <$> a) <$> kept)
    (toAddTo token effect post).
Proof.
  unfold toAddTo.
  eapply triple_bind.
  { apply (triple_filterM G Q (addable G token effect)). intros a _.
    case_bool_decide as Hself; [by apply triple_ret|].
    destruct a as [a'|].
    - eapply triple_bind; [by apply triple_ask|]. intros es Hes.
      apply triple_ret. intros Hkeep. split; [done|].
      intros ? [= <-]. exists es. split; [done|].
      apply negb_true_iff, bool_decide_eq_false in Hkeep.
      destruct (findByOrigin (Effect.uuid effect) es); [|done].
      by destruct Hkeep.
    - apply triple_ret. intros _. split; [done|]. by intros. }
  intros kept [Hkept Hsub]. apply triple_ret. by exists kept.
Qed.

Lemma triple_postMoveStep (actor : Actor.t) (applied : list Effect.t)
    (preMoveRanges : gmap string ActorSet) (effect : Effect.t) :
  Token.actor token = Some actor →
  G (appliedEffects actor) applied →
  effect ∈ List.filter isAura applied →
  recorded G token (List.filter isAura applied) preMoveRanges →
  triple G Q (λ _, True) (postMoveStep activeGM token preMoveRanges effect).
Proof.
  intros Hactor Happlied Heffect Hranges. unfold postMoveStep.
  destruct (truthy (System.distance (Effect.system effect))) eqn:Hradius; cbn [negb];
    [|by apply triple_ret].
  eapply triple_bind; [apply triple_nearbyActors|]. intros post Hpost.
  eapply triple_bind;
    [apply (triple_deref G Q (λ pre, preMoveRanges !! Effect.uuid effect = Some pre));
     auto|].
  intros pre Hpre. destruct (Hranges _ _ Hpre) as (source & Hsource & Hu & Hr & Hrange).
  eapply triple_bind; [apply triple_toDelete|]. intros del Hdel.
  eapply triple_bind.
  { apply (triple_call G Q _ (λ _, True)); [|done].
    by apply (Q_deleteEffects actor applied effect source pre post del). }
  intros r _. eapply triple_bind; [by apply (triple_await G Q (λ _, True))|].
  intros _ _. eapply triple_bind; [by apply triple_ask|]. intros [] Hfinal;
    [|by apply triple_ret].
  eapply triple_bind; [apply triple_toAddTo|]. intros add (kept & Hsub & Hkept & ->).
  eapply triple_bind.
  { apply (triple_call G Q _ (λ _, True)); [|done].
    by apply (Q_applyEffect actor applied effect post kept). }
  intros r' _. by apply triple_await.
Qed.

Lemma triple_classify (tokens : list Token.t) (sourceToken : Token.t)
    (sourceActor : Actor.t) (applied : list Effect.t)
    (acc : list Effect.t * list Effect.t) (currEffect : Effect.t) :
  sourceToken ∈ tokens →
  Token.actor sourceToken = Some sourceActor →
  Token.actor sourceToken ≠ Token.actor token →
  G (appliedEffects sourceActor) applied →
  currEffect ∈ List.filter (auraFilter (effectiveDisposition token sourceToken)) applied →
  Forall (evaluated G token tokens true) acc.1
  ∧ Forall (evaluated G token tokens false) acc.2 →
  triple G Q
    (λ acc', Forall (evaluated G token tokens true) acc'.1
             ∧ Forall (evaluated G token tokens false) acc'.2)
    (classify token sourceToken acc currEffect).
Proof.
  intros Hin Hsa Hne Happlied Hcurr [Hrem Hadd]. destruct acc as [toRemove toAdd].
  unfold classify. eapply triple_bind; [by apply triple_ask|]. intros d Hd.
  assert (evaluated G token tokens (js_lt (System.distance (Effect.system currEffect)) d)
            currEffect) as Heval.
  { by exists sourceToken, sourceActor, applied, d. }
  simpl in *. destruct (js_lt _ d); apply triple_ret; simpl; split; try done.
  - apply Forall_app. split; [done|]. by constructor.
  - apply Forall_app. split; [done|]. by constructor.
Qed.

Lemma triple_sceneStep (tokens : list Token.t)
    (acc : list Effect.t * list Effect.t) (sourceToken : Token.t) :
  sourceToken ∈ tokens →
  Forall (evaluated G token tokens true) acc.1
  ∧ Forall (evaluated G token tokens false) acc.2 →
  triple G Q
    (λ acc', Forall (evaluated G token tokens true) acc'.1
             ∧ Forall (evaluated G token tokens false) acc'.2)
    (sceneStep token acc sourceToken).
Proof.
  intros Hin Hacc. unfold sceneStep.
  case_bool_decide as Hne; [by apply triple_ret|].
  eapply triple_bind;
    [apply (triple_deref G Q (λ sa, Token.actor sourceToken = Some sa)); auto|].
  intros sourceActor Hsa.
  eapply triple_bind; [by apply triple_ask|]. intros applied Happlied.
  case_bool_decide as Hlen; [by apply triple_ret|].
  apply (triple_foldM G Q (λ _ acc', Forall (evaluated G token tokens true) acc'.1
                                    ∧ Forall (evaluated G token tokens false) acc'.2));
    [done|].
  intros done e rest acc' Hl Hacc'.
  apply (triple_classify tokens sourceToken sourceActor applied); try done.
  rewrite Hl, elem_of_app, elem_of_cons. auto.
Qed.

Lemma triple_sceneDispatch (actor : Actor.t) (tokens : list Token.t)
    (sceneAurasToRemove sceneAurasToAdd : list Effect.t) :
  Token.actor token = Some actor →
  G (parent_tokens token) tokens →
  Forall (evaluated G token tokens true) sceneAurasToRemove →
  Forall (evaluated G token tokens false) sceneAurasToAdd →
  triple G Q (λ _, True)
    (sceneDispatch activeGM token sceneAurasToRemove sceneAurasToAdd).
Proof.
  intros Hactor Htokens Hrem Hadd. unfold sceneDispatch. rewrite Hactor. cbn [deref bind].
  eapply triple_bind with (P := λ _, True).
  { case_bool_decide as Hlen; [|by apply triple_ret].
    eapply triple_bind.
    { apply (triple_call G Q _ (λ _, True)); [|done].
      apply (Q_deleteAuraEffects actor tokens); try done. by intros ->. }
    intros r _. by apply triple_await. }
  intros _ _. case_bool_decide as Hlen; [|by apply triple_ret].
  eapply triple_bind; [by apply triple_ask|]. intros [] Hfinal;
    [|by apply triple_ret].
  eapply triple_bind.
  { apply (triple_call G Q _ (λ _, True)); [|done].
    apply (Q_applyAuraEffects actor tokens); try done. by intros ->. }
  intros r _. by apply triple_await.
Qed.

Lemma triple_reconcile : triple G Q (λ _, True) (reconcile activeGM token).
Proof.
  unfold reconcile.
  eapply triple_bind;
    [apply (triple_deref G Q (λ a, Token.actor token = Some a)); auto|].
  intros actor Hactor.
  eapply triple_bind; [by apply triple_ask|]. intros applied Happlied.
  eapply triple_bind.
  { apply (triple_foldM G Q (λ _, recorded G token (List.filter isAura applied))).
    - by intros u pre.
    - intros done e rest ranges Hl Hranges. apply triple_preMoveStep; [|done].
      rewrite Hl, elem_of_app, elem_of_cons. auto. }
  intros preMoveRanges Hranges.
  eapply triple_bind; [by apply triple_ask|]. intros object _.
  eapply triple_bind; [by apply (triple_deref G Q (λ _, True))|]. intros settled _.
  eapply triple_bind; [by apply (triple_await G Q (λ _, True))|]. intros _ _.
  eapply triple_bind.
  { apply triple_forM_. intros effect Heffect.
    by apply (triple_postMoveStep actor applied). }
  intros _ _.
  eapply triple_bind; [by apply triple_ask|]. intros tokens Htokens.
  eapply triple_bind.
  { apply (triple_foldM G Q (λ _ acc, Forall (evaluated G token tokens true) acc.1
                                      ∧ Forall (evaluated G token tokens false) acc.2)).
    - by split.
    - intros done sourceToken rest acc Hl Hacc. apply triple_sceneStep; [|done].
      rewrite Hl, elem_of_app, elem_of_cons. auto. }
  intros [toRemove toAdd] [Hrem Hadd].
  by apply (triple_sceneDispatch actor tokens).
Qed.
End Reconcile.

(** The guards add only calls that are not requests. *)
Lemma triple_updateToken (G : ∀ c : Call, Resp c → Prop) (Q : Call → Prop)
    (seenWarning : bool) (token : Token.t) (updates : Updates) (options : Options)
    (userId : string) :
  (∀ c, isQuery c = false → Q c) →
  (∀ gm, G game_users_activeGM (Some gm) → triple G Q (λ _, True) (reconcile gm token)) →
  triple G Q (λ _, True) (updateToken seenWarning token updates options userId).
Proof.
  intros Q_other Hreconcile. unfold updateToken.
  eapply triple_bind; [by apply triple_ask|]. intros me _.
  case_bool_decide; [by apply triple_ret|].
  eapply triple_bind; [by apply triple_ask|]. intros [gm|] Hgm.
  - destruct (negb (bool_decide (is_Some (Token.actor token)))); [by apply triple_ret|].
    destruct (negb (truthy (x updates)) && negb (truthy (y updates))
              && negb (truthy (elevation updates))); [by apply triple_ret|].
    eapply triple_bind; [by apply Hreconcile|]. intros _ _. by apply triple_ret.
  - destruct (negb seenWarning); [|by apply triple_ret].
    eapply triple_bind; [by apply (triple_ask G Q Q_other)|]. intros _ _.
    by apply triple_ret.
Qed.

(** ** Segment gating *)


Lemma respects_anyAnswer {S : Type} (h : Env S) : respects anyAnswer h.
Proof. by intros c s. Qed.


Lemma run_call {S : Type} (h : Env S) (c : Call) (s : S) :
  run h (call c) s = (Some (h c s).1, (h c s).2, [c]).
Proof. unfold call. simpl. by destruct (h c s). Qed.










Lemma countCalls_app (f : Call → bool) (t1 t2 : list Call) :
  countCalls f (t1 ++ t2) = (countCalls f t1 + countCalls f t2)%nat.
Proof. unfold countCalls. by rewrite List.filter_app, length_app. Qed.

Lemma countCalls_none (f : Call → bool) (t : list Call) :
  Forall (λ c, f c = false) t → countCalls f t = 0%nat.
Proof.
  unfold countCalls. induction 1 as [|c t Hc _ IH]; simpl; [done|]. by rewrite Hc.
Qed.








(** The three-segment move: the removal is requested after the first
    segment, nothing is added after the first or the second, and the addition
    is requested after the third. *)
Example three_segment_move :
  List.filter isQuery <$> sessionTraces (timelineEnv Path.worlds) false
                            [Path.move; Path.move; Path.move] 0%nat
  = [ [query "gm" (deleteEffects [Some "Actor.B.ActiveEffect.E1"])];
      [query "gm" (deleteEffects [])];
      [query "gm" (deleteEffects []);
       query "gm" (applyEffect (effectData Path.auraE) [Some "Actor.B"])] ].
Proof. reflexivity. Qed.

(** ** Self-exclusion *)

(** What [toAddTo] returns are the uuids of actors of the range that pass
    its filter. *)
Lemma toAddTo_kept {S : Type} (G : ∀ c : Call, Resp c → Prop) (h : Env S) (s : S)
    (token : Token.t) (effect : Effect.t) (postMoveRange : ActorSet)
    (uuids : list (option string)) :
  respects G h →
  result h (toAddTo token effect postMoveRange) s = Some uuids →
  ∃ kept,
    kept ⊆ postMoveRange
    ∧ Forall (addable G token effect) kept
    ∧ uuids = (λ a : option Actor.t, Actor.uuid <$> a) <$> kept.
Proof.
  intros Hh Hresult.
  by apply (triple_sound G h _ _ _ s Hh
              (triple_toAddTo G (λ _, True) token (λ _ _, I) effect postMoveRange)).
Qed.

(** C9 — Self-exclusion: the moving token's own actor is in no addition
    request made from its own aura source effects.  The actors [toAddTo]
    keeps never include the moving actor, even when the range does; hence no
    applyEffect request lists the moving actor (uuids identifying the actors
    a spatial query returns); and the scan of the scene skips every token of
    the moving actor, without any call. *)
Theorem self_exclusion {S : Type} (h : Env S) (s : S) (seenWarning : bool)
    (token : Token.t) (updates : Updates) (options : Options) (userId : string)
    (moving : Actor.t) :
  Token.actor token = Some moving →
  (∀ effect postMoveRange uuids,
     result h (toAddTo token effect postMoveRange) s = Some uuids →
     ∃ kept,
       kept ⊆ postMoveRange ∧ (Some moving ∉ kept)
       ∧ uuids = (λ a : option Actor.t, Actor.uuid <$> a) <$> kept)
  ∧ ((∀ t r d ct s a,
        Some a ∈ Token.actor <$> (h (getNearbyTokens t r d ct) s).1 →
        Actor.uuid a = Actor.uuid moving → a = moving) →
     Forall (λ c, ∀ gm data uuids,
               c = query gm (applyEffect data uuids) → Some (Actor.uuid moving) ∉ uuids)
       (trace h (updateToken seenWarning token updates options userId) s))
  ∧ (∀ acc sourceToken,
       Token.actor sourceToken = Token.actor token →
       sceneStep token acc sourceToken = Ret acc).
Proof.
  intros Hmoving. split; [|split].
  - intros effect postMoveRange uuids Hresult.
    destruct (toAddTo_kept anyAnswer h s token effect postMoveRange uuids
                (respects_anyAnswer h) Hresult) as (kept & Hsub & Hkept & ->).
    exists kept. split; [done|]. split; [|done].
    intros Hin. rewrite Forall_forall in Hkept.
    destruct (Hkept _ Hin) as [Hne _]. by rewrite Hmoving in Hne.
  - intros Huuid.
    assert (respects (uuidIdentifies moving) h) as Hh.
    { intros c s'. destruct c; try done. intros a. apply Huuid. }
    apply (triple_sound (uuidIdentifies moving) h _ (λ _, True) _ s Hh).
    apply triple_updateToken; [by intros c Hc gm data uuids ->|]. intros activeGM _.
    apply triple_reconcile; try (intros; congruence).
    + by intros c Hc gm data uuids ->.
    + intros actor applied effect post kept _ _ _ _ (nearby & Hnearby & ->) _ Hsub
        Hkept gm data uuids [= _ _ <-] Hin.
      apply list_elem_of_fmap in Hin as ([a|] & Ha & Hin); [|done].
      injection Ha as Ha.
      assert (a = moving) as ->.
      { apply Hnearby; [|done]. by apply elem_of_Set_new, Hsub. }
      rewrite Forall_forall in Hkept. destruct (Hkept _ Hin) as [Hne _].
      by rewrite Hmoving in Hne.
  - intros acc sourceToken Hsame. unfold sceneStep.
    by rewrite bool_decide_eq_true_2.
Qed.

Lemma self_exclusion_witness :
  Some Scene1.tokenA ∈ Some <$> answer Scene1.worldSelf
                                  (getNearbyTokens Scene1.tokenA (num (Fin 10)) 0 ["move"])
  ∧ Forall (λ c, ∀ gm data uuids,
              c = query gm (applyEffect data uuids) →
              Some (Actor.uuid Scene1.actorA) ∉ uuids)
      (trace (staticEnv Scene1.worldSelf)
         (updateToken false Scene1.tokenA Scene1.updatesX tt "alice") 0%nat).
Proof.
  split; [by left|].
  apply (self_exclusion (staticEnv Scene1.worldSelf) 0%nat false Scene1.tokenA
           Scene1.updatesX tt "alice" Scene1.actorA); [reflexivity|].
  intros t r d ct n a Ha Hu. simpl in Ha.
  rewrite !elem_of_cons, elem_of_nil in Ha.
  destruct Ha as [[= ->]|[[= ->]|[]]]; [reflexivity|discriminate Hu].
Defined.

(** ** Derived effects already held *)

Lemma holder_not_addable (G : ∀ c : Call, Resp c → Prop) (token : Token.t)
    (effect : Effect.t) (target : Actor.t) (kept : ActorSet) :
  (∀ es, G (effects target) es → is_Some (findByOrigin (Effect.uuid effect) es)) →
  Forall (addable G token effect) kept →
  Some target ∉ kept.
Proof.
  intros Hholds Hkept Hin. rewrite Forall_forall in Hkept.
  destruct (Hkept _ Hin) as [_ Hnone].
  destruct (Hnone target eq_refl) as (es & Hes & Hfind).
  specialize (Hholds es Hes). rewrite Hfind in Hholds. by destruct Hholds.
Qed.

(** C2 (amended) — Duplicate prevention in the source pass: when the target
    actor already holds a derived effect whose origin is the source effect's
    identifier, [toAddTo] does not keep the target actor, and no applyEffect
    request for that source effect lists it (uuids identifying the actors a
    spatial query returns). *)
Theorem duplicate_prevention {S : Type} (h : Env S) (s : S) (seenWarning : bool)
    (token : Token.t) (updates : Updates) (options : Options) (userId : string)
    (target : Actor.t) (origin : string) :
  (∀ s, is_Some (findByOrigin origin (h (effects target) s).1)) →
  (∀ effect postMoveRange uuids,
     Effect.uuid effect = origin →
     result h (toAddTo token effect postMoveRange) s = Some uuids →
     ∃ kept,
       kept ⊆ postMoveRange ∧ (Some target ∉ kept)
       ∧ uuids = (λ a : option Actor.t, Actor.uuid <$> a) <$> kept)
  ∧ ((∀ t r d ct s a,
        Some a ∈ Token.actor <$> (h (getNearbyTokens t r d ct) s).1 →
        Actor.uuid a = Actor.uuid target → a = target) →
     Forall (λ c, ∀ gm data uuids,
               c = query gm (applyEffect data uuids) →
               Effect.origin data = Some origin →
               Some (Actor.uuid target) ∉ uuids)
       (trace h (updateToken seenWarning token updates options userId) s)).
Proof.
  intros Hholds. split.
  - intros effect postMoveRange uuids <- Hresult.
    assert (respects (holdsDerived target (Effect.uuid effect)) h) as Hh.
    { intros c s'. destruct c; try done. intros ->. apply Hholds. }
    destruct (toAddTo_kept _ h s token effect postMoveRange uuids Hh Hresult)
      as (kept & Hsub & Hkept & ->).
    exists kept. split; [done|]. split; [|done].
    apply (holder_not_addable (holdsDerived target (Effect.uuid effect)) token effect
             target kept); [|done].
    intros es Hes. by apply Hes.
  - intros Huuid.
    set (G := λ c r, holdsDerived target origin c r ∧ uuidIdentifies target c r).
    assert (respects G h) as Hh.
    { intros c s'. split; destruct c; try done.
      - intros ->. apply Hholds.
      - intros a. apply Huuid. }
    apply (triple_sound G h _ (λ _, True) _ s Hh).
    apply triple_updateToken; [by intros c Hc gm data uuids ->|]. intros activeGM _.
    apply triple_reconcile; try (intros; congruence).
    + by intros c Hc gm data uuids ->.
    + intros actor applied effect post kept _ _ _ _ (nearby & [_ Hnearby] & ->) _ Hsub
        Hkept gm data uuids [= _ <- <-] [= Horigin] Hin.
      apply list_elem_of_fmap in Hin as ([a|] & Ha & Hin); [|done].
      injection Ha as Ha.
      assert (a = target) as ->.
      { apply Hnearby; [|done]. by apply elem_of_Set_new, Hsub. }
      revert Hin. apply (holder_not_addable G token effect target kept); [|done].
      intros es [Hes _]. rewrite Horigin. by apply Hes.
Qed.

Lemma duplicate_prevention_witness :
  Forall (λ c, ∀ gm data uuids,
            c = query gm (applyEffect data uuids) →
            Effect.origin data = Some (Effect.uuid Scene1.auraE) →
            Some (Actor.uuid Scene1.actorB) ∉ uuids)
    (trace (staticEnv Scene1.world)
       (updateToken false Scene1.tokenA Scene1.updatesX tt "alice") 0%nat).
Proof.
  apply (duplicate_prevention (staticEnv Scene1.world) 0%nat false Scene1.tokenA
           Scene1.updatesX tt "alice" Scene1.actorB (Effect.uuid Scene1.auraE)).
  - intros n. by eexists.
  - intros t r d ct n a Ha Hu. simpl in Ha. case_bool_decide.
    + apply list_elem_of_singleton in Ha. by injection Ha as ->.
    + apply list_elem_of_singleton in Ha. injection Ha as ->. discriminate Hu.
Defined.

(** C2 as stated fails for the scan of the scene: the moving actor already
    holds the effect derived from the other token's aura, and the addition
    batch names that aura again. *)
Lemma duplicate_prevention_counterexample :
  ¬ (is_Some (findByOrigin (Effect.uuid Scene1.auraF)
                (answer Scene1.world (effects Scene1.actorA))) →
     query "gm" (applyAuraEffects (Actor.uuid Scene1.actorA) [Effect.uuid Scene1.auraF])
     ∉ trace (staticEnv Scene1.world)
         (updateToken false Scene1.tokenA Scene1.updatesX tt "alice") 0%nat).
Proof.
  intros H. apply H; [by eexists|].
  apply list_elem_of_lookup. by exists 14%nat.
Qed.

(** ** Unchanged proximity sets *)

Lemma NoDup_fmap_eq {A B : Type} (f : A → B) (l : list A) (a b : A) :
  NoDup (f <$> l) → a ∈ l → b ∈ l → f a = f b → a = b.
Proof.
  induction l as [|c l IH]; simpl; [by intros _ Ha%elem_of_nil|].
  rewrite NoDup_cons, !elem_of_cons. intros [Hc Hl] [->|Ha] [->|Hb] Hf; auto.
  - destruct Hc. rewrite Hf. by apply list_elem_of_fmap_2.
  - destruct Hc. rewrite <- Hf. by apply list_elem_of_fmap_2.
Qed.

Lemma Set_difference_subset (a b : ActorSet) :
  (∀ e, e ∈ a → e ∈ b) → Set_difference a b = [].
Proof.
  unfold Set_difference. induction a as [|e a IH]; intros Hsub; simpl; [done|].
  rewrite bool_decide_eq_false_2.
  - apply IH. intros e' He'. apply Hsub. by right.
  - intros Hne. apply Hne, Hsub. by left.
Qed.

(** An update that touches none of x, y and elevation makes no request. *)
Lemma untouched_position_no_request {S : Type} (h : Env S) (s : S)
    (seenWarning : bool) (token : Token.t) (updates : Updates) (options : Options)
    (userId : string) :
  x updates = undefined → y updates = undefined → elevation updates = undefined →
  Forall (λ c, isQuery c = false)
    (trace h (updateToken seenWarning token updates options userId) s).
Proof.
  intros Hx Hy Hz. unfold trace, updateToken. simpl.
  destruct (h game_user_id s) as [me s1]. simpl.
  case_bool_decide; simpl; [by repeat constructor|].
  destruct (h game_users_activeGM s1) as [[gm|] s2]; simpl.
  - rewrite Hx, Hy, Hz. simpl.
    destruct (negb (bool_decide (is_Some (Token.actor token)))); by repeat constructor.
  - destruct seenWarning; simpl; [by repeat constructor|].
    destruct (h (ui_notifications_warn "AURAS.NoActiveGM") s2) as [[] s3]. simpl.
    by repeat constructor.
Qed.

(** C1 (amended) — Reconciliation with unchanged position: an invocation
    whose update touches none of x, y and elevation dispatches no request; an
    invocation that does reconcile while the proximity set of every aura is
    the same before and after the move (the applied effects of an actor having
    distinct uuids) dispatches only deleteEffects requests that carry an empty
    list: the source pass asks for no removal. *)
Theorem unchanged_ranges_delete_nothing {S : Type} (h : Env S) (s : S)
    (seenWarning : bool) (token : Token.t) (updates : Updates) (options : Options)
    (userId : string) (N : Token.t → jsval → Z → list string → ActorSet) :
  (x updates = undefined → y updates = undefined → elevation updates = undefined →
   Forall (λ c, isQuery c = false)
     (trace h (updateToken seenWarning token updates options userId) s))
  ∧ ((∀ t r d ct s a,
        a ∈ Token.actor <$> (h (getNearbyTokens t r d ct) s).1 ↔ a ∈ N t r d ct) →
     (∀ a s, NoDup (Effect.uuid <$> (h (appliedEffects a) s).1)) →
     Forall (λ c, ∀ gm del, c = query gm (deleteEffects del) → del = [])
       (trace h (updateToken seenWarning token updates options userId) s)).
Proof.
  split; [apply untouched_position_no_request|].
  intros Hstable Hnodup.
  assert (respects (stableGeometry N) h) as Hh.
  { intros c s'. destruct c; try done.
    - apply Hnodup.
    - intros a. apply Hstable. }
  apply (triple_sound (stableGeometry N) h _ (λ _, True) _ s Hh).
  apply triple_updateToken; [by intros c Hc gm del ->|]. intros activeGM _.
  apply triple_reconcile; try (intros; congruence).
  - by intros c Hc gm del ->.
  - intros actor applied effect source pre post del _ Happlied Heffect _ Hsource Hu _
      (nearby1 & Hnearby1 & ->) (nearby2 & Hnearby2 & ->) Hdel gm del' [= _ <-].
    assert (source = effect) as ->.
    { apply list_elem_of_In, filter_In in Heffect as [Heffect _].
      apply list_elem_of_In, filter_In in Hsource as [Hsource _].
      apply list_elem_of_In in Heffect, Hsource.
      by apply (NoDup_fmap_eq Effect.uuid applied). }
    rewrite Set_difference_subset in Hdel; [by inversion Hdel|].
    intros e He. apply (proj1 (elem_of_Set_new _ _)) in He.
    apply (proj2 (elem_of_Set_new _ _)).
    apply (Hnearby2 e). by apply (Hnearby1 e).
Qed.

Lemma unchanged_ranges_delete_nothing_witness :
  Forall (λ c, isQuery c = false)
    (trace (staticEnv Scene1.world)
       (updateToken false Scene1.tokenA (mkUpdates undefined undefined undefined) tt
          "alice") 0%nat)
  ∧ Forall (λ c, ∀ gm del, c = query gm (deleteEffects del) → del = [])
      (trace (staticEnv Scene1.world)
         (updateToken false Scene1.tokenA Scene1.updatesX tt "alice") 0%nat).
Proof.
  split.
  - apply (unchanged_ranges_delete_nothing (staticEnv Scene1.world) 0%nat false
             Scene1.tokenA (mkUpdates undefined undefined undefined) tt "alice"
             (λ t r d ct, Token.actor <$> w_nearby Scene1.world t r d ct));
      reflexivity.
  - apply (unchanged_ranges_delete_nothing (staticEnv Scene1.world) 0%nat false
             Scene1.tokenA Scene1.updatesX tt "alice"
             (λ t r d ct, Token.actor <$> w_nearby Scene1.world t r d ct)).
    + intros t r d ct n a. reflexivity.
    + intros a n. simpl. unfold Scene1.effectsOf.
      repeat case_bool_decide; simpl; repeat constructor;
        rewrite ?elem_of_cons, ?elem_of_nil; intros H'; intuition discriminate.
Defined.

(** C1 as stated fails: on a scene where nothing moves and every derived
    effect is already in place, the second of two consecutive invocations
    still dispatches three requests. *)
Lemma idempotence_counterexample :
  List.filter isQuery <$>
    sessionTraces (staticEnv Scene1.world) false [Scene1.moveA; Scene1.moveA] 0%nat
      !! 1%nat
  = Some [query "gm" (deleteEffects []);
          query "gm" (applyEffect (effectData Scene1.auraE) []);
          query "gm" (applyAuraEffects "Actor.A" ["Actor.B.ActiveEffect.F"])]
  ∧ ¬ (∀ t,
         sessionTraces (staticEnv Scene1.world) false [Scene1.moveA; Scene1.moveA] 0%nat
           !! 1%nat = Some t →
         Forall (λ c, isQuery c = false) t).
Proof.
  split; [vm_compute; reflexivity|]. intros H.
  specialize (H (trace (staticEnv Scene1.world)
                   (updateToken false Scene1.tokenA Scene1.updatesX tt "alice") 1%nat)).
  assert (isQuery (query "gm" (deleteEffects [])) = false) as Hq; [|discriminate Hq].
  eapply (proj1 (Forall_forall _ _) (H ltac:(vm_compute; reflexivity))).
  apply list_elem_of_lookup. exists 6%nat. vm_compute. reflexivity.
Qed.

(** ** Auras without a radius *)

(** The source pass skips an aura whose radius is falsy: neither of its loops
    makes any call for it. *)
Lemma falsy_radius_skipped_in_source_pass (activeGM : User) (token : Token.t)
    (preMoveRanges : gmap string ActorSet) (effect : Effect.t) :
  truthy (System.distance (Effect.system effect)) = false →
  preMoveStep token preMoveRanges effect = Ret preMoveRanges
  ∧ postMoveStep activeGM token preMoveRanges effect = Ret tt.
Proof. intros Hradius. unfold preMoveStep, postMoveStep. by rewrite Hradius. Qed.

(** C5 fails on the code: the source pass skips the moving actor's aura of
    radius zero without any spatial query, but the scan of the scene computes
    the distance for the other token's auras of radius zero and of unset
    radius all the same, asks for the removal of the first and, since
    [undefined < 5] is false, for the addition of the second. *)
Theorem radius_not_checked_in_scan :
  trace (staticEnv Inert.world)
    (updateToken false Inert.tokenA Inert.updatesX tt "alice") 0%nat
  = [game_user_id; game_users_activeGM;
     appliedEffects Inert.actorA;
     movementAnimationPromise Inert.tokenA;
     parent_tokens Inert.tokenA;
     appliedEffects Inert.actorB;
     getTokenToTokenDistance Inert.tokenA Inert.tokenB ["move"];
     getTokenToTokenDistance Inert.tokenA Inert.tokenB ["move"];
     query "gm" (deleteAuraEffects "Actor.A" ["Actor.B.ActiveEffect.Z"]);
     isFinalMovementComplete Inert.tokenA;
     query "gm" (applyAuraEffects "Actor.A" ["Actor.B.ActiveEffect.U"])].
Proof. vm_compute. reflexivity. Qed.

(** ** Every call of a reconciliation *)

Section Calls.
(** [G] is what is assumed of the engine's answers, [Q] what is to be shown
    of every call, kind by kind. *)
Context (G : ∀ c : Call, Resp c → Prop) (Q : Call → Prop).
Context (activeGM : User) (token : Token.t).

Hypothesis Q_appliedSelf :
  ∀ actor, Token.actor token = Some actor → Q (appliedEffects actor).

Hypothesis Q_nearby :
  ∀ actor applied effect,
    Token.actor token = Some actor →
    G (appliedEffects actor) applied →
    effect ∈ List.filter isAura applied →
    truthy (System.distance (Effect.system effect)) = true →
    Q (getNearbyTokens token (System.distance (Effect.system effect))
         (System.disposition (Effect.system effect))
         (System.collisionTypes (Effect.system effect))).

Hypothesis Q_animation : Q (movementAnimationPromise token).

Hypothesis Q_effects : ∀ a, Q (effects a).

Hypothesis Q_final : Q (isFinalMovementComplete token).

Hypothesis Q_tokens : Q (parent_tokens token).

Hypothesis Q_appliedOther :
  ∀ tokens sourceToken sourceActor,
    G (parent_tokens token) tokens →
    sourceToken ∈ tokens →
    Token.actor sourceToken = Some sourceActor →
    Token.actor sourceToken ≠ Token.actor token →
    Q (appliedEffects sourceActor).

Hypothesis Q_distance :
  ∀ tokens sourceToken sourceActor applied e,
    G (parent_tokens token) tokens →
    sourceToken ∈ tokens →
    Token.actor sourceToken = Some sourceActor →
    Token.actor sourceToken ≠ Token.actor token →
    G (appliedEffects sourceActor) applied →
    e ∈ List.filter (auraFilter (effectiveDisposition token sourceToken)) applied →
    Q (getTokenToTokenDistance token sourceToken
         (System.collisionTypes (Effect.system e))).

Hypothesis Q_query : ∀ q, Q (query activeGM q).

Lemma calls_toDelete (effect : Effect.t) (pre post : ActorSet) :
  triple G Q (λ _, True) (toDelete effect pre post).
Proof.
  unfold toDelete.
  eapply wp_mono; [|apply (triple_mapM G Q (λ _ _, True))].
  { intros t o [Ht _]. by split. }
  intros a _.
  eapply triple_bind; [by apply (triple_deref G Q (λ _, True))|]. intros a' _.
  eapply triple_bind; [by apply (triple_call G Q _ (λ _, True))|]. intros es _.
  by apply triple_ret.
Qed.

Lemma calls_toAddTo (effect : Effect.t) (post : ActorSet) :
  triple G Q (λ _, True) (toAddTo token effect post).
Proof.
  unfold toAddTo.
  eapply triple_bind.
  { apply (triple_filterM G Q (λ _, True)). intros a _.
    case_bool_decide; [by apply triple_ret|].
    destruct a as [a'|]; [|by apply triple_ret].
    eapply triple_bind; [by apply (triple_call G Q _ (λ _, True))|]. intros es _.
    by apply triple_ret. }
  intros kept _. by apply triple_ret.
Qed.

Lemma calls_nearbyActors (actor : Actor.t) (applied : list Effect.t)
    (effect : Effect.t) :
  Token.actor token = Some actor →
  G (appliedEffects actor) applied →
  effect ∈ List.filter isAura applied →
  truthy (System.distance (Effect.system effect)) = true →
  triple G Q (λ _, True) (nearbyActors token effect).
Proof.
  intros Hactor Happlied Heffect Hradius. unfold nearbyActors.
  eapply triple_bind.
  { apply (triple_call G Q _ (λ _, True)); [|done].
    by apply (Q_nearby actor applied effect). }
  intros nearby _. by apply triple_ret.
Qed.

Lemma calls_preMoveStep (actor : Actor.t) (applied : list Effect.t)
    (preMoveRanges : gmap string ActorSet) (effect : Effect.t) :
  Token.actor token = Some actor →
  G (appliedEffects actor) applied →
  effect ∈ List.filter isAura applied →
  triple G Q (λ _, True) (preMoveStep token preMoveRanges effect).
Proof.
  intros Hactor Happlied Heffect. unfold preMoveStep.
  destruct (truthy (System.distance (Effect.system effect))) eqn:Hradius; cbn [negb];
    [|by apply triple_ret].
  eapply triple_bind; [by apply (calls_nearbyActors actor applied)|].
  intros range _. by apply triple_ret.
Qed.

Lemma calls_postMoveStep (actor : Actor.t) (applied : list Effect.t)
    (preMoveRanges : gmap string ActorSet) (effect : Effect.t) :
  Token.actor token = Some actor →
  G (appliedEffects actor) applied →
  effect ∈ List.filter isAura applied →
  triple G Q (λ _, True) (postMoveStep activeGM token preMoveRanges effect).
Proof.
  intros Hactor Happlied Heffect. unfold postMoveStep.
  destruct (truthy (System.distance (Effect.system effect))) eqn:Hradius; cbn [negb];
    [|by apply triple_ret].
  eapply triple_bind; [by apply (calls_nearbyActors actor applied)|]. intros post _.
  eapply triple_bind; [by apply (triple_deref G Q (λ _, True))|]. intros pre _.
  eapply triple_bind; [apply calls_toDelete|]. intros del _.
  eapply triple_bind; [by apply (triple_call G Q _ (λ _, True))|]. intros r _.
  eapply triple_bind; [by apply (triple_await G Q (λ _, True))|]. intros _ _.
  eapply triple_bind; [by apply (triple_call G Q _ (λ _, True))|]. intros [] _;
    [|by apply triple_ret].
  eapply triple_bind; [apply calls_toAddTo|]. intros add _.
  eapply triple_bind; [by apply (triple_call G Q _ (λ _, True))|]. intros r' _.
  by apply triple_await.
Qed.

Lemma calls_sceneStep (tokens : list Token.t)
    (acc : list Effect.t * list Effect.t) (sourceToken : Token.t) :
  G (parent_tokens token) tokens →
  sourceToken ∈ tokens →
  triple G Q (λ _, True) (sceneStep token acc sourceToken).
Proof.
  intros Htokens Hin. unfold sceneStep.
  case_bool_decide as Hne; [by apply triple_ret|].
  eapply triple_bind;
    [apply (triple_deref G Q (λ sa, Token.actor sourceToken = Some sa)); auto|].
  intros sourceActor Hsa.
  eapply triple_bind.
  { apply (triple_call G Q _ (G (appliedEffects sourceActor))); [|done].
    by apply (Q_appliedOther tokens sourceToken). }
  intros applied Happlied.
  case_bool_decide as Hlen; [by apply triple_ret|].
  apply (triple_foldM G Q (λ _ _, True)); [done|].
  intros done e rest [toRemove toAdd] Hl _. unfold classify.
  eapply triple_bind.
  { apply (triple_call G Q _ (λ _, True)); [|done].
    apply (Q_distance tokens sourceToken sourceActor applied e); try done.
    rewrite Hl, elem_of_app, elem_of_cons. auto. }
  intros d _. destruct (js_lt _ d); by apply triple_ret.
Qed.

Lemma calls_sceneDispatch (sceneAurasToRemove sceneAurasToAdd : list Effect.t) :
  triple G Q (λ _, True)
    (sceneDispatch activeGM token sceneAurasToRemove sceneAurasToAdd).
Proof.
  unfold sceneDispatch.
  eapply triple_bind with (P := λ _, True).
  { case_bool_decide; [|by apply triple_ret].
    eapply triple_bind; [by apply (triple_deref G Q (λ _, True))|]. intros a _.
    eapply triple_bind; [by apply (triple_call G Q _ (λ _, True))|].
    intros r _. by apply triple_await. }
  intros _ _. case_bool_decide; [|by apply triple_ret].
  eapply triple_bind; [by apply (triple_call G Q _ (λ _, True))|].
  intros [] _; [|by apply triple_ret].
  eapply triple_bind; [by apply (triple_deref G Q (λ _, True))|]. intros a _.
  eapply triple_bind; [by apply (triple_call G Q _ (λ _, True))|].
  intros r _. by apply triple_await.
Qed.

Lemma calls_reconcile : triple G Q (λ _, True) (reconcile activeGM token).
Proof.
  unfold reconcile.
  eapply triple_bind;
    [apply (triple_deref G Q (λ a, Token.actor token = Some a)); auto|].
  intros actor Hactor.
  eapply triple_bind.
  { apply (triple_call G Q _ (G (appliedEffects actor))); [|done].
    by apply Q_appliedSelf. }
  intros applied Happlied.
  eapply triple_bind.
  { apply (triple_foldM G Q (λ _ _, True)); [done|].
    intros done e rest ranges Hl _.
    apply (calls_preMoveStep actor applied); try done.
    rewrite Hl, elem_of_app, elem_of_cons. auto. }
  intros preMoveRanges _.
  eapply triple_bind; [by apply (triple_call G Q _ (λ _, True))|]. intros object _.
  eapply triple_bind; [by apply (triple_deref G Q (λ _, True))|]. intros settled _.
  eapply triple_bind; [by apply (triple_await G Q (λ _, True))|]. intros _ _.
  eapply triple_bind.
  { apply triple_forM_. intros effect Heffect.
    by apply (calls_postMoveStep actor applied). }
  intros _ _.
  eapply triple_bind.
  { apply (triple_call G Q _ (G (parent_tokens token))); [|done]. apply Q_tokens. }
  intros tokens Htokens.
  eapply triple_bind.
  { apply (triple_foldM G Q (λ _ _, True)); [done|].
    intros done sourceToken rest acc Hl _.
    apply (calls_sceneStep tokens); [done|].
    rewrite Hl, elem_of_app, elem_of_cons. auto. }
  intros scene _. apply calls_sceneDispatch.
Qed.
End Calls.

(** The guards add three calls to those of the reconciliation. *)
Lemma calls_updateToken (G : ∀ c : Call, Resp c → Prop) (Q : Call → Prop)
    (seenWarning : bool) (token : Token.t) (updates : Updates) (options : Options)
    (userId : string) :
  Q game_user_id → Q game_users_activeGM → Q (ui_notifications_warn "AURAS.NoActiveGM") →
  (∀ gm, G game_users_activeGM (Some gm) → triple G Q (λ _, True) (reconcile gm token)) →
  triple G Q (λ _, True) (updateToken seenWarning token updates options userId).
Proof.
  intros Hid Hgm Hwarn Hreconcile. unfold updateToken.
  eapply triple_bind; [by apply (triple_call G Q _ (λ _, True))|]. intros me _.
  case_bool_decide; [by apply triple_ret|].
  eapply triple_bind; [by apply (triple_call G Q _ (G game_users_activeGM))|].
  intros [gm|] Hanswer.
  - destruct (negb (bool_decide (is_Some (Token.actor token)))); [by apply triple_ret|].
    destruct (negb (truthy (x updates)) && negb (truthy (y updates))
              && negb (truthy (elevation updates))); [by apply triple_ret|].
    eapply triple_bind; [by apply Hreconcile|]. intros _ _. by apply triple_ret.
  - destruct (negb seenWarning); [|by apply triple_ret].
    eapply triple_bind; [by apply (triple_call G Q _ (λ _, True))|]. intros _ _.
    by apply triple_ret.
Qed.

Lemma respects_answered {S : Type} (h : Env S) : respects (answered h) h.
Proof. intros c s. by exists s. Qed.

(** ** Which geometry is asked for *)

(** Spatial queries are made for the moving token only, with the radius,
    disposition and collision types of an aura effect applied to its actor,
    and never with a falsy radius. *)
Theorem spatial_queries_of_source_auras {S : Type} (h : Env S) (s : S)
    (seenWarning : bool) (token : Token.t) (updates : Updates) (options : Options)
    (userId : string) :
  Forall (λ c, ∀ t r d ct,
            c = getNearbyTokens t r d ct →
            t = token ∧ truthy r = true
            ∧ ∃ actor effect s',
                Token.actor token = Some actor
                ∧ effect ∈ (h (appliedEffects actor) s').1
                ∧ Effect.type effect = "auras.aura"
                ∧ r = System.distance (Effect.system effect)
                ∧ d = System.disposition (Effect.system effect)
                ∧ ct = System.collisionTypes (Effect.system effect))
    (trace h (updateToken seenWarning token updates options userId) s).
Proof.
  apply (triple_sound (answered h) h _ (λ _, True) _ s (respects_answered h)).
  apply calls_updateToken; try (intros; congruence). intros gm _.
  apply calls_reconcile; try (intros; congruence).
  intros actor applied effect Hactor [s' ->] Heffect Hradius t r d ct [= <- <- <- <-].
  split; [done|]. split; [done|].
  apply list_elem_of_In, filter_In in Heffect as [Heffect Haura].
  apply list_elem_of_In in Heffect. apply bool_decide_eq_true in Haura.
  exists actor, effect, s'. done.
Qed.

(** The distance is computed only from the moving token to a token of
    another actor, and only for an effect of that actor that is an aura and
    passes the disposition filter. *)
Theorem distances_to_other_actors {S : Type} (h : Env S) (s : S)
    (seenWarning : bool) (token : Token.t) (updates : Updates) (options : Options)
    (userId : string) :
  Forall (λ c, ∀ t sourceToken ct,
            c = getTokenToTokenDistance t sourceToken ct →
            t = token
            ∧ Token.actor sourceToken ≠ Token.actor token
            ∧ ∃ sourceActor e s',
                Token.actor sourceToken = Some sourceActor
                ∧ e ∈ (h (appliedEffects sourceActor) s').1
                ∧ auraFilter (effectiveDisposition token sourceToken) e = true
                ∧ ct = System.collisionTypes (Effect.system e))
    (trace h (updateToken seenWarning token updates options userId) s).
Proof.
  apply (triple_sound (answered h) h _ (λ _, True) _ s (respects_answered h)).
  apply calls_updateToken; try (intros; congruence). intros gm _.
  apply calls_reconcile; try (intros; congruence).
  intros tokens sourceToken sourceActor applied e _ _ Hsa Hne [s' ->] He
    t sourceToken' ct [= <- <- <-].
  split; [done|]. split; [done|].
  apply list_elem_of_In, filter_In in He as [He Hfilter]. apply list_elem_of_In in He.
  exists sourceActor, e, s'. done.
Qed.

(** ** The warning latch in any environment *)

Lemma reconcile_no_warning {S : Type} (h : Env S) (s : S) (activeGM : User)
    (token : Token.t) :
  Forall (λ c, isWarning c = false) (trace h (reconcile activeGM token) s).
Proof.
  apply (triple_sound anyAnswer h _ (λ _, True) _ s (respects_anyAnswer h)).
  by apply calls_reconcile.
Qed.

Lemma updateToken_warning {S : Type} (h : Env S) (s : S) (seenWarning : bool)
    (token : Token.t) (updates : Updates) (options : Options) (userId : string) :
  let w := countCalls isWarning
             (trace h (updateToken seenWarning token updates options userId) s) in
  let seen' :=
    default seenWarning
      (result h (updateToken seenWarning token updates options userId) s) in
  (w = 0%nat ∧ seen' = seenWarning) ∨ (w = 1%nat ∧ seenWarning = false ∧ seen' = true).
Proof.
  unfold result, trace, updateToken. simpl.
  destruct (h game_user_id s) as [me s1]. simpl.
  case_bool_decide; simpl; [by left|].
  destruct (h game_users_activeGM s1) as [[gm|] s2]; simpl.
  - destruct (negb (bool_decide (is_Some (Token.actor token)))); simpl; [by left|].
    destruct (negb (truthy (x updates)) && negb (truthy (y updates))
              && negb (truthy (elevation updates))); simpl; [by left|].
    rewrite run_bind.
    pose proof (reconcile_no_warning h s2 gm token) as Hw. unfold trace in Hw.
    destruct (run h (reconcile gm token) s2) as [[[[]|] s3] tr]; simpl in *;
      rewrite ?app_nil_r; left; (split; [|done]);
      apply (countCalls_none isWarning); by repeat constructor.
  - destruct seenWarning; simpl; [by left|].
    destruct (h (ui_notifications_warn "AURAS.NoActiveGM") s2) as [[] s3]. simpl.
    by right.
Qed.

(** In any session and any environment (a GM may come and go, invocations
    may throw) at most one warning is surfaced, and none once the latch is
    set; a latch that is set stays set. *)
Theorem one_warning_per_session {S : Type} (h : Env S)
    (invs : list Invocation) (seenWarning : bool) (s : S) :
  (countCalls isWarning (concat (sessionTraces h seenWarning invs s))
   ≤ if seenWarning then 0 else 1)%nat
  ∧ (seenWarning = true → snd (fst (runSession h seenWarning invs s)) = true).
Proof.
  unfold sessionTraces. revert seenWarning s.
  induction invs as [|i invs IH]; intros seenWarning s.
  { split; [destruct seenWarning; unfold countCalls; simpl; lia|done]. }
  cbn [runSession].
  pose proof (updateToken_warning h s seenWarning (inv_token i) (inv_updates i)
                (inv_options i) (inv_userId i)) as Hw.
  unfold result, trace in Hw. cbn zeta in Hw.
  destruct (run h _ s) as [[o s'] t]. cbn [fst snd] in Hw.
  specialize (IH (default seenWarning o) s').
  destruct (runSession h (default seenWarning o) invs s') as [[ts seen] s''].
  cbn [fst snd concat] in *. rewrite countCalls_app.
  destruct IH as [IHw IHs].
  destruct Hw as [[-> Hseen]|(-> & -> & Hseen)]; rewrite Hseen in *.
  - split; [lia|done].
  - split; [simpl in *; lia|done].
Qed.

(** ** The GM the requests go to *)

(** Every request of an invocation goes to the user that was the active GM
    when the invocation began, whatever the environment says of the active GM
    later. *)
Theorem requests_go_to_captured_gm {S : Type} (h : Env S) (s : S)
    (seenWarning : bool) (token : Token.t) (updates : Updates) (options : Options)
    (userId : string) :
  Forall (λ c, ∀ gm q,
            c = query gm q →
            (h game_users_activeGM (h game_user_id s).2).1 = Some gm)
    (trace h (updateToken seenWarning token updates options userId) s).
Proof.
  unfold trace, updateToken. simpl.
  destruct (h game_user_id s) as [me s1]. simpl.
  case_bool_decide; simpl; [by repeat constructor|].
  destruct (h game_users_activeGM s1) as [[gm|] s2]; simpl.
  - destruct (negb (bool_decide (is_Some (Token.actor token)))); simpl;
      [by repeat constructor|].
    destruct (negb (truthy (x updates)) && negb (truthy (y updates))
              && negb (truthy (elevation updates))); simpl; [by repeat constructor|].
    rewrite run_bind.
    assert (Forall (λ c, ∀ gm' q, c = query gm' q → Some gm = Some gm')
              (trace h (reconcile gm token) s2)) as Hq.
    { apply (triple_sound anyAnswer h _ (λ _, True) _ s2 (respects_anyAnswer h)).
      apply calls_reconcile; try (intros; congruence). }
    unfold trace in Hq.
    destruct (run h (reconcile gm token) s2) as [[[[]|] s3] tr]; simpl in *;
      rewrite ?app_nil_r; by repeat constructor.
  - destruct seenWarning; simpl; [by repeat constructor|].
    destruct (h (ui_notifications_warn "AURAS.NoActiveGM") s2) as [[] s3]. simpl.
    by repeat constructor.
Qed.

(** ** What the requests name *)

Lemma findByOrigin_Some (uuid : string) (es : list Effect.t) (e : Effect.t) :
  findByOrigin uuid es = Some e → e ∈ es ∧ Effect.origin e = Some uuid.
Proof.
  unfold findByOrigin. intros [Hin Horigin]%find_some.
  split; [by apply list_elem_of_In|]. by apply bool_decide_eq_true in Horigin.
Qed.

(** A deleteEffects request names only effects whose origin is an aura
    source effect of the moving actor: each entry is undefined or the uuid of
    an effect the environment reported on some actor, with the uuid of such a
    source effect as origin. *)
Theorem deleteEffects_names_derived_effects {S : Type} (h : Env S) (s : S)
    (seenWarning : bool) (token : Token.t) (updates : Updates) (options : Options)
    (userId : string) :
  Forall (λ c, ∀ gm del u,
            c = query gm (deleteEffects del) → Some u ∈ del →
            ∃ actor source s1 holder held s2,
              Token.actor token = Some actor
              ∧ source ∈ (h (appliedEffects actor) s1).1
              ∧ Effect.type source = "auras.aura"
              ∧ held ∈ (h (effects holder) s2).1
              ∧ Effect.origin held = Some (Effect.uuid source)
              ∧ u = Effect.uuid held)
    (trace h (updateToken seenWarning token updates options userId) s).
Proof.
  apply (triple_sound (answered h) h _ (λ _, True) _ s (respects_answered h)).
  apply triple_updateToken; [by intros c Hc gm del u ->|]. intros activeGM _.
  apply triple_reconcile; try (intros; congruence).
  - by intros c Hc gm del u ->.
  - intros actor applied effect source pre post del Hactor [s1 ->] Heffect _ _ _ _ _ _
      Hdel gm del' u [= _ <-] Hu.
    apply list_elem_of_In, filter_In in Heffect as [Heffect Haura].
    apply list_elem_of_In in Heffect. apply bool_decide_eq_true in Haura.
    induction Hdel as [|a u' diff del (holder & es & -> & [s2 ->] & ->) _ IH];
      [by apply elem_of_nil in Hu|].
    apply elem_of_cons in Hu as [Hu|Hu]; [|by apply IH].
    destruct (findByOrigin (Effect.uuid effect) (h (effects holder) s2).1)
      as [held|] eqn:Hfind; [|done].
    injection Hu as ->. apply findByOrigin_Some in Hfind as [Hheld Horigin].
    by exists actor, effect, s1, holder, held, s2.
Qed.

(** An applyEffect request carries the data of an aura source effect of the
    moving actor with a truthy radius, its origin set to that effect, and
    lists only actors of tokens that a spatial query for that effect
    returned, the moving actor excepted. *)
Theorem applyEffect_names_actors_in_range {S : Type} (h : Env S) (s : S)
    (seenWarning : bool) (token : Token.t) (updates : Updates) (options : Options)
    (userId : string) :
  Forall (λ c, ∀ gm data actorUuids,
            c = query gm (applyEffect data actorUuids) →
            ∃ actor source s1,
              Token.actor token = Some actor
              ∧ source ∈ (h (appliedEffects actor) s1).1
              ∧ Effect.type source = "auras.aura"
              ∧ truthy (System.distance (Effect.system source)) = true
              ∧ data = effectData source
              ∧ Effect.origin data = Some (Effect.uuid source)
              ∧ ∀ u, u ∈ actorUuids →
                  ∃ (a : option Actor.t) s2,
                    u = Actor.uuid <$> a
                    ∧ a ≠ Token.actor token
                    ∧ a ∈ Token.actor <$>
                          (h (getNearbyTokens token
                                (System.distance (Effect.system source))
                                (System.disposition (Effect.system source))
                                (System.collisionTypes (Effect.system source))) s2).1)
    (trace h (updateToken seenWarning token updates options userId) s).
Proof.
  apply (triple_sound (answered h) h _ (λ _, True) _ s (respects_answered h)).
  apply triple_updateToken; [by intros c Hc gm data l ->|]. intros activeGM _.
  apply triple_reconcile; try (intros; congruence).
  - by intros c Hc gm data l ->.
  - intros actor applied effect post kept Hactor [s1 ->] Heffect Hradius
      (nearby & [s2 ->] & ->) _ Hsub Hkept gm data l [= _ <- <-].
    apply list_elem_of_In, filter_In in Heffect as [Heffect Haura].
    apply list_elem_of_In in Heffect. apply bool_decide_eq_true in Haura.
    exists actor, effect, s1. do 6 (split; [done|]).
    intros u (a & -> & Ha)%list_elem_of_fmap.
    exists a, s2. split; [done|]. rewrite Forall_forall in Hkept.
    split; [by destruct (Hkept _ Ha)|].
    by apply elem_of_Set_new, Hsub.
Qed.

(** The batches of the scan are never empty and are keyed by the moving
    actor; each aura they name is an effect of the actor of another token,
    passing the disposition filter, that was measured farther than its radius
    (removal) or not (addition). *)
Theorem scene_batches_name_measured_auras {S : Type} (h : Env S) (s : S)
    (seenWarning : bool) (token : Token.t) (updates : Updates) (options : Options)
    (userId : string) :
  Forall (λ c, ∀ gm key uuids (outOfRange : bool),
            c = query gm (if outOfRange then deleteAuraEffects key uuids
                          else applyAuraEffects key uuids) →
            Some key = Actor.uuid <$> Token.actor token
            ∧ uuids ≠ []
            ∧ ∀ u, u ∈ uuids →
                ∃ sourceToken sourceActor e s1 s2,
                  u = Effect.uuid e
                  ∧ Token.actor sourceToken = Some sourceActor
                  ∧ Token.actor sourceToken ≠ Token.actor token
                  ∧ e ∈ (h (appliedEffects sourceActor) s1).1
                  ∧ auraFilter (effectiveDisposition token sourceToken) e = true
                  ∧ js_lt (System.distance (Effect.system e))
                      (h (getTokenToTokenDistance token sourceToken
                            (System.collisionTypes (Effect.system e))) s2).1
                    = outOfRange)
    (trace h (updateToken seenWarning token updates options userId) s).
Proof.
  assert (∀ tokens b l u,
            Forall (evaluated (answered h) token tokens b) l →
            u ∈ Effect.uuid <$> l →
            ∃ sourceToken sourceActor e s1 s2,
              u = Effect.uuid e
              ∧ Token.actor sourceToken = Some sourceActor
              ∧ Token.actor sourceToken ≠ Token.actor token
              ∧ e ∈ (h (appliedEffects sourceActor) s1).1
              ∧ auraFilter (effectiveDisposition token sourceToken) e = true
              ∧ js_lt (System.distance (Effect.system e))
                  (h (getTokenToTokenDistance token sourceToken
                        (System.collisionTypes (Effect.system e))) s2).1 = b) as Hnamed.
  { intros tokens b l u Hl (e & -> & He)%list_elem_of_fmap.
    rewrite Forall_forall in Hl.
    destruct (Hl _ He)
      as (sourceToken & sourceActor & applied & d & _ & Hsa & Hne & [s1 ->] & Hin
          & [s2 ->] & Hlt).
    apply list_elem_of_In, filter_In in Hin as [Hin Hfilter].
    apply list_elem_of_In in Hin.
    by exists sourceToken, sourceActor, e, s1, s2. }
  apply (triple_sound (answered h) h _ (λ _, True) _ s (respects_answered h)).
  apply triple_updateToken; [by intros c Hc gm key uuids [] ->|]. intros activeGM _.
  apply triple_reconcile.
  - by intros c Hc gm key uuids [] ->.
  - intros. destruct outOfRange; congruence.
  - intros. destruct outOfRange; congruence.
  - intros actor tokens l Hactor _ Hne Hl gm key uuids [] [= _ <- <-].
    split; [by rewrite Hactor|]. split; [by destruct l|].
    intros u Hu. by apply (Hnamed tokens true l u Hl Hu).
  - intros actor tokens l Hactor _ Hne Hl _ gm key uuids [] [= _ <- <-].
    split; [by rewrite Hactor|]. split; [by destruct l|].
    intros u Hu. by apply (Hnamed tokens false l u Hl Hu).
Qed.

(** ** When the movement animation does not settle *)

Lemma reconcile_unsettled (Q : Call → Prop) (activeGM : User) (token : Token.t) :
  (∀ c, isQuery c = false → Q c) →
  triple unsettled Q (λ _, False) (reconcile activeGM token).
Proof.
  intros Q_other. unfold reconcile.
  eapply triple_bind;
    [apply (triple_deref unsettled Q (λ a, Token.actor token = Some a)); auto|].
  intros actor Hactor.
  eapply triple_bind; [by apply (triple_ask unsettled Q Q_other)|].
  intros applied Happlied.
  eapply triple_bind.
  { apply (triple_foldM unsettled Q (λ _ _, True)); [done|].
    intros done e rest ranges Hl _.
    apply (calls_preMoveStep unsettled Q token) with (actor := actor) (applied := applied);
      try done.
    - intros. by apply Q_other.
    - rewrite Hl, elem_of_app, elem_of_cons. auto. }
  intros preMoveRanges _.
  eapply triple_bind; [by apply (triple_ask unsettled Q Q_other)|].
  intros [[]|] Hobject; [done|apply triple_throw..].
Qed.

(** When the movement animation does not settle (the token is not drawn on
    this client, or the promise is rejected), a reconciliation throws after
    its start-of-movement snapshots and the invocation dispatches no
    request. *)
Theorem unsettled_animation_no_request {S : Type} (h : Env S) (s : S)
    (seenWarning : bool) (token : Token.t) (updates : Updates) (options : Options)
    (userId : string) :
  (∀ t s, (h (movementAnimationPromise t) s).1 ≠ Some resolved) →
  Forall (λ c, isQuery c = false)
    (trace h (updateToken seenWarning token updates options userId) s)
  ∧ ∀ gm, result h (reconcile gm token) s = None.
Proof.
  intros Hunsettled.
  assert (respects unsettled h) as Hh.
  { intros c s'. destruct c; try done. apply Hunsettled. }
  split.
  - apply (triple_sound unsettled h _ (λ _, True) _ s Hh).
    apply triple_updateToken; [done|]. intros gm _.
    eapply wp_mono; [|by apply (reconcile_unsettled (λ c, isQuery c = false) gm token)].
    intros t o [Ht _]. by split.
  - intros gm.
    destruct (triple_sound unsettled h _ _ _ s Hh
                (reconcile_unsettled (λ _, True) gm token (λ _ _, I))) as [_ Hnone].
    destruct (result h (reconcile gm token) s) as [[]|]; [|done].
    by destruct (Hnone tt).
Qed.

Lemma unsettled_animation_no_request_witness :
  Forall (λ c, isQuery c = false)
    (trace (undrawnEnv Scene1.worldSelf)
       (updateToken false Scene1.tokenA Scene1.updatesX tt "alice") 0%nat)
  ∧ result (undrawnEnv Scene1.worldSelf) (reconcile "gm" Scene1.tokenA) 0%nat = None.
Proof.
  pose proof (unsettled_animation_no_request (undrawnEnv Scene1.worldSelf) 0%nat false
                Scene1.tokenA Scene1.updatesX tt "alice") as H.
  destruct H as [Hq Hnone]; [by intros t n|].
  split; [exact Hq|apply Hnone].
Defined.

(** ** A token whose actor carries no aura *)

(** When the moving token's actor has no aura effect applied, the invocation
    takes no proximity snapshot and the only requests it can dispatch are the
    two batches of the scan. *)
Theorem no_source_aura_no_source_pass {S : Type} (h : Env S) (s : S)
    (seenWarning : bool) (token : Token.t) (updates : Updates) (options : Options)
    (userId : string) (actor : Actor.t) :
  Token.actor token = Some actor →
  (∀ s, List.filter isAura (h (appliedEffects actor) s).1 = []) →
  Forall (λ c, isSnapshot c = false)
    (trace h (updateToken seenWarning token updates options userId) s)
  ∧ Forall (λ c, ∀ gm q, c = query gm q →
                 ∃ key uuids, q = deleteAuraEffects key uuids
                              ∨ q = applyAuraEffects key uuids)
      (trace h (updateToken seenWarning token updates options userId) s).
Proof.
  intros Hactor Hnone.
  assert (respects (noAura actor) h) as Hh.
  { intros c s'. destruct c; try done. intros ->. apply Hnone. }
  assert (∀ actor' applied (effect : Effect.t),
            Token.actor token = Some actor' →
            noAura actor (appliedEffects actor') applied →
            effect ∈ List.filter isAura applied → False) as Hempty.
  { intros actor' applied effect Hactor' Happlied Heffect.
    rewrite Hactor in Hactor'. injection Hactor' as <-.
    rewrite (Happlied eq_refl) in Heffect. by apply elem_of_nil in Heffect. }
  split.
  - apply (triple_sound (noAura actor) h _ (λ _, True) _ s Hh).
    apply calls_updateToken; try done. intros gm _.
    apply calls_reconcile; try done.
    intros actor' applied effect Hactor' Happlied Heffect _.
    by destruct (Hempty actor' applied effect).
  - apply (triple_sound (noAura actor) h _ (λ _, True) _ s Hh).
    apply triple_updateToken; [by intros c Hc gm q ->|]. intros activeGM _.
    apply triple_reconcile.
    + by intros c Hc gm q ->.
    + intros actor' applied effect ???? Hactor' Happlied Heffect.
      by destruct (Hempty actor' applied effect).
    + intros actor' applied effect ?? Hactor' Happlied Heffect.
      by destruct (Hempty actor' applied effect).
    + intros ??????? gm q [= _ <-]. eauto.
    + intros ???????? gm q [= _ <-]. eauto.
Qed.

Lemma no_source_aura_no_source_pass_witness :
  Forall (λ c, isSnapshot c = false)
    (trace (staticEnv (Path.scene true true true))
       (updateToken false Path.tokenB Path.updatesX tt "alice") 0%nat).
Proof.
  apply (no_source_aura_no_source_pass (staticEnv (Path.scene true true true)) 0%nat false Path.tokenB
           Path.updatesX tt "alice" Path.actorB); [reflexivity|].
  intros n. reflexivity.
Defined.

(** ** When the GM rejects *)

Lemma stops_bind {A B : Type} (G : ∀ c : Call, Resp c → Prop) (p : Prog A)
    (f : A → Prog B) :
  wp G p stopsAtRequest → (∀ a, wp G (f a) stopsAtRequest) →
  wp G (bind p f) stopsAtRequest.
Proof.
  intros Hp Hf. apply wp_bind. eapply wp_mono; [|exact Hp].
  intros t [a|] [Hle Hzero]; [|by split].
  eapply wp_mono; [|apply Hf]. intros t' o' [Hle' Hzero'].
  unfold stopsAtRequest. rewrite countCalls_app, Hzero by eauto. simpl. eauto.
Qed.

Lemma stops_quiet {A : Type} (G : ∀ c : Call, Resp c → Prop) (P : A → Prop)
    (p : Prog A) :
  triple G (λ c, isQuery c = false) P p → wp G p stopsAtRequest.
Proof.
  apply wp_mono. intros t o [Ht _]. unfold stopsAtRequest.
  rewrite (countCalls_none isQuery t Ht). split; [lia|done].
Qed.

Lemma stops_request {A : Type} (gm : User) (q : Query) (f : Settled → Prog A) :
  f rejected = Throw →
  wp rejecting (r ← call (query gm q); f r) stopsAtRequest.
Proof.
  intros Hf r ->. cbn [bind]. rewrite Hf. split; [done|]. by intros [? [=]].
Qed.

Lemma stops_forM_ {A : Type} (G : ∀ c : Call, Resp c → Prop) (f : A → Prog unit)
    (l : list A) :
  (∀ a, wp G (f a) stopsAtRequest) → wp G (forM_ f l) stopsAtRequest.
Proof.
  intros Hf. induction l as [|a l IH]; simpl.
  - split; [unfold countCalls; simpl; lia|done].
  - apply stops_bind; [apply Hf|]. by intros _.
Qed.

Lemma stops_postMoveStep (activeGM : User) (token : Token.t)
    (preMoveRanges : gmap string ActorSet) (effect : Effect.t) :
  wp rejecting (postMoveStep activeGM token preMoveRanges effect) stopsAtRequest.
Proof.
  unfold postMoveStep.
  destruct (truthy (System.distance (Effect.system effect))); cbn [negb].
  2:{ split; [unfold countCalls; simpl; lia|done]. }
  apply stops_bind.
  { eapply stops_quiet. apply (triple_nearbyActors rejecting _ token (λ c H, H)). }
  intros post. apply stops_bind.
  { eapply stops_quiet. by apply (triple_deref rejecting _ (λ _, True)). }
  intros pre. apply stops_bind.
  { eapply stops_quiet. apply (triple_toDelete rejecting _ (λ c H, H)). }
  intros del. by apply stops_request.
Qed.

Lemma stops_sceneDispatch (activeGM : User) (token : Token.t)
    (sceneAurasToRemove sceneAurasToAdd : list Effect.t) :
  wp rejecting (sceneDispatch activeGM token sceneAurasToRemove sceneAurasToAdd)
    stopsAtRequest.
Proof.
  unfold sceneDispatch. apply stops_bind.
  { case_bool_decide; [|split; [unfold countCalls; simpl; lia|done]].
    apply stops_bind.
    { eapply stops_quiet. by apply (triple_deref rejecting _ (λ _, True)). }
    intros actor. by apply stops_request. }
  intros _. case_bool_decide; [|split; [unfold countCalls; simpl; lia|done]].
  apply stops_bind.
  { eapply stops_quiet. by apply (triple_call rejecting _ _ (λ _, True)). }
  intros []; [|split; [unfold countCalls; simpl; lia|done]].
  apply stops_bind.
  { eapply stops_quiet. by apply (triple_deref rejecting _ (λ _, True)). }
  intros actor. by apply stops_request.
Qed.

Lemma stops_reconcile (activeGM : User) (token : Token.t) :
  wp rejecting (reconcile activeGM token) stopsAtRequest.
Proof.
  unfold reconcile. apply stops_bind.
  { eapply stops_quiet. by apply (triple_deref rejecting _ (λ _, True)). }
  intros actor. apply stops_bind.
  { eapply stops_quiet. by apply (triple_call rejecting _ _ (λ _, True)). }
  intros applied. apply stops_bind.
  { eapply stops_quiet.
    apply (triple_foldM rejecting _
             (λ _, recorded rejecting token (List.filter isAura applied))).
    - by intros u pre.
    - intros done e rest ranges Hl Hranges.
      apply (triple_preMoveStep rejecting _ token (λ c H, H)); [|done].
      rewrite Hl, elem_of_app, elem_of_cons. auto. }
  intros preMoveRanges. apply stops_bind.
  { eapply stops_quiet. by apply (triple_call rejecting _ _ (λ _, True)). }
  intros object. apply stops_bind.
  { eapply stops_quiet. by apply (triple_deref rejecting _ (λ _, True)). }
  intros settled. apply stops_bind.
  { eapply stops_quiet. by apply (triple_await rejecting _ (λ _, True)). }
  intros _. apply stops_bind.
  { apply stops_forM_. intros effect. apply stops_postMoveStep. }
  intros _. apply stops_bind.
  { eapply stops_quiet. by apply (triple_call rejecting _ _ (λ _, True)). }
  intros tokens. apply stops_bind.
  { eapply stops_quiet.
    apply (triple_foldM rejecting _
             (λ _ acc, Forall (evaluated rejecting token tokens true) acc.1
                       ∧ Forall (evaluated rejecting token tokens false) acc.2)).
    - by split.
    - intros done sourceToken rest acc Hl Hacc.
      apply (triple_sceneStep rejecting _ token (λ c H, H)); [|done].
      rewrite Hl, elem_of_app, elem_of_cons. auto. }
  intros scene. apply stops_sceneDispatch.
Qed.

(** When the GM rejects every query, an invocation dispatches at most one
    request, and one that dispatched a request throws: the handler does not
    go on after a rejection, nor retries. *)
Theorem rejection_stops_the_handler {S : Type} (h : Env S) (s : S)
    (seenWarning : bool) (token : Token.t) (updates : Updates) (options : Options)
    (userId : string) :
  (∀ gm q s, (h (query gm q) s).1 = rejected) →
  (countCalls isQuery
     (trace h (updateToken seenWarning token updates options userId) s) ≤ 1)%nat
  ∧ (countCalls isQuery
       (trace h (updateToken seenWarning token updates options userId) s) = 1%nat →
     result h (updateToken seenWarning token updates options userId) s = None).
Proof.
  intros Hreject.
  assert (respects rejecting h) as Hh.
  { intros c s'. destruct c; try done. apply Hreject. }
  assert (wp rejecting (updateToken seenWarning token updates options userId)
            stopsAtRequest) as Hwp.
  { unfold updateToken. apply stops_bind.
    { eapply stops_quiet. by apply (triple_call rejecting _ _ (λ _, True)). }
    intros me. case_bool_decide; [split; [unfold countCalls; simpl; lia|done]|].
    apply stops_bind.
    { eapply stops_quiet. by apply (triple_call rejecting _ _ (λ _, True)). }
    intros [gm|].
    - destruct (negb (bool_decide (is_Some (Token.actor token))));
        [split; [unfold countCalls; simpl; lia|done]|].
      destruct (negb (truthy (x updates)) && negb (truthy (y updates))
                && negb (truthy (elevation updates)));
        [split; [unfold countCalls; simpl; lia|done]|].
      apply stops_bind; [apply stops_reconcile|].
      intros _. split; [unfold countCalls; simpl; lia|done].
    - destruct (negb seenWarning); [|split; [unfold countCalls; simpl; lia|done]].
      apply stops_bind.
      { eapply stops_quiet. by apply (triple_call rejecting _ _ (λ _, True)). }
      intros _. split; [unfold countCalls; simpl; lia|done]. }
  destruct (wp_sound rejecting h _ _ s Hh Hwp) as [Hle Hzero].
  split; [done|]. intros Hone.
  destruct (result h _ s) as [b|]; [|done].
  rewrite Hzero in Hone by eauto. discriminate.
Qed.

Lemma rejection_stops_the_handler_witness :
  countCalls isQuery
    (trace (rejectingEnv Scene1.world)
       (updateToken false Scene1.tokenA Scene1.updatesX tt "alice") 0%nat) = 1%nat
  ∧ result (rejectingEnv Scene1.world)
      (updateToken false Scene1.tokenA Scene1.updatesX tt "alice") 0%nat = None.
Proof.
  split; [reflexivity|].
  apply (rejection_stops_the_handler (rejectingEnv Scene1.world) 0%nat false
           Scene1.tokenA Scene1.updatesX tt "alice"); [|reflexivity].
  intros gm q n. reflexivity.
Defined.

(** ** Tokens without actor *)

Lemma triple_weaken {A : Type} (G : ∀ c : Call, Resp c → Prop) (Q : Call → Prop)
    (P R : A → Prop) (p : Prog A) :
  (∀ a, P a → R a) → triple G Q P p → triple G Q R p.
Proof.
  intros HPR. apply wp_mono. intros t o [Ht Ho]. split; [done|]. auto.
Qed.

Lemma sceneBatch_other (c : Call) : isQuery c = false → isSceneBatch c = false.
Proof. by destruct c. Qed.

Lemma sceneStep_has_actor (G : ∀ c : Call, Resp c → Prop) (token : Token.t)
    (acc : list Effect.t * list Effect.t) (sourceToken : Token.t) :
  is_Some (Token.actor token) →
  triple G (λ c, isSceneBatch c = false) (λ _, is_Some (Token.actor sourceToken))
    (sceneStep token acc sourceToken).
Proof.
  intros Hactor. unfold sceneStep.
  case_bool_decide as Hsame; [apply triple_ret; by rewrite Hsame|].
  destruct (Token.actor sourceToken) as [sourceActor|]; [|apply triple_throw].
  cbn [deref bind].
  eapply triple_bind; [by apply (triple_call G _ _ (λ _, True))|]. intros applied _.
  case_bool_decide; [by apply triple_ret|].
  eapply triple_weaken;
    [|apply (triple_foldM G _ (λ _ _, True)); [done|]]; [done|].
  intros done e rest [toRemove toAdd] _ _. unfold classify.
  eapply triple_bind; [by apply (triple_call G _ _ (λ _, True))|]. intros d _.
  destruct (js_lt _ d); by apply triple_ret.
Qed.

Lemma reconcile_actorless (Q : Call → Prop) (activeGM : User) (token : Token.t) :
  (∀ c, isSceneBatch c = false → Q c) →
  triple actorlessOnScene Q (λ _, False) (reconcile activeGM token).
Proof.
  intros HQ.
  assert (∀ c, isQuery c = false → Q c) as Q_other.
  { intros c Hc. by apply HQ, sceneBatch_other. }
  unfold reconcile.
  eapply triple_bind;
    [apply (triple_deref actorlessOnScene Q (λ a, Token.actor token = Some a)); auto|].
  intros actor Hactor.
  eapply triple_bind; [by apply (triple_ask actorlessOnScene Q Q_other)|].
  intros applied Happlied.
  eapply triple_bind.
  { apply (triple_foldM actorlessOnScene Q
             (λ _, recorded actorlessOnScene token (List.filter isAura applied))).
    - by intros u pre.
    - intros done e rest ranges Hl Hranges.
      apply (triple_preMoveStep actorlessOnScene Q token Q_other); [|done].
      rewrite Hl, elem_of_app, elem_of_cons. auto. }
  intros preMoveRanges Hranges.
  eapply triple_bind; [by apply (triple_ask actorlessOnScene Q Q_other)|].
  intros object _.
  eapply triple_bind; [by apply (triple_deref actorlessOnScene Q (λ _, True))|].
  intros settled _.
  eapply triple_bind; [by apply (triple_await actorlessOnScene Q (λ _, True))|].
  intros _ _.
  eapply triple_bind.
  { apply triple_forM_. intros effect Heffect.
    apply (triple_postMoveStep actorlessOnScene Q activeGM token Q_other)
      with (actor := actor) (applied := applied); try done.
    - intros. by apply HQ.
    - intros. by apply HQ. }
  intros _ _.
  eapply triple_bind; [by apply (triple_ask actorlessOnScene Q Q_other)|].
  intros tokens (stray & Hstray & Hnone).
  eapply triple_bind.
  { apply (triple_foldM actorlessOnScene Q
             (λ done _, Forall (λ t, is_Some (Token.actor t)) done)); [done|].
    intros done sourceToken rest acc Hl Hdone.
    eapply wp_mono; [|apply (sceneStep_has_actor actorlessOnScene token acc sourceToken);
                       by rewrite Hactor].
    intros t o [Ht Ho]. split.
    - eapply Forall_impl; [exact Ht|]. intros c Hc. by apply HQ.
    - intros acc' Hacc'. apply Forall_app. split; [done|].
      constructor; [by apply (Ho acc')|constructor]. }
  intros scene Hall. exfalso.
  destruct (proj1 (Forall_forall _ _) Hall stray Hstray) as [a Ha]. congruence.
Qed.

(** When some token of the scene has no actor, a reconciliation throws in
    the scan of the scene (the scan reads the applied effects of every token
    whose actor is not the moving token's), so the invocation never
    dispatches a deleteAuraEffects or an applyAuraEffects request. *)
Theorem actorless_scene_token_throws {S : Type} (h : Env S) (s : S)
    (seenWarning : bool) (token : Token.t) (updates : Updates) (options : Options)
    (userId : string) :
  (∀ t s, ∃ stray : Token.t,
      stray ∈ (h (parent_tokens t) s).1 ∧ Token.actor stray = None) →
  Forall (λ c, isSceneBatch c = false)
    (trace h (updateToken seenWarning token updates options userId) s)
  ∧ ∀ gm, result h (reconcile gm token) s = None.
Proof.
  intros Hstray.
  assert (respects actorlessOnScene h) as Hh.
  { intros c s'. destruct c; try done. apply Hstray. }
  split.
  - apply (triple_sound actorlessOnScene h _ (λ _, True) _ s Hh).
    apply triple_updateToken; [apply sceneBatch_other|]. intros gm _.
    eapply triple_weaken; [|by apply (reconcile_actorless _ gm token)]. done.
  - intros gm.
    destruct (triple_sound actorlessOnScene h _ _ _ s Hh
                (reconcile_actorless (λ _, True) gm token (λ _ _, I))) as [_ Hnone].
    destruct (result h (reconcile gm token) s) as [[]|]; [|done].
    by destruct (Hnone tt).
Qed.

Lemma actorless_scene_token_throws_witness :
  Forall (λ c, isSceneBatch c = false)
    (trace (staticEnv (Stray.scene false [Stray.tokenA; Stray.stray]))
       (updateToken false Stray.tokenA Stray.updatesX tt "alice") 0%nat)
  ∧ result (staticEnv (Stray.scene false [Stray.tokenA; Stray.stray]))
      (reconcile "gm" Stray.tokenA) 0%nat = None.
Proof.
  pose proof (actorless_scene_token_throws
                (staticEnv (Stray.scene false [Stray.tokenA; Stray.stray])) 0%nat false
                Stray.tokenA Stray.updatesX tt "alice") as H.
  destruct H as [Hq Hnone].
  - intros t n. exists Stray.stray. split; [|reflexivity].
    simpl. by right; left.
  - split; [exact Hq|apply Hnone].
Defined.

Lemma toDelete_throws (G : ∀ c : Call, Resp c → Prop) (effect : Effect.t)
    (pre post : ActorSet) :
  None ∈ Set_difference pre post →
  triple G (λ c, isQuery c = false) (λ _, False) (toDelete effect pre post).
Proof.
  intros Hnone. unfold toDelete.
  eapply wp_mono;
    [|apply (triple_mapM G (λ c, isQuery c = false) (λ a _, is_Some a))].
  - intros t o [Ht Ho]. split; [done|]. intros del Hdel.
    apply list_elem_of_lookup in Hnone as [i Hi].
    destruct (Forall2_lookup_l _ _ _ _ _ (Ho del Hdel) Hi) as (u & _ & [a Ha]).
    discriminate.
  - intros a _. destruct a as [a'|]; [|apply triple_throw]. cbn [deref bind].
    eapply triple_bind; [by apply (triple_call G _ _ (λ _, True))|]. intros es _.
    by apply triple_ret.
Qed.

(** A token without actor that was in range of an aura at the start of the
    movement and is not at its end makes the turn of that aura throw (the
    effects of a null actor are read) before any request is dispatched: the
    removals of that aura, and everything after them, are not requested. *)
Theorem departed_actorless_token_throws {S : Type} (h : Env S) (s : S)
    (activeGM : User) (token : Token.t) (preMoveRanges : gmap string ActorSet)
    (effect : Effect.t) (pre : ActorSet) :
  truthy (System.distance (Effect.system effect)) = true →
  preMoveRanges !! Effect.uuid effect = Some pre →
  None ∈ pre →
  (∀ t : Token.t,
     t ∈ (h (getNearbyTokens token (System.distance (Effect.system effect))
               (System.disposition (Effect.system effect))
               (System.collisionTypes (Effect.system effect))) s).1 →
     is_Some (Token.actor t)) →
  result h (postMoveStep activeGM token preMoveRanges effect) s = None
  ∧ Forall (λ c, isQuery c = false)
      (trace h (postMoveStep activeGM token preMoveRanges effect) s).
Proof.
  intros Hradius Hpre Hin Hnearby. unfold result, trace, postMoveStep.
  rewrite Hradius, Hpre. cbn [negb deref]. unfold nearbyActors.
  rewrite run_bind, run_bind, run_call. cbn [run bind].
  set (nearby := (h (getNearbyTokens token _ _ _) s).1) in *.
  set (s1 := (h (getNearbyTokens token _ _ _) s).2).
  assert (None ∈ Set_difference pre (Set_new (Token.actor <$> nearby))) as Hdiff.
  { apply elem_of_Set_difference. split; [done|].
    intros Hpost. apply (proj1 (elem_of_Set_new _ _)) in Hpost.
    apply list_elem_of_fmap in Hpost as (t & Ht & Htin).
    destruct (Hnearby t Htin) as [a Ha]. congruence. }
  rewrite run_bind.
  pose proof (triple_sound anyAnswer h _ _ _ s1 (respects_anyAnswer h)
                (toDelete_throws anyAnswer effect pre _ Hdiff)) as [Hquiet Hthrows].
  unfold result, trace in Hquiet, Hthrows.
  destruct (run h (toDelete effect pre (Set_new (Token.actor <$> nearby))) s1)
    as [[[del|] s2] t]; [by destruct (Hthrows del)|].
  simpl in *. split; [done|]. by constructor.
Qed.

Lemma departed_actorless_token_throws_witness :
  result (staticEnv (Stray.scene false [Stray.tokenA]))
    (postMoveStep "gm" Stray.tokenA (<[Effect.uuid Stray.auraE := [None]]> ∅)
       Stray.auraE) 0%nat = None.
Proof.
  apply (departed_actorless_token_throws
           (staticEnv (Stray.scene false [Stray.tokenA])) 0%nat "gm" Stray.tokenA
           (<[Effect.uuid Stray.auraE := [None]]> ∅) Stray.auraE [None]).
  - reflexivity.
  - reflexivity.
  - by left.
  - simpl. intros t Ht. by apply elem_of_nil in Ht.
Defined.

Lemma wp_filterM_keeps {A : Type} (G : ∀ c : Call, Resp c → Prop)
    (f : A → Prog bool) (x : A) (l : list A) :
  (∀ a, wp G (f a) (λ _ o, ∃ keep : bool, o = Some keep ∧ (a = x → keep = true))) →
  wp G (filterM f l) (λ _ o, ∃ kept, o = Some kept ∧ (x ∈ kept ↔ x ∈ l)).
Proof.
  intros Hf. induction l as [|a l IH]; cbn [filterM].
  { simpl. by exists []. }
  apply wp_bind. eapply wp_mono; [|apply Hf].
  intros t o (keep & -> & Hkeep). apply wp_bind. eapply wp_mono; [|exact IH].
  intros t' o' (kept & -> & Hiff). simpl. eexists. split; [done|].
  destruct keep.
  - by rewrite !elem_of_cons, Hiff.
  - rewrite elem_of_cons, Hiff. split; [auto|]. intros [Ha|]; [|done].
    by specialize (Hkeep (eq_sym Ha)).
Qed.

Lemma wp_toAddTo (G : ∀ c : Call, Resp c → Prop) (token : Token.t)
    (effect : Effect.t) (post : ActorSet) :
  is_Some (Token.actor token) →
  wp G (toAddTo token effect post)
    (λ _ o, ∃ add, o = Some add ∧ (None ∈ add ↔ None ∈ post)).
Proof.
  intros Hactor. unfold toAddTo. apply wp_bind.
  eapply wp_mono; [|apply (wp_filterM_keeps G _ None)].
  { intros t o (kept & -> & Hkept). simpl. eexists. split; [done|].
    rewrite <- Hkept, list_elem_of_fmap. split.
    - by intros ([a|] & Ha & Hin).
    - intros Hin. by exists None. }
  intros a. case_bool_decide as Hself.
  { simpl. exists false. split; [done|]. intros ->.
    rewrite <- Hself in Hactor. by destruct Hactor. }
  destruct a as [a'|]; simpl.
  - intros es _. eexists. by split.
  - by exists true.
Qed.

(** The additions, unlike the removals, tolerate a token without actor:
    computing the actors to add to never throws, and the list holds an
    undefined uuid exactly when a token without actor is in range (the moving
    token having an actor). *)
Theorem actorless_in_range_listed_undefined {S : Type} (h : Env S) (s : S)
    (token : Token.t) (effect : Effect.t) (postMoveRange : ActorSet) :
  is_Some (Token.actor token) →
  ∃ add, result h (toAddTo token effect postMoveRange) s = Some add
         ∧ (None ∈ add ↔ None ∈ postMoveRange).
Proof.
  intros Hactor.
  apply (wp_sound anyAnswer h _ _ s (respects_anyAnswer h)
           (wp_toAddTo anyAnswer token effect postMoveRange Hactor)).
Qed.

Lemma actorless_in_range_listed_undefined_witness :
  ∃ add, result (staticEnv (Stray.scene true [Stray.tokenA]))
           (toAddTo Stray.tokenA Stray.auraE [None]) 0%nat = Some add
         ∧ (None ∈ add ↔ None ∈ [@None Actor.t]).
Proof.
  apply (actorless_in_range_listed_undefined
           (staticEnv (Stray.scene true [Stray.tokenA])) 0%nat Stray.tokenA
           Stray.auraE [None]).
  by exists Stray.actorA.
Defined.

(** ** The order of the requests *)

Lemma wp_true {A : Type} (G : ∀ c : Call, Resp c → Prop) (p : Prog A) :
  wp G p (λ _ _, True).
Proof. induction p; simpl; auto. Qed.

(** A property of the calls made that holds of calls within [Q] and survives
    a prefix of such calls holds of [bind p f] when [p] stays within [Q] and
    the property holds of [f]. *)
Lemma wp_prefix {A B : Type} (G : ∀ c : Call, Resp c → Prop) (Q : Call → Prop)
    (P : A → Prop) (Φ : list Call → Prop) (p : Prog A) (f : A → Prog B) :
  (∀ t, Forall Q t → Φ t) →
  (∀ t t', Forall Q t → Φ t' → Φ (t ++ t')) →
  triple G Q P p →
  (∀ a, P a → wp G (f a) (λ t _, Φ t)) →
  wp G (bind p f) (λ t _, Φ t).
Proof.
  intros Hquiet Hext Hp Hf. apply wp_bind. eapply wp_mono; [|exact Hp].
  intros t [a|] [Ht Ho]; [|by apply Hquiet].
  eapply wp_mono; [|apply Hf; by apply Ho]. intros t' o' Ht'. by apply Hext.
Qed.

Lemma wp_then_ret {A B : Type} (G : ∀ c : Call, Resp c → Prop)
    (Φ : list Call → Prop) (p : Prog A) (b : B) :
  wp G p (λ t _, Φ t) → wp G (p;; Ret b) (λ t _, Φ t).
Proof.
  intros Hp. apply wp_bind. eapply wp_mono; [|exact Hp].
  intros t [a|] Ht; [|done]. simpl. by rewrite app_nil_r.
Qed.

(** The guards make no request: a property of the calls that holds of runs
    without request and survives a prefix without request holds of the
    handler when it holds of the reconciliation. *)
Lemma wp_updateToken (G : ∀ c : Call, Resp c → Prop) (Q : Call → Prop)
    (Φ : list Call → Prop) (seenWarning : bool) (token : Token.t)
    (updates : Updates) (options : Options) (userId : string) :
  (∀ c, isQuery c = false → Q c) →
  (∀ t, Forall Q t → Φ t) →
  (∀ t t', Forall Q t → Φ t' → Φ (t ++ t')) →
  (∀ gm, wp G (reconcile gm token) (λ t _, Φ t)) →
  wp G (updateToken seenWarning token updates options userId) (λ t _, Φ t).
Proof.
  intros Q_other Hquiet Hext Hreconcile. unfold updateToken.
  eapply (wp_prefix G Q (λ _, True)); [done..| |].
  { apply triple_call; [by apply Q_other|done]. }
  intros me _. case_bool_decide; [by apply Hquiet|].
  eapply (wp_prefix G Q (λ _, True)); [done..| |].
  { apply triple_call; [by apply Q_other|done]. }
  intros [gm|] _.
  - destruct (negb (bool_decide (is_Some (Token.actor token)))); [by apply Hquiet|].
    destruct (negb (truthy (x updates)) && negb (truthy (y updates))
              && negb (truthy (elevation updates))); [by apply Hquiet|].
    apply wp_then_ret, Hreconcile.
  - destruct (negb seenWarning); [|by apply Hquiet].
    eapply (wp_prefix G Q (λ _, True)); [done..| |].
    { apply triple_call; [by apply Q_other|done]. }
    intros _ _. by apply Hquiet.
Qed.

Lemma afterAnimation_quiet (token : Token.t) (t : list Call) :
  Forall (λ c, isQuery c = false) t → afterAnimation token t.
Proof.
  intros Ht i c Hi Hc. rewrite Forall_lookup in Ht. specialize (Ht i c Hi).
  simpl in Ht. congruence.
Qed.

Lemma afterAnimation_app (token : Token.t) (t t' : list Call) :
  Forall (λ c, isQuery c = false) t → afterAnimation token t' →
  afterAnimation token (t ++ t').
Proof.
  intros Ht Ht' i c Hi Hc. destruct (decide (i < length t)%nat) as [Hlt|Hge].
  - rewrite lookup_app_l in Hi by done. rewrite Forall_lookup in Ht.
    specialize (Ht i c Hi). simpl in Ht. congruence.
  - rewrite lookup_app_r in Hi by lia.
    destruct (Ht' _ _ Hi Hc) as (k & Hk & Hlook).
    exists (length t + k)%nat. split; [lia|].
    rewrite lookup_app_r by lia.
    by replace (length t + k - length t)%nat with k by lia.
Qed.

Lemma afterAnimation_reconcile (G : ∀ c : Call, Resp c → Prop) (activeGM : User)
    (token : Token.t) :
  wp G (reconcile activeGM token) (λ t _, afterAnimation token t).
Proof.
  unfold reconcile.
  eapply (wp_prefix G (λ c, isQuery c = false) (λ _, True));
    [apply afterAnimation_quiet|apply afterAnimation_app| |].
  { by apply triple_deref. }
  intros actor _.
  eapply (wp_prefix G (λ c, isQuery c = false) (λ _, True));
    [apply afterAnimation_quiet|apply afterAnimation_app| |].
  { by apply triple_call. }
  intros applied _.
  eapply (wp_prefix G (λ c, isQuery c = false) (λ _, True));
    [apply afterAnimation_quiet|apply afterAnimation_app| |].
  { eapply triple_weaken;
      [|apply (triple_foldM G _ (λ _, recorded G token (List.filter isAura applied)))].
    - done.
    - by intros u pre.
    - intros done e rest ranges Hl Hranges.
      apply (triple_preMoveStep G _ token (λ c H, H)); [|done].
      rewrite Hl, elem_of_app, elem_of_cons. auto. }
  intros preMoveRanges _. cbn [call bind]. intros object _.
  eapply wp_mono; [|apply wp_true]. intros t o _ i c Hi Hc.
  destruct i as [|i]; simpl in Hi.
  - injection Hi as <-. discriminate.
  - exists 0%nat. split; [lia|done].
Qed.

(** No request is dispatched before the movement animation of the moving
    token was awaited: in the calls of an invocation, every request is
    preceded by the read of the animation promise. *)
Theorem requests_follow_animation {S : Type} (h : Env S) (s : S)
    (seenWarning : bool) (token : Token.t) (updates : Updates) (options : Options)
    (userId : string) :
  ∀ i gm q,
    trace h (updateToken seenWarning token updates options userId) s !! i
      = Some (query gm q) →
    ∃ k, (k < i)%nat
         ∧ trace h (updateToken seenWarning token updates options userId) s !! k
             = Some (movementAnimationPromise token).
Proof.
  intros i gm q Hi.
  apply (wp_sound anyAnswer h _ (λ t _, afterAnimation token t) s
           (respects_anyAnswer h)) with (i := i) (c := query gm q); [|done..].
  apply (wp_updateToken anyAnswer (λ c, isQuery c = false)); [done| | |].
  - apply afterAnimation_quiet.
  - apply afterAnimation_app.
  - intros gm'. apply afterAnimation_reconcile.
Qed.

Lemma requests_follow_animation_witness :
  ∃ k, (k < 6)%nat
       ∧ trace (staticEnv Scene1.world)
           (updateToken false Scene1.tokenA Scene1.updatesX tt "alice") 0%nat !! k
         = Some (movementAnimationPromise Scene1.tokenA).
Proof.
  apply (requests_follow_animation (staticEnv Scene1.world) 0%nat false Scene1.tokenA
           Scene1.updatesX tt "alice" 6%nat "gm" (deleteEffects [])).
  reflexivity.
Defined.

Lemma batchesLast_quiet (token : Token.t) (t : list Call) :
  Forall (λ c, isSceneBatch c = false) t → batchesLast token t.
Proof.
  intros Ht. rewrite Forall_lookup in Ht. split.
  - intros i gm key uuids Hi. by specialize (Ht i _ Hi).
  - intros i j gm key uuids c Hi. by specialize (Ht i _ Hi).
Qed.

Lemma batchesLast_app (token : Token.t) (t t' : list Call) :
  Forall (λ c, isSceneBatch c = false) t → batchesLast token t' →
  batchesLast token (t ++ t').
Proof.
  intros Ht [Hadd Hdel]. rewrite Forall_lookup in Ht. split.
  - intros i gm key uuids Hi. destruct (decide (i < length t)%nat) as [Hlt|Hge].
    { rewrite lookup_app_l in Hi by done. by specialize (Ht i _ Hi). }
    rewrite lookup_app_r in Hi by lia. apply Hadd in Hi.
    rewrite length_app, Hi. lia.
  - intros i j gm key uuids c Hi Hij Hj.
    destruct (decide (i < length t)%nat) as [Hlt|Hge].
    { rewrite lookup_app_l in Hi by done. by specialize (Ht i _ Hi). }
    rewrite lookup_app_r in Hi by lia. rewrite lookup_app_r in Hj by lia.
    apply (Hdel _ (j - length t)%nat _ _ _ _ Hi); [lia|done].
Qed.

Lemma batchesLast_sceneDispatch (G : ∀ c : Call, Resp c → Prop) (activeGM : User)
    (token : Token.t) (sceneAurasToRemove sceneAurasToAdd : list Effect.t) :
  wp G (sceneDispatch activeGM token sceneAurasToRemove sceneAurasToAdd)
    (λ t _, batchesLast token t).
Proof.
  unfold sceneDispatch.
  destruct (Token.actor token) as [actor|]; repeat case_bool_decide; simpl;
    repeat (let r := fresh "r" in intros r _; destruct r; simpl);
    (split;
     [intros i gm key uuids Hi; repeat (destruct i as [|i]; simpl in Hi; try done)
     |intros i j gm key uuids c Hi Hij Hj;
      repeat (destruct i as [|i]; simpl in Hi; try done);
      injection Hi as <- <- <-;
      repeat (destruct j as [|j]; simpl in Hj; try done; try lia);
      injection Hj as <-; eauto]).
Qed.

Lemma batchesLast_reconcile (G : ∀ c : Call, Resp c → Prop) (activeGM : User)
    (token : Token.t) :
  wp G (reconcile activeGM token) (λ t _, batchesLast token t).
Proof.
  pose proof sceneBatch_other as Q_other.
  unfold reconcile.
  eapply (wp_prefix G (λ c, isSceneBatch c = false)
            (λ a, Token.actor token = Some a));
    [apply batchesLast_quiet|apply batchesLast_app| |].
  { apply triple_deref. auto. }
  intros actor Hactor.
  eapply (wp_prefix G (λ c, isSceneBatch c = false) (G (appliedEffects actor)));
    [apply batchesLast_quiet|apply batchesLast_app| |].
  { by apply triple_ask. }
  intros applied Happlied.
  eapply (wp_prefix G (λ c, isSceneBatch c = false)
            (recorded G token (List.filter isAura applied)));
    [apply batchesLast_quiet|apply batchesLast_app| |].
  { apply (triple_foldM G _ (λ _, recorded G token (List.filter isAura applied))).
    - by intros u pre.
    - intros done e rest ranges Hl Hranges.
      apply (triple_preMoveStep G _ token Q_other); [|done].
      rewrite Hl, elem_of_app, elem_of_cons. auto. }
  intros preMoveRanges Hranges.
  eapply (wp_prefix G (λ c, isSceneBatch c = false) (λ _, True));
    [apply batchesLast_quiet|apply batchesLast_app| |].
  { by apply triple_call. }
  intros object _.
  eapply (wp_prefix G (λ c, isSceneBatch c = false) (λ _, True));
    [apply batchesLast_quiet|apply batchesLast_app| |].
  { by apply triple_deref. }
  intros settled _.
  eapply (wp_prefix G (λ c, isSceneBatch c = false) (λ _, True));
    [apply batchesLast_quiet|apply batchesLast_app| |].
  { by apply triple_await. }
  intros _ _.
  eapply (wp_prefix G (λ c, isSceneBatch c = false) (λ _, True));
    [apply batchesLast_quiet|apply batchesLast_app| |].
  { apply triple_forM_. intros effect Heffect.
    by apply (triple_postMoveStep G _ activeGM token Q_other)
      with (actor := actor) (applied := applied). }
  intros _ _.
  eapply (wp_prefix G (λ c, isSceneBatch c = false) (λ _, True));
    [apply batchesLast_quiet|apply batchesLast_app| |].
  { by apply triple_call. }
  intros tokens _.
  eapply (wp_prefix G (λ c, isSceneBatch c = false) (λ _, True));
    [apply batchesLast_quiet|apply batchesLast_app| |].
  { apply (triple_foldM G _ (λ _ _, True)); [done|].
    intros done sourceToken rest acc _ _.
    unfold sceneStep. case_bool_decide; [by apply triple_ret|].
    eapply triple_bind; [by apply (triple_deref G _ (λ _, True))|].
    intros sourceActor _.
    eapply triple_bind; [by apply (triple_call G _ _ (λ _, True))|].
    intros effects _. case_bool_decide; [by apply triple_ret|].
    apply (triple_foldM G _ (λ _ _, True)); [done|].
    intros done' e rest' [toRemove toAdd] _ _. unfold classify.
    eapply triple_bind; [by apply (triple_call G _ _ (λ _, True))|]. intros d _.
    destruct (js_lt _ d); by apply triple_ret. }
  intros scene _. apply batchesLast_sceneDispatch.
Qed.

(** The two batches of the scan end the invocation.  An applyAuraEffects
    request is its last call; a deleteAuraEffects request is followed by
    nothing but the check of the final segment and the applyAuraEffects
    request to the same user for the same actor.  So each batch is requested
    at most once, the removals before the additions, and no request of the
    source pass comes after them. *)
Theorem scene_batches_come_last {S : Type} (h : Env S) (s : S)
    (seenWarning : bool) (token : Token.t) (updates : Updates) (options : Options)
    (userId : string) :
  (∀ i gm key uuids,
     trace h (updateToken seenWarning token updates options userId) s !! i
       = Some (query gm (applyAuraEffects key uuids)) →
     length (trace h (updateToken seenWarning token updates options userId) s)
       = Datatypes.S i)
  ∧ (∀ i j gm key uuids c,
       trace h (updateToken seenWarning token updates options userId) s !! i
         = Some (query gm (deleteAuraEffects key uuids)) →
       (i < j)%nat →
       trace h (updateToken seenWarning token updates options userId) s !! j
         = Some c →
       c = isFinalMovementComplete token
       ∨ ∃ uuids', c = query gm (applyAuraEffects key uuids')).
Proof.
  apply (wp_sound anyAnswer h _ (λ t _, batchesLast token t) s
           (respects_anyAnswer h)).
  apply (wp_updateToken anyAnswer (λ c, isSceneBatch c = false)).
  - apply sceneBatch_other.
  - apply batchesLast_quiet.
  - apply batchesLast_app.
  - intros gm. apply batchesLast_reconcile.
Qed.

Lemma scene_batches_come_last_witness :
  length (trace (staticEnv Twin.world)
            (updateToken false Twin.tokenA Twin.updatesX tt "alice") 0%nat) = 12%nat.
Proof.
  apply (proj1 (scene_batches_come_last (staticEnv Twin.world) 0%nat false Twin.tokenA
                  Twin.updatesX tt "alice")
           11%nat "gm" "Actor.A" ["Actor.B.ActiveEffect.F"]).
  reflexivity.
Defined.

(** ** The scan misses no aura *)

Lemma triple_true {A : Type} (G : ∀ c : Call, Resp c → Prop) (p : Prog A) :
  triple G (λ _, True) (λ _, True) p.
Proof.
  eapply wp_mono; [|apply wp_true]. intros t o _. split; [|done].
  by apply Forall_forall.
Qed.

(** A call that is made stays made: what holds of the calls of [f] once it
    returns holds of [bind p f]. *)
Lemma wp_after {A B : Type} (G : ∀ c : Call, Resp c → Prop) (P : A → Prop)
    (Φ : list Call → Prop) (p : Prog A) (f : A → Prog B) :
  (∀ t t', Φ t' → Φ (t ++ t')) →
  triple G (λ _, True) P p →
  (∀ a, P a → wp G (f a) (λ t o, is_Some o → Φ t)) →
  wp G (bind p f) (λ t o, is_Some o → Φ t).
Proof.
  intros Hext Hp Hf. apply wp_bind. eapply wp_mono; [|exact Hp].
  intros t [a|] [_ Ho]; [|by intros [? [=]]].
  eapply wp_mono; [|apply Hf; by apply Ho]. intros t' o' Ht' Ho'.
  by apply Hext, Ht'.
Qed.

Lemma filed_mono (w : World) (token sourceToken : Token.t)
    (acc acc' : list Effect.t * list Effect.t) (e : Effect.t) :
  acc.1 ⊆ acc'.1 → acc.2 ⊆ acc'.2 →
  filed w token sourceToken acc e → filed w token sourceToken acc' e.
Proof. unfold filed. intros H1 H2. destruct (js_lt _ _); auto. Qed.

Lemma filed_classify (w : World) (token sourceToken : Token.t)
    (auraEffects : list Effect.t) (acc : list Effect.t * list Effect.t) :
  triple (sceneAtRest w) (λ _, True)
    (λ acc', acc.1 ⊆ acc'.1 ∧ acc.2 ⊆ acc'.2
             ∧ ∀ e, e ∈ auraEffects → filed w token sourceToken acc' e)
    (foldM (classify token sourceToken) auraEffects acc).
Proof.
  apply (triple_foldM (sceneAtRest w) _
           (λ done acc', acc.1 ⊆ acc'.1 ∧ acc.2 ⊆ acc'.2
                         ∧ ∀ e, e ∈ done → filed w token sourceToken acc' e)).
  { split; [done|]. split; [done|]. intros e He. by apply elem_of_nil in He. }
  intros done e rest [toRemove toAdd] _ (H1 & H2 & Hdone). unfold classify.
  eapply triple_bind; [by apply (triple_call _ _ _ (sceneAtRest w _))|].
  intros d Hd. simpl in Hd, H1, H2.
  destruct (js_lt (System.distance (Effect.system e)) d) eqn:Hlt;
    apply triple_ret; simpl.
  - split; [set_solver|]. split; [done|]. intros e' [He'| ->%list_elem_of_singleton]%elem_of_app.
    + apply (filed_mono w token sourceToken (toRemove, toAdd)); [set_solver..|auto].
    + unfold filed. rewrite <- Hd, Hlt. set_solver.
  - split; [done|]. split; [set_solver|]. intros e' [He'| ->%list_elem_of_singleton]%elem_of_app.
    + apply (filed_mono w token sourceToken (toRemove, toAdd)); [set_solver..|auto].
    + unfold filed. rewrite <- Hd, Hlt. set_solver.
Qed.

Lemma filed_sceneStep (w : World) (token : Token.t) (done : list Token.t)
    (acc : list Effect.t * list Effect.t) (sourceToken : Token.t) :
  (∀ t a e, t ∈ done → Token.actor t = Some a →
            Token.actor t ≠ Token.actor token →
            e ∈ List.filter (auraFilter (effectiveDisposition token t))
                  (w_appliedEffects w a) →
            filed w token t acc e) →
  triple (sceneAtRest w) (λ _, True)
    (λ acc', ∀ t a e, t ∈ done ++ [sourceToken] → Token.actor t = Some a →
                      Token.actor t ≠ Token.actor token →
                      e ∈ List.filter (auraFilter (effectiveDisposition token t))
                            (w_appliedEffects w a) →
                      filed w token t acc' e)
    (sceneStep token acc sourceToken).
Proof.
  intros Hdone. unfold sceneStep. case_bool_decide as Hsame.
  { apply triple_ret.
    intros t a e [Ht| ->%list_elem_of_singleton]%elem_of_app Ha Hne He; [eauto|done]. }
  destruct (Token.actor sourceToken) as [sourceActor|] eqn:Hsource;
    [|apply triple_throw].
  cbn [deref bind].
  eapply triple_bind; [by apply (triple_call _ _ _ (sceneAtRest w _))|].
  intros applied ->. case_bool_decide as Hlen.
  { apply triple_ret.
    intros t a e [Ht| ->%list_elem_of_singleton]%elem_of_app Ha Hne He; [eauto|].
    rewrite Hsource in Ha. injection Ha as <-.
    apply length_zero_iff_nil in Hlen. rewrite Hlen in He.
    by apply elem_of_nil in He. }
  eapply triple_weaken; [|apply (filed_classify w token sourceToken)].
  intros acc' (H1 & H2 & Hnew) t a e [Ht| ->%list_elem_of_singleton]%elem_of_app Ha Hne He.
  - apply (filed_mono w token t acc); eauto.
  - rewrite Hsource in Ha. injection Ha as <-. by apply Hnew.
Qed.

Lemma request_sceneDispatch (w : World) (activeGM : User) (token : Token.t)
    (actor : Actor.t) (sceneAurasToRemove sceneAurasToAdd : list Effect.t)
    (e : Effect.t) (outOfRange : bool) :
  Token.actor token = Some actor →
  e ∈ (if outOfRange then sceneAurasToRemove else sceneAurasToAdd) →
  outOfRange = true ∨ w_final w token = true →
  wp (sceneAtRest w)
    (sceneDispatch activeGM token sceneAurasToRemove sceneAurasToAdd)
    (λ t o, is_Some o →
            ∃ uuids, Effect.uuid e ∈ uuids
                     ∧ query activeGM
                         (if outOfRange
                          then deleteAuraEffects (Actor.uuid actor) uuids
                          else applyAuraEffects (Actor.uuid actor) uuids) ∈ t).
Proof.
  intros Hactor He Hsent. unfold sceneDispatch. rewrite Hactor.
  destruct outOfRange.
  - rewrite bool_decide_eq_true_2 by (by destruct sceneAurasToRemove; [apply elem_of_nil in He|]).
    cbn [deref bind call wp]. intros r _.
    eapply wp_mono; [|apply wp_true]. intros t o _ _.
    exists (Effect.uuid <$> sceneAurasToRemove).
    split; [by apply list_elem_of_fmap_2|by left].
  - destruct Hsent as [|Hfinal]; [done|].
    eapply (wp_after _ (λ _, True)); [|apply triple_true|].
    { intros t t' (uuids & Hu & Hin). exists uuids. split; [done|].
      apply elem_of_app. by right. }
    intros _ _.
    rewrite bool_decide_eq_true_2 by (by destruct sceneAurasToAdd; [apply elem_of_nil in He|]).
    cbn [deref bind call wp]. intros final ->. rewrite Hfinal.
    cbn [deref bind call wp]. intros r _.
    eapply wp_mono; [|apply wp_true]. intros t o _ _.
    exists (Effect.uuid <$> sceneAurasToAdd).
    split; [by apply list_elem_of_fmap_2|]. right. by left.
Qed.

(** The request that names an aura of another actor's token, in a scene at
    rest. *)
Lemma scan_request {S : Type} (h : Env S) (s : S) (w : World)
    (seenWarning : bool) (token : Token.t) (updates : Updates) (options : Options)
    (userId : string) (b : bool) (gm : User) (actor : Actor.t)
    (sourceToken : Token.t) (sourceActor : Actor.t) (e : Effect.t) :
  respects (sceneAtRest w) h →
  result h (updateToken seenWarning token updates options userId) s = Some b →
  w_user w = userId →
  w_activeGM w = Some gm →
  Token.actor token = Some actor →
  truthy (x updates) || truthy (y updates) || truthy (elevation updates) = true →
  sourceToken ∈ w_tokens w →
  Token.actor sourceToken = Some sourceActor →
  sourceActor ≠ actor →
  e ∈ w_appliedEffects w sourceActor →
  auraFilter (effectiveDisposition token sourceToken) e = true →
  js_lt (System.distance (Effect.system e))
    (w_distance w token sourceToken (System.collisionTypes (Effect.system e))) = true
  ∨ w_final w token = true →
  ∃ uuids,
    Effect.uuid e ∈ uuids
    ∧ query gm
        (if js_lt (System.distance (Effect.system e))
              (w_distance w token sourceToken
                 (System.collisionTypes (Effect.system e)))
         then deleteAuraEffects (Actor.uuid actor) uuids
         else applyAuraEffects (Actor.uuid actor) uuids)
      ∈ trace h (updateToken seenWarning token updates options userId) s.
Proof.
  intros Hh Hresult Huser Hgm Hactor Hmove Hin Hsource Hother He Hfilter Hsent.
  set (present := λ t : list Call,
         ∃ uuids,
           Effect.uuid e ∈ uuids
           ∧ query gm
               (if js_lt (System.distance (Effect.system e))
                     (w_distance w token sourceToken
                        (System.collisionTypes (Effect.system e)))
                then deleteAuraEffects (Actor.uuid actor) uuids
                else applyAuraEffects (Actor.uuid actor) uuids) ∈ t).
  assert (∀ t t', present t' → present (t ++ t')) as Hext.
  { intros t t' (uuids & Hu & Hq). exists uuids. split; [done|].
    apply elem_of_app. by right. }
  assert (wp (sceneAtRest w) (reconcile gm token) (λ t o, is_Some o → present t))
    as Hreconcile.
  { unfold reconcile. rewrite Hactor. cbn [deref bind].
    do 6 (eapply (wp_after _ (λ _, True)); [done|apply triple_true|]; intros ? _).
    eapply (wp_after _ (λ tokens, tokens = w_tokens w)); [done| |].
    { by apply triple_call. }
    intros tokens ->.
    eapply (wp_after _
              (λ acc, ∀ t sa e', t ∈ w_tokens w → Token.actor t = Some sa →
                        Token.actor t ≠ Token.actor token →
                        e' ∈ List.filter (auraFilter (effectiveDisposition token t))
                               (w_appliedEffects w sa) →
                        filed w token t acc e')); [done| |].
    { apply (triple_foldM (sceneAtRest w) _
               (λ done acc, ∀ t sa e', t ∈ done → Token.actor t = Some sa →
                  Token.actor t ≠ Token.actor token →
                  e' ∈ List.filter (auraFilter (effectiveDisposition token t))
                         (w_appliedEffects w sa) →
                  filed w token t acc e')).
      - intros t sa e' Ht. by apply elem_of_nil in Ht.
      - intros done st rest acc _ Hdone. by apply filed_sceneStep. }
    intros scene Hscene.
    apply (request_sceneDispatch w gm token actor); [done| |done].
    apply (Hscene sourceToken sourceActor e); [done..| |].
    - rewrite Hsource, Hactor. congruence.
    - rewrite list_elem_of_In, filter_In, <- list_elem_of_In. by split. }
  assert (wp (sceneAtRest w) (updateToken seenWarning token updates options userId)
            (λ t o, is_Some o → present t)) as Hwp.
  { unfold updateToken. cbn [call bind wp]. intros me ->.
    rewrite bool_decide_eq_false_2 by (by rewrite Huser; intros []).
    cbn [call bind wp]. intros activeGM ->. rewrite Hgm, Hactor.
    rewrite bool_decide_eq_true_2 by eauto. cbn [negb].
    replace (negb (truthy (x updates)) && negb (truthy (y updates))
             && negb (truthy (elevation updates))) with false
      by (by destruct (truthy (x updates)), (truthy (y updates)),
               (truthy (elevation updates))).
    apply wp_bind. eapply wp_mono; [|exact Hreconcile].
    intros t [[]|] Ht; [|by intros [? [=]]]. simpl. intros _.
    rewrite app_nil_r. apply (Hext [game_user_id; game_users_activeGM]), Ht. eauto. }
  apply (wp_sound (sceneAtRest w) h _ _ s Hh Hwp). rewrite Hresult. eauto.
Qed.

(** The scan misses no aura.  In a scene at rest, when an invocation of the
    initiating client reconciles and returns, every aura applied to another
    actor's token on the scene that passes the type and disposition filter is
    named in a request to the GM for the moving token's actor: in
    deleteAuraEffects when its radius is less than the distance, and
    otherwise, on the final segment, in applyAuraEffects. *)
Theorem scan_misses_no_aura {S : Type} (h : Env S) (s : S) (w : World)
    (seenWarning : bool) (token : Token.t) (updates : Updates) (options : Options)
    (userId : string) (b : bool) (gm : User) (actor : Actor.t)
    (sourceToken : Token.t) (sourceActor : Actor.t) (e : Effect.t) :
  respects (sceneAtRest w) h →
  result h (updateToken seenWarning token updates options userId) s = Some b →
  w_user w = userId →
  w_activeGM w = Some gm →
  Token.actor token = Some actor →
  truthy (x updates) || truthy (y updates) || truthy (elevation updates) = true →
  sourceToken ∈ w_tokens w →
  Token.actor sourceToken = Some sourceActor →
  sourceActor ≠ actor →
  e ∈ w_appliedEffects w sourceActor →
  auraFilter (effectiveDisposition token sourceToken) e = true →
  js_lt (System.distance (Effect.system e))
    (w_distance w token sourceToken (System.collisionTypes (Effect.system e))) = true
  ∨ w_final w token = true →
  ∃ uuids,
    Effect.uuid e ∈ uuids
    ∧ query gm
        (if js_lt (System.distance (Effect.system e))
              (w_distance w token sourceToken
                 (System.collisionTypes (Effect.system e)))
         then deleteAuraEffects (Actor.uuid actor) uuids
         else applyAuraEffects (Actor.uuid actor) uuids)
      ∈ trace h (updateToken seenWarning token updates options userId) s.
Proof.
  apply scan_request.
Qed.

Lemma scan_misses_no_aura_witness :
  ∃ uuids,
    "Actor.B.ActiveEffect.F" ∈ uuids
    ∧ query "gm" (applyAuraEffects "Actor.A" uuids)
      ∈ trace (staticEnv Scene1.world)
          (updateToken false Scene1.tokenA Scene1.updatesX tt "alice") 0%nat.
Proof.
  apply (scan_misses_no_aura (staticEnv Scene1.world) 0%nat Scene1.world false
           Scene1.tokenA Scene1.updatesX tt "alice" false "gm" Scene1.actorA
           Scene1.tokenB Scene1.actorB Scene1.auraF).
  - intros c n. destruct c; reflexivity.
  - reflexivity.
  - reflexivity.
  - reflexivity.
  - reflexivity.
  - reflexivity.
  - simpl. by right; left.
  - reflexivity.
  - discriminate.
  - simpl. by left.
  - reflexivity.
  - by right.
Defined.

(** The two batches can contradict each other.  In a scene at rest, when
    another actor has two tokens on the scene, one farther from the moving
    token than the radius of an aura of that actor and one not, an invocation
    that reconciles and returns on the final segment names that aura both in
    its deleteAuraEffects and in its applyAuraEffects request: the scan
    measures tokens, and files the aura once for each. *)
Theorem two_tokens_of_one_actor_conflict {S : Type} (h : Env S) (s : S) (w : World)
    (seenWarning : bool) (token : Token.t) (updates : Updates) (options : Options)
    (userId : string) (b : bool) (gm : User) (actor : Actor.t)
    (near far : Token.t) (sourceActor : Actor.t) (e : Effect.t) :
  respects (sceneAtRest w) h →
  result h (updateToken seenWarning token updates options userId) s = Some b →
  w_user w = userId →
  w_activeGM w = Some gm →
  Token.actor token = Some actor →
  truthy (x updates) || truthy (y updates) || truthy (elevation updates) = true →
  near ∈ w_tokens w →
  far ∈ w_tokens w →
  Token.actor near = Some sourceActor →
  Token.actor far = Some sourceActor →
  sourceActor ≠ actor →
  e ∈ w_appliedEffects w sourceActor →
  auraFilter (effectiveDisposition token near) e = true →
  auraFilter (effectiveDisposition token far) e = true →
  js_lt (System.distance (Effect.system e))
    (w_distance w token near (System.collisionTypes (Effect.system e))) = false →
  js_lt (System.distance (Effect.system e))
    (w_distance w token far (System.collisionTypes (Effect.system e))) = true →
  w_final w token = true →
  ∃ removed added,
    Effect.uuid e ∈ removed
    ∧ Effect.uuid e ∈ added
    ∧ query gm (deleteAuraEffects (Actor.uuid actor) removed)
      ∈ trace h (updateToken seenWarning token updates options userId) s
    ∧ query gm (applyAuraEffects (Actor.uuid actor) added)
      ∈ trace h (updateToken seenWarning token updates options userId) s.
Proof.
  intros Hh Hresult Huser Hgm Hactor Hmove Hnear Hfar Hna Hfa Hother He Hfn Hff
    Hin Hout Hfinal.
  destruct (scan_request h s w seenWarning token updates options userId b gm actor
              far sourceActor e) as (removed & Hremoved & Hdel); try done; [by left|].
  destruct (scan_request h s w seenWarning token updates options userId b gm actor
              near sourceActor e) as (added & Hadded & Hadd); try done; [by right|].
  rewrite Hout in Hdel. rewrite Hin in Hadd. exists removed, added. eauto.
Qed.

Lemma two_tokens_of_one_actor_conflict_witness :
  ∃ removed added,
    "Actor.B.ActiveEffect.F" ∈ removed
    ∧ "Actor.B.ActiveEffect.F" ∈ added
    ∧ query "gm" (deleteAuraEffects "Actor.A" removed)
      ∈ trace (staticEnv Twin.world)
          (updateToken false Twin.tokenA Twin.updatesX tt "alice") 0%nat
    ∧ query "gm" (applyAuraEffects "Actor.A" added)
      ∈ trace (staticEnv Twin.world)
          (updateToken false Twin.tokenA Twin.updatesX tt "alice") 0%nat.
Proof.
  apply (two_tokens_of_one_actor_conflict (staticEnv Twin.world) 0%nat Twin.world
           false Twin.tokenA Twin.updatesX tt "alice" false "gm" Twin.actorA
           Twin.near Twin.far Twin.actorB Twin.auraF).
  - intros c n. destruct c; reflexivity.
  - reflexivity.
  - reflexivity.
  - reflexivity.
  - reflexivity.
  - reflexivity.
  - simpl. by right; left.
  - simpl. by right; right; left.
  - reflexivity.
  - reflexivity.
  - discriminate.
  - simpl. by left.
  - reflexivity.
  - reflexivity.
  - reflexivity.
  - reflexivity.
  - reflexivity.
Defined.

(** ** The source pass misses no actor *)

Lemma wp_and {A : Type} (G : ∀ c : Call, Resp c → Prop) (p : Prog A)
    (Φ Ψ : list Call → option A → Prop) :
  wp G p Φ → wp G p Ψ → wp G p (λ t o, Φ t o ∧ Ψ t o).
Proof.
  revert Φ Ψ. induction p as [a | | c k IH]; intros Φ Ψ; simpl; [done..|].
  intros HΦ HΨ r Hr. apply IH; auto.
Qed.

(** What holds of the calls of [p] once it returns holds of [bind p f]. *)
Lemma wp_before {A B : Type} (G : ∀ c : Call, Resp c → Prop)
    (Φ : list Call → Prop) (p : Prog A) (f : A → Prog B) :
  (∀ t t', Φ t → Φ (t ++ t')) →
  wp G p (λ t o, is_Some o → Φ t) →
  wp G (bind p f) (λ t o, is_Some o → Φ t).
Proof.
  intros Hext Hp. apply wp_bind. eapply wp_mono; [|exact Hp].
  intros t [a|] Ht; [|by intros [? [=]]].
  eapply wp_mono; [|apply wp_true]. intros t' o' _ _. apply Hext, Ht. eauto.
Qed.

Lemma wp_forM_elem {A : Type} (G : ∀ c : Call, Resp c → Prop)
    (Φ : list Call → Prop) (f : A → Prog unit) (l : list A) (a : A) :
  (∀ t t', Φ t' → Φ (t ++ t')) →
  (∀ t t', Φ t → Φ (t ++ t')) →
  a ∈ l →
  wp G (f a) (λ t o, is_Some o → Φ t) →
  wp G (forM_ f l) (λ t o, is_Some o → Φ t).
Proof.
  intros Hpre Hsuf Ha Hf. induction l as [|a' l IH]; [by apply elem_of_nil in Ha|].
  cbn [forM_]. apply elem_of_cons in Ha as [<-|Ha].
  - by apply wp_before.
  - eapply (wp_after G (λ _, True)); [done|apply triple_true|]. intros _ _. auto.
Qed.

(** In a scene that changes only while the animation is awaited, a run
    without such a wait is a run in the scene of its start. *)
Lemma timeline_sound {A : Type} (worlds : nat → World) (p : Prog A)
    (Φ : list Call → option A → Prop) (n : nat) :
  wp (answeredBy (worlds n)) p
    (λ t o, Forall (λ c, isAnimation c = false) t ∧ Φ t o) →
  ∃ o t, run (timelineEnv worlds) p n = (o, n, t) ∧ Φ t o.
Proof.
  revert Φ. induction p as [a | | c k IH]; intros Φ; simpl.
  - intros [_ H]. eauto.
  - intros [_ H]. eauto.
  - intros Hk. specialize (Hk (answer (worlds n) c) eq_refl).
    destruct (IH (answer (worlds n) c)
                (λ t o, Forall (λ c, isAnimation c = false) (c :: t)
                        ∧ Φ (c :: t) o)) as (o & t & Hrun & Hall & HΦ).
    { eapply wp_mono; [|exact Hk]. intros t o [Hall HΦ]. split; [|done].
      by inversion Hall. }
    exists o, (c :: t). split; [|done].
    assert (isAnimation c = false) as Hc by (by inversion Hall).
    destruct c; try discriminate; by rewrite Hrun.
Qed.

Lemma quiet_nearbyActors (G : ∀ c : Call, Resp c → Prop) (w : World)
    (token : Token.t) (effect : Effect.t) :
  (∀ c r, G c r → answeredBy w c r) →
  triple G (λ c, isAnimation c = false)
    (λ range, range = Set_new (Token.actor <$>
                         w_nearby w token (System.distance (Effect.system effect))
                           (System.disposition (Effect.system effect))
                           (System.collisionTypes (Effect.system effect))))
    (nearbyActors token effect).
Proof.
  intros HG. unfold nearbyActors.
  eapply triple_bind; [by apply (triple_call G _ _ (G _))|].
  intros nearby ->%HG. by apply triple_ret.
Qed.

(** The first loop in the scene [w]: each aura with a truthy radius has its
    range in [w] recorded, when the aura effects have distinct uuids. *)
Lemma timeline_preMoveRanges (w : World) (token : Token.t)
    (sourceEffects : list Effect.t) :
  NoDup (Effect.uuid <$> sourceEffects) →
  triple (answeredBy w) (λ c, isAnimation c = false)
    (λ preMoveRanges : gmap string ActorSet,
       ∀ e, e ∈ sourceEffects →
            truthy (System.distance (Effect.system e)) = true →
            preMoveRanges !! Effect.uuid e
            = Some (Set_new (Token.actor <$>
                      w_nearby w token (System.distance (Effect.system e))
                        (System.disposition (Effect.system e))
                        (System.collisionTypes (Effect.system e)))))
    (foldM (preMoveStep token) sourceEffects ∅).
Proof.
  intros Huniq.
  apply (triple_foldM (answeredBy w) _
           (λ done (preMoveRanges : gmap string ActorSet),
              ∀ e, e ∈ done →
                   truthy (System.distance (Effect.system e)) = true →
                   preMoveRanges !! Effect.uuid e
                   = Some (Set_new (Token.actor <$>
                             w_nearby w token (System.distance (Effect.system e))
                               (System.disposition (Effect.system e))
                               (System.collisionTypes (Effect.system e)))))).
  { intros e He. by apply elem_of_nil in He. }
  intros done effect rest ranges Hl Hdone. unfold preMoveStep.
  destruct (truthy (System.distance (Effect.system effect))) eqn:Hradius; cbn [negb].
  - eapply triple_bind; [by apply (quiet_nearbyActors _ w)|]. intros range ->.
    apply triple_ret.
    intros e [He| ->%list_elem_of_singleton]%elem_of_app He';
      [|by rewrite lookup_insert_eq].
    destruct (decide (Effect.uuid effect = Effect.uuid e)) as [Hu|Hu].
    + assert (effect = e) as <-; [|by rewrite lookup_insert_eq].
      apply (NoDup_fmap_eq Effect.uuid sourceEffects); [done| | |done];
        rewrite Hl, elem_of_app, elem_of_cons; auto.
    + rewrite lookup_insert_ne by done. auto.
  - apply triple_ret.
    intros e [He| ->%list_elem_of_singleton]%elem_of_app He'; [auto|congruence].
Qed.

Lemma quiet_postMoveStep (G : ∀ c : Call, Resp c → Prop) (activeGM : User)
    (token : Token.t) (preMoveRanges : gmap string ActorSet) (effect : Effect.t) :
  triple G (λ c, isAnimation c = false) (λ _, True)
    (postMoveStep activeGM token preMoveRanges effect).
Proof.
  unfold postMoveStep.
  destruct (truthy (System.distance (Effect.system effect))); cbn [negb];
    [|by apply triple_ret].
  eapply triple_bind.
  { unfold nearbyActors.
    eapply triple_bind; [by apply (triple_call G _ _ (λ _, True))|].
    intros nearby _. by apply (triple_ret G _ (λ _, True)). }
  intros post _.
  eapply triple_bind; [by apply (triple_deref G _ (λ _, True))|]. intros pre _.
  eapply triple_bind.
  { unfold toDelete.
    eapply triple_weaken;
      [|apply (triple_mapM G (λ c, isAnimation c = false) (λ _ _, True))].
    { by instantiate (1 := λ _, True). }
    intros a _.
    eapply triple_bind; [by apply (triple_deref G _ (λ _, True))|]. intros a' _.
    eapply triple_bind; [by apply (triple_call G _ _ (λ _, True))|]. intros es _.
    by apply triple_ret. }
  intros del _.
  eapply triple_bind; [by apply (triple_call G _ _ (λ _, True))|]. intros r _.
  eapply triple_bind; [by apply (triple_await G _ (λ _, True))|]. intros _ _.
  eapply triple_bind; [by apply (triple_call G _ _ (λ _, True))|]. intros [] _;
    [|by apply triple_ret].
  eapply triple_bind.
  { unfold toAddTo.
    eapply triple_bind.
    { apply (triple_filterM G (λ c, isAnimation c = false) (λ _, True)). intros a _.
      case_bool_decide; [by apply triple_ret|].
      destruct a as [a'|]; [|by apply triple_ret].
      eapply triple_bind; [by apply (triple_call G _ _ (λ _, True))|]. intros es _.
      by apply triple_ret. }
    intros kept _. by apply (triple_ret G _ (λ _, True)). }
  intros add _.
  eapply triple_bind; [by apply (triple_call G _ _ (λ _, True))|]. intros r' _.
  by apply triple_await.
Qed.

Lemma quiet_preMoveLoop (G : ∀ c : Call, Resp c → Prop) (token : Token.t)
    (sourceEffects : list Effect.t) (preMoveRanges : gmap string ActorSet) :
  triple G (λ c, isAnimation c = false) (λ _, True)
    (foldM (preMoveStep token) sourceEffects preMoveRanges).
Proof.
  apply (triple_foldM G _ (λ _ _, True)); [done|].
  intros done effect rest ranges _ _. unfold preMoveStep.
  destruct (truthy (System.distance (Effect.system effect))); cbn [negb];
    [|by apply triple_ret].
  unfold nearbyActors.
  eapply triple_bind.
  { eapply triple_bind; [by apply (triple_call G _ _ (λ _, True))|].
    intros nearby _. by apply (triple_ret G _ (λ _, True)). }
  intros range _. by apply triple_ret.
Qed.

(** A reconciliation that returns, in a scene that changes while the
    animation is awaited: what holds of the calls of the second loop, run in
    the scene after the wait with the ranges of the scene before it, holds of
    the calls of the reconciliation. *)
Lemma timeline_reconcile (worlds : nat → World) (n : nat) (activeGM : User)
    (token : Token.t) (actor : Actor.t) (P : gmap string ActorSet → Prop)
    (Φ : list Call → Prop) :
  Token.actor token = Some actor →
  triple (answeredBy (worlds n)) (λ c, isAnimation c = false) P
    (foldM (preMoveStep token)
       (List.filter isAura (w_appliedEffects (worlds n) actor)) ∅) →
  (∀ t t', Φ t' → Φ (t ++ t')) →
  (∀ t t', Φ t → Φ (t ++ t')) →
  (∀ preMoveRanges,
     P preMoveRanges →
     wp (answeredBy (worlds (Datatypes.S n)))
       (forM_ (postMoveStep activeGM token preMoveRanges)
          (List.filter isAura (w_appliedEffects (worlds n) actor)))
       (λ t o, is_Some o → Φ t)) →
  is_Some (result (timelineEnv worlds) (reconcile activeGM token) n) →
  Φ (trace (timelineEnv worlds) (reconcile activeGM token) n).
Proof.
  intros Hactor Hfirst Hpre Hsuf Hloop. unfold result, trace, reconcile.
  rewrite Hactor. cbn [deref bind]. rewrite run_bind, run_call.
  cbn [timelineEnv fst snd answer]. rewrite run_bind.
  destruct (timeline_sound worlds _ _ n Hfirst) as (o1 & t1 & -> & Hranges).
  destruct o1 as [preMoveRanges|]; [|by intros [? [=]]].
  rewrite run_bind, run_call. cbn [timelineEnv fst snd answer deref await bind].
  rewrite run_bind.
  destruct (timeline_sound worlds
              (forM_ (postMoveStep activeGM token preMoveRanges)
                 (List.filter isAura (w_appliedEffects (worlds n) actor)))
              (λ t o, is_Some o → Φ t) (Datatypes.S n)) as (o2 & t2 & -> & Ht2).
  { apply wp_and; [|by apply Hloop; eauto].
    eapply wp_mono; [|apply (triple_forM_ _ (λ c, isAnimation c = false));
                       intros e _; apply quiet_postMoveStep].
    by intros t o [Ht _]. }
  destruct o2 as [[]|]; [|by intros [? [=]]].
  destruct (run (timelineEnv worlds) _ (Datatypes.S n)) as [[o3 s3] t3].
  intros _. cbn [fst snd].
  apply (Hpre [appliedEffects actor]), Hpre, (Hpre [movementAnimationPromise token]).
  apply Hsuf, Ht2. eauto.
Qed.

Lemma timeline_updateToken (worlds : nat → World) (n : nat) (seenWarning : bool)
    (token : Token.t) (updates : Updates) (options : Options) (userId : string)
    (gm : User) (actor : Actor.t) (Φ : list Call → Prop) :
  w_user (worlds n) = userId →
  w_activeGM (worlds n) = Some gm →
  Token.actor token = Some actor →
  truthy (x updates) || truthy (y updates) || truthy (elevation updates) = true →
  (∀ t t', Φ t' → Φ (t ++ t')) →
  (is_Some (result (timelineEnv worlds) (reconcile gm token) n) →
   Φ (trace (timelineEnv worlds) (reconcile gm token) n)) →
  is_Some (result (timelineEnv worlds)
             (updateToken seenWarning token updates options userId) n) →
  Φ (trace (timelineEnv worlds)
       (updateToken seenWarning token updates options userId) n).
Proof.
  intros Huser Hgm Hactor Hmove Hpre. unfold result, trace, updateToken.
  rewrite run_bind, run_call. cbn [timelineEnv fst snd answer].
  rewrite bool_decide_eq_false_2 by (by rewrite Huser; intros []).
  rewrite run_bind, run_call. cbn [timelineEnv fst snd answer].
  rewrite Hgm, Hactor. rewrite bool_decide_eq_true_2 by eauto. cbn [negb].
  replace (negb (truthy (x updates)) && negb (truthy (y updates))
           && negb (truthy (elevation updates))) with false
    by (by destruct (truthy (x updates)), (truthy (y updates)),
             (truthy (elevation updates))).
  rewrite run_bind.
  destruct (run (timelineEnv worlds) (reconcile gm token) n) as [[[[]|] s'] t];
    cbn [run fst snd]; [|by intros _ [? [=]]].
  intros Hreconcile _. rewrite app_nil_r.
  apply (Hpre [game_user_id]), (Hpre [game_users_activeGM]), Hreconcile. eauto.
Qed.

Lemma triple_any {A : Type} (G : ∀ c : Call, Resp c → Prop) (Q : Call → Prop)
    (P : A → Prop) (p : Prog A) :
  triple G Q P p → triple G (λ _, True) P p.
Proof.
  apply wp_mono. intros t o [_ Ho]. split; [by apply Forall_forall|done].
Qed.

Lemma requested_app_r (activeGM : User) (P : Query → Prop) (t t' : list Call) :
  requested activeGM P t' → requested activeGM P (t ++ t').
Proof.
  intros (q & Hq & Hin). exists q. split; [done|]. apply elem_of_app. by right.
Qed.

Lemma requested_app_l (activeGM : User) (P : Query → Prop) (t t' : list Call) :
  requested activeGM P t → requested activeGM P (t ++ t').
Proof.
  intros (q & Hq & Hin). exists q. split; [done|]. apply elem_of_app. by left.
Qed.

Lemma request_deleteEffects (w : World) (activeGM : User) (token : Token.t)
    (preMoveRanges : gmap string ActorSet) (effect : Effect.t) (pre : ActorSet)
    (a : Actor.t) (derived : Effect.t) :
  truthy (System.distance (Effect.system effect)) = true →
  preMoveRanges !! Effect.uuid effect = Some pre →
  Some a ∈ pre →
  Some a ∉ Token.actor <$>
             w_nearby w token (System.distance (Effect.system effect))
               (System.disposition (Effect.system effect))
               (System.collisionTypes (Effect.system effect)) →
  findByOrigin (Effect.uuid effect) (w_effects w a) = Some derived →
  wp (answeredBy w) (postMoveStep activeGM token preMoveRanges effect)
    (λ t o, is_Some o →
            requested activeGM
              (λ q, ∃ uuids, q = deleteEffects uuids
                             ∧ Some (Effect.uuid derived) ∈ uuids) t).
Proof.
  intros Hradius Hpre Hin Hout Hheld. unfold postMoveStep.
  rewrite Hradius, Hpre. cbn [negb].
  eapply (wp_after _ _ (requested activeGM _)); [apply requested_app_r| |].
  { apply (triple_any _ _ _ _ (quiet_nearbyActors _ w token effect (λ c r H, H))). }
  intros post ->. cbn [deref bind].
  eapply (wp_after _ (λ del, Some (Effect.uuid derived) ∈ del)
            (requested activeGM _)); [apply requested_app_r| |].
  { unfold toDelete.
    eapply triple_weaken;
      [|apply (triple_mapM (answeredBy w) (λ _, True)
                 (λ x u, ∀ a', x = Some a' →
                    u = Effect.uuid <$> findByOrigin (Effect.uuid effect) (w_effects w a')))].
    - intros del Hdel.
      assert (Some a ∈ Set_difference pre
                (Set_new (Token.actor <$>
                   w_nearby w token (System.distance (Effect.system effect))
                     (System.disposition (Effect.system effect))
                     (System.collisionTypes (Effect.system effect))))) as Hdiff.
      { apply elem_of_Set_difference. split; [done|]. by rewrite elem_of_Set_new. }
      apply list_elem_of_lookup in Hdiff as [i Hi].
      destruct (Forall2_lookup_l _ _ _ _ _ Hdel Hi) as (u & Hu & Hx).
      rewrite (Hx a eq_refl), Hheld in Hu. by apply list_elem_of_lookup_2 in Hu.
    - intros x _. destruct x as [a'|]; [|apply triple_throw]. cbn [deref bind].
      eapply triple_bind; [by apply (triple_call _ _ _ (answeredBy w _))|].
      intros es ->. apply triple_ret. by intros ? [= <-]. }
  intros del Hdel. cbn [call bind wp]. intros r _.
  eapply wp_mono; [|apply wp_true]. intros t o _ _.
  exists (deleteEffects del). split; [by exists del|by left].
Qed.

(** The request that names the effect of an actor that left the range of an
    aura, in a scene that changes while the animation is awaited. *)
Lemma leaving_request (worlds : nat → World) (n : nat)
    (seenWarning : bool) (token : Token.t) (updates : Updates) (options : Options)
    (userId : string) (gm : User) (actor : Actor.t) (effect : Effect.t)
    (t : Token.t) (a : Actor.t) (derived : Effect.t) :
  is_Some (result (timelineEnv worlds)
             (updateToken seenWarning token updates options userId) n) →
  w_user (worlds n) = userId →
  w_activeGM (worlds n) = Some gm →
  Token.actor token = Some actor →
  truthy (x updates) || truthy (y updates) || truthy (elevation updates) = true →
  NoDup (Effect.uuid <$> List.filter isAura (w_appliedEffects (worlds n) actor)) →
  effect ∈ w_appliedEffects (worlds n) actor →
  isAura effect = true →
  truthy (System.distance (Effect.system effect)) = true →
  t ∈ w_nearby (worlds n) token (System.distance (Effect.system effect))
        (System.disposition (Effect.system effect))
        (System.collisionTypes (Effect.system effect)) →
  Token.actor t = Some a →
  (∀ t', t' ∈ w_nearby (worlds (Datatypes.S n)) token
                 (System.distance (Effect.system effect))
                 (System.disposition (Effect.system effect))
                 (System.collisionTypes (Effect.system effect)) →
         Token.actor t' ≠ Some a) →
  findByOrigin (Effect.uuid effect) (w_effects (worlds (Datatypes.S n)) a)
    = Some derived →
  ∃ uuids,
    Some (Effect.uuid derived) ∈ uuids
    ∧ query gm (deleteEffects uuids)
      ∈ trace (timelineEnv worlds)
          (updateToken seenWarning token updates options userId) n.
Proof.
  intros Hresult Huser Hgm Hactor Hmove Huniq Heffect Haura Hradius Hin Ha Hout Hheld.
  assert (effect ∈ List.filter isAura (w_appliedEffects (worlds n) actor)) as Hsource.
  { rewrite list_elem_of_In, filter_In, <- list_elem_of_In. by split. }
  cut (requested gm
         (λ q, ∃ uuids, q = deleteEffects uuids ∧ Some (Effect.uuid derived) ∈ uuids)
         (trace (timelineEnv worlds)
            (updateToken seenWarning token updates options userId) n)).
  { intros (q & (uuids & -> & Hu) & Hq). eauto. }
  apply (timeline_updateToken worlds n seenWarning token updates options userId gm
           actor (requested gm _)); try done; [apply requested_app_r|].
  apply (timeline_reconcile worlds n gm token actor _ (requested gm _) Hactor
           (timeline_preMoveRanges (worlds n) token _ Huniq));
    [apply requested_app_r|apply requested_app_l|].
  intros preMoveRanges Hranges.
  apply (wp_forM_elem _ (requested gm _) _ _ effect);
    [apply requested_app_r|apply requested_app_l|done|].
  eapply (request_deleteEffects (worlds (Datatypes.S n))); [done|by apply Hranges| | |done].
  - apply elem_of_Set_new, list_elem_of_fmap. by exists t.
  - intros (t' & Ht' & Hin')%list_elem_of_fmap. by destruct (Hout t' Hin').
Qed.

(** An actor that leaves the range of an aura loses its effect.  In a
    scene that changes while the animation is awaited, when an invocation of
    the initiating client reconciles and returns: for every aura source
    effect of the moving actor with a truthy radius (the aura effects having
    distinct uuids), every actor that had a token in range before the wait
    and has none after it, and that holds an effect derived from the aura,
    has that effect named in a deleteEffects request. *)
Theorem leaving_actor_effect_is_deleted (worlds : nat → World) (n : nat)
    (seenWarning : bool) (token : Token.t) (updates : Updates) (options : Options)
    (userId : string) (gm : User) (actor : Actor.t) (effect : Effect.t)
    (t : Token.t) (a : Actor.t) (derived : Effect.t) :
  is_Some (result (timelineEnv worlds)
             (updateToken seenWarning token updates options userId) n) →
  w_user (worlds n) = userId →
  w_activeGM (worlds n) = Some gm →
  Token.actor token = Some actor →
  truthy (x updates) || truthy (y updates) || truthy (elevation updates) = true →
  NoDup (Effect.uuid <$> List.filter isAura (w_appliedEffects (worlds n) actor)) →
  effect ∈ w_appliedEffects (worlds n) actor →
  isAura effect = true →
  truthy (System.distance (Effect.system effect)) = true →
  t ∈ w_nearby (worlds n) token (System.distance (Effect.system effect))
        (System.disposition (Effect.system effect))
        (System.collisionTypes (Effect.system effect)) →
  Token.actor t = Some a →
  (∀ t', t' ∈ w_nearby (worlds (Datatypes.S n)) token
                 (System.distance (Effect.system effect))
                 (System.disposition (Effect.system effect))
                 (System.collisionTypes (Effect.system effect)) →
         Token.actor t' ≠ Some a) →
  findByOrigin (Effect.uuid effect) (w_effects (worlds (Datatypes.S n)) a)
    = Some derived →
  ∃ uuids,
    Some (Effect.uuid derived) ∈ uuids
    ∧ query gm (deleteEffects uuids)
      ∈ trace (timelineEnv worlds)
          (updateToken seenWarning token updates options userId) n.
Proof.
  apply leaving_request.
Qed.

Lemma leaving_actor_effect_is_deleted_witness :
  ∃ uuids,
    Some "Actor.B.ActiveEffect.E1" ∈ uuids
    ∧ query "gm" (deleteEffects uuids)
      ∈ trace (timelineEnv Path.worlds)
          (updateToken false Path.tokenA Path.updatesX tt "alice") 0%nat.
Proof.
  apply (leaving_actor_effect_is_deleted Path.worlds 0%nat false Path.tokenA
           Path.updatesX tt "alice" "gm" Path.actorA Path.auraE Path.tokenB
           Path.actorB Path.derivedE).
  - by exists false.
  - reflexivity.
  - reflexivity.
  - reflexivity.
  - reflexivity.
  - simpl. apply NoDup_singleton.
  - simpl. by left.
  - reflexivity.
  - reflexivity.
  - simpl. by left.
  - reflexivity.
  - simpl. intros t' Ht'. by apply elem_of_nil in Ht'.
  - reflexivity.
Defined.

Lemma request_applyEffect (w : World) (activeGM : User) (token : Token.t)
    (preMoveRanges : gmap string ActorSet) (effect : Effect.t) (actor : Actor.t)
    (t : Token.t) (a : Actor.t) :
  truthy (System.distance (Effect.system effect)) = true →
  Token.actor token = Some actor →
  w_final w token = true →
  t ∈ w_nearby w token (System.distance (Effect.system effect))
        (System.disposition (Effect.system effect))
        (System.collisionTypes (Effect.system effect)) →
  Token.actor t = Some a →
  a ≠ actor →
  findByOrigin (Effect.uuid effect) (w_effects w a) = None →
  wp (answeredBy w) (postMoveStep activeGM token preMoveRanges effect)
    (λ tr o, is_Some o →
             requested activeGM
               (λ q, ∃ uuids, q = applyEffect (effectData effect) uuids
                              ∧ Some (Actor.uuid a) ∈ uuids) tr).
Proof.
  intros Hradius Hactor Hfinal Hin Ha Hother Hfree. unfold postMoveStep.
  rewrite Hradius. cbn [negb].
  eapply (wp_after _ _ (requested activeGM _)); [apply requested_app_r| |].
  { apply (triple_any _ _ _ _ (quiet_nearbyActors _ w token effect (λ c r H, H))). }
  intros post ->.
  do 4 (eapply (wp_after _ (λ _, True) (requested activeGM _));
        [apply requested_app_r|apply triple_true|]; intros ? _).
  eapply (wp_after _ (λ final, final = w_final w token) (requested activeGM _));
    [apply requested_app_r| |].
  { by apply triple_call. }
  intros final ->. rewrite Hfinal.
  eapply (wp_after _ (λ add, Some (Actor.uuid a) ∈ add) (requested activeGM _));
    [apply requested_app_r| |].
  { unfold toAddTo.
    eapply triple_bind with (P := λ kept : ActorSet, Some a ∈ kept).
    - eapply wp_mono; [|apply (wp_filterM_keeps (answeredBy w) _ (Some a))].
      + intros tr o (kept & -> & Hkept). split; [by apply Forall_forall|].
        intros ? [= <-]. apply Hkept, elem_of_Set_new, list_elem_of_fmap.
        by exists t.
      + intros x. case_bool_decide as Hself.
        { simpl. exists false. split; [done|]. intros ->. congruence. }
        destruct x as [a'|]; simpl.
        * intros es ->. eexists. split; [done|]. intros [= ->].
          cbn [answer]. by rewrite Hfree.
        * by exists true.
    - intros kept Hkept. apply triple_ret.
      apply list_elem_of_fmap. by exists (Some a). }
  intros add Hadd. cbn [call bind wp]. intros r _.
  eapply wp_mono; [|apply wp_true]. intros tr o _ _.
  exists (applyEffect (effectData effect) add). split; [by exists add|by left].
Qed.

(** An actor that is in range of an aura at the end of the movement gets
    its effect.  In a scene that changes while the animation is awaited,
    when an invocation of the initiating client reconciles and returns on the
    final segment: for every aura source effect of the moving actor with a
    truthy radius, every other actor that has a token in range after the wait
    and holds no effect derived from the aura is named in an applyEffect
    request carrying the data of the aura. *)
Theorem entering_actor_is_added (worlds : nat → World) (n : nat)
    (seenWarning : bool) (token : Token.t) (updates : Updates) (options : Options)
    (userId : string) (gm : User) (actor : Actor.t) (effect : Effect.t)
    (t : Token.t) (a : Actor.t) :
  is_Some (result (timelineEnv worlds)
             (updateToken seenWarning token updates options userId) n) →
  w_user (worlds n) = userId →
  w_activeGM (worlds n) = Some gm →
  Token.actor token = Some actor →
  truthy (x updates) || truthy (y updates) || truthy (elevation updates) = true →
  effect ∈ w_appliedEffects (worlds n) actor →
  isAura effect = true →
  truthy (System.distance (Effect.system effect)) = true →
  w_final (worlds (Datatypes.S n)) token = true →
  t ∈ w_nearby (worlds (Datatypes.S n)) token
        (System.distance (Effect.system effect))
        (System.disposition (Effect.system effect))
        (System.collisionTypes (Effect.system effect)) →
  Token.actor t = Some a →
  a ≠ actor →
  findByOrigin (Effect.uuid effect) (w_effects (worlds (Datatypes.S n)) a) = None →
  ∃ uuids,
    Some (Actor.uuid a) ∈ uuids
    ∧ query gm (applyEffect (effectData effect) uuids)
      ∈ trace (timelineEnv worlds)
          (updateToken seenWarning token updates options userId) n.
Proof.
  intros Hresult Huser Hgm Hactor Hmove Heffect Haura Hradius Hfinal Hin Ha Hother
    Hfree.
  assert (effect ∈ List.filter isAura (w_appliedEffects (worlds n) actor)) as Hsource.
  { rewrite list_elem_of_In, filter_In, <- list_elem_of_In. by split. }
  cut (requested gm
         (λ q, ∃ uuids, q = applyEffect (effectData effect) uuids
                        ∧ Some (Actor.uuid a) ∈ uuids)
         (trace (timelineEnv worlds)
            (updateToken seenWarning token updates options userId) n)).
  { intros (q & (uuids & -> & Hu) & Hq). eauto. }
  apply (timeline_updateToken worlds n seenWarning token updates options userId gm
           actor (requested gm _)); try done; [apply requested_app_r|].
  apply (timeline_reconcile worlds n gm token actor (λ _, True) (requested gm _)
           Hactor (quiet_preMoveLoop _ token _ ∅));
    [apply requested_app_r|apply requested_app_l|].
  intros preMoveRanges _.
  apply (wp_forM_elem _ (requested gm _) _ _ effect);
    [apply requested_app_r|apply requested_app_l|done|].
  by apply (request_applyEffect (worlds (Datatypes.S n)) gm token preMoveRanges
              effect actor t a).
Qed.

Lemma entering_actor_is_added_witness :
  ∃ uuids,
    Some "Actor.B" ∈ uuids
    ∧ query "gm" (applyEffect (effectData Path.auraE) uuids)
      ∈ trace (timelineEnv Path.worlds)
          (updateToken false Path.tokenA Path.updatesX tt "alice") 2%nat.
Proof.
  apply (entering_actor_is_added Path.worlds 2%nat false Path.tokenA
           Path.updatesX tt "alice" "gm" Path.actorA Path.auraE Path.tokenB
           Path.actorB).
  - by exists false.
  - reflexivity.
  - reflexivity.
  - reflexivity.
  - reflexivity.
  - simpl. by left.
  - reflexivity.
  - reflexivity.
  - reflexivity.
  - simpl. by left.
  - reflexivity.
  - discriminate.
  - reflexivity.
Defined.

(** ** Segment gating, in the handler *)

(** A segment that is not the last: both removals are requested, with what
    they are to remove, and nothing is added. *)
Example removals_on_a_transit_segment :
  List.filter isQuery
    (trace (timelineEnv Leaving.worlds)
       (updateToken false Leaving.tokenA Leaving.updatesX tt "alice") 0%nat)
  = [query "gm" (deleteEffects [Some "Actor.B.ActiveEffect.E1"]);
     query "gm" (deleteAuraEffects "Actor.A" ["Actor.B.ActiveEffect.F"])].
Proof. reflexivity. Qed.



(** ** The aura checkbox *)

Section Checkbox.
(** [update] is [document.update], of which it is assumed that it applies
    the keys the listener sets as they are written. *)
Context {F : Type} (update : Effect.t → Checkbox.Updates F → Effect.t).

Hypothesis update_type :
  ∀ document updates, Effect.type (update document updates) = Checkbox.type updates.

Hypothesis update_flags :
  ∀ document updates,
    Effect.originalType (update document updates)
    = match Checkbox.flags updates with
      | Checkbox.unsetAuras => None
      | Checkbox.setOriginalType currType => Some currType
      end.

Hypothesis update_system :
  ∀ document updates,
    Effect.system (update document updates) = Checkbox.system updates.

Lemma changeListener_originalType (document : Effect.t) (formData : F) :
  Effect.originalType (update document (changeListener document formData))
  ≠ Some "auras.aura".
Proof.
  rewrite update_flags. unfold changeListener.
  case_bool_decide as Haura; simpl; congruence.
Qed.

(** Toggling the checkbox twice.  For a document whose recorded original
    type is not the aura type: one toggle flips the value the checkbox is
    drawn with; two toggles give back the type and the system data of the
    document; for a document that was no aura, they also leave no recorded
    original type, and while it is an aura the data copied to actors in range
    has the type the document had; for a document that was an aura, the data
    copied to actors in range has the same type before and after. *)
Theorem checkbox_toggle_twice (document : Effect.t) (formData1 formData2 : F) :
  Effect.originalType document ≠ Some "auras.aura" →
  let document1 := update document (changeListener document formData1) in
  let document2 := update document1 (changeListener document1 formData2) in
  checkboxValue document1 = negb (checkboxValue document)
  ∧ Effect.type document2 = Effect.type document
  ∧ Effect.system document2 = Effect.system document
  ∧ (checkboxValue document = false →
     Effect.originalType document2 = None
     ∧ Effect.type (effectData document1) = Effect.type document)
  ∧ (checkboxValue document = true →
     Effect.type (effectData document2) = Effect.type (effectData document)).
Proof.
  intros Hflag document1 document2.
  assert (∀ d : Effect.t, checkboxValue d = true → Effect.type d = "auras.aura")
    as Hchecked.
  { intros d. apply bool_decide_eq_true. }
  assert (∀ d : Effect.t, checkboxValue d = false → Effect.type d ≠ "auras.aura")
    as Hunchecked.
  { intros d. apply bool_decide_eq_false. }
  destruct (checkboxValue document) eqn:Hvalue.
  - (* the document is an aura *)
    pose proof (Hchecked _ Hvalue) as Haura.
    assert (Effect.type document1 = default "base" (Effect.originalType document))
      as Htype1.
    { unfold document1. rewrite update_type. unfold changeListener.
      by rewrite bool_decide_eq_true_2. }
    assert (checkboxValue document1 = false) as Hvalue1.
    { apply bool_decide_eq_false_2. rewrite Htype1.
      destruct (Effect.originalType document) as [currType|]; simpl; congruence. }
    pose proof (Hunchecked _ Hvalue1) as Haura1.
    assert (Effect.system document1 = Effect.system document) as Hsystem1.
    { unfold document1. rewrite update_system. unfold changeListener.
      by rewrite bool_decide_eq_true_2. }
    split; [done|]. split; [|split; [|split; [done|]]].
    + unfold document2. rewrite update_type. unfold changeListener.
      by rewrite bool_decide_eq_false_2.
    + unfold document2. rewrite update_system. unfold changeListener.
      by rewrite bool_decide_eq_false_2.
    + intros _. unfold effectData. cbn [Effect.type].
      unfold document2. rewrite update_flags. unfold changeListener.
      rewrite bool_decide_eq_false_2 by done. simpl. by rewrite Htype1.
  - (* the document is no aura *)
    pose proof (Hunchecked _ Hvalue) as Haura.
    assert (Effect.type document1 = "auras.aura") as Htype1.
    { unfold document1. rewrite update_type. unfold changeListener.
      by rewrite bool_decide_eq_false_2. }
    assert (Effect.originalType document1 = Some (Effect.type document)) as Hflag1.
    { unfold document1. rewrite update_flags. unfold changeListener.
      by rewrite bool_decide_eq_false_2. }
    assert (Effect.system document1 = Effect.system document) as Hsystem1.
    { unfold document1. rewrite update_system. unfold changeListener.
      by rewrite bool_decide_eq_false_2. }
    split; [by apply bool_decide_eq_true_2|]. split; [|split; [|split; [|done]]].
    + unfold document2. rewrite update_type. unfold changeListener.
      rewrite bool_decide_eq_true_2 by done. simpl. by rewrite Hflag1.
    + unfold document2. rewrite update_system. unfold changeListener.
      by rewrite bool_decide_eq_true_2.
    + intros _. split.
      * unfold document2. rewrite update_flags. unfold changeListener.
        by rewrite bool_decide_eq_true_2.
      * unfold effectData. cbn [Effect.type]. by rewrite Hflag1.
Qed.

(** Auras do not cascade through the checkbox.  Whatever the document was,
    once the checkbox has been toggled the data that [updateToken] would copy
    from it to the actors in range is no aura: it is not a source effect of
    the first two loops, and it does not pass the filter of the scan. *)
Theorem checkbox_copies_are_not_auras (document : Effect.t) (formData : F)
    (disposition : Z) :
  let document1 := update document (changeListener document formData) in
  isAura (effectData document1) = false
  ∧ auraFilter disposition (effectData document1) = false.
Proof.
  intros document1.
  assert (isAura (effectData document1) = false) as Haura.
  { unfold isAura, effectData. simpl. apply bool_decide_eq_false_2.
    pose proof (changeListener_originalType document formData) as Hflag.
    fold document1 in Hflag.
    destruct (Effect.originalType document1) as [currType|]; simpl; congruence. }
  split; [done|]. unfold auraFilter. by rewrite Haura.
Qed.
End Checkbox.

Lemma checkbox_toggle_twice_witness :
  let document := Scene1.derived "Actor.A.ActiveEffect.D" "Actor.B.ActiveEffect.F" in
  let document1 := documentUpdate document (changeListener document tt) in
  let document2 := documentUpdate document1 (changeListener document1 tt) in
  checkboxValue document1 = negb (checkboxValue document)
  ∧ Effect.type document2 = Effect.type document
  ∧ Effect.system document2 = Effect.system document
  ∧ (checkboxValue document = false →
     Effect.originalType document2 = None
     ∧ Effect.type (effectData document1) = Effect.type document)
  ∧ (checkboxValue document = true →
     Effect.type (effectData document2) = Effect.type (effectData document)).
Proof.
  apply (checkbox_toggle_twice (@documentUpdate unit) (λ _ _, eq_refl)
           (λ _ _, eq_refl) (λ _ _, eq_refl)
           (Scene1.derived "Actor.A.ActiveEffect.D" "Actor.B.ActiveEffect.F") tt tt).
  discriminate.
Defined.

Lemma checkbox_copies_are_not_auras_witness :
  isAura (effectData (documentUpdate Scene1.auraE (changeListener Scene1.auraE tt)))
  = false.
Proof.
  apply (checkbox_copies_are_not_auras (@documentUpdate unit) (λ _ _, eq_refl)
           Scene1.auraE tt 0).
Defined.

(** ** The registration of the queries *)

(** After [registerQueries], every request that [updateToken] dispatches
    goes under a name registered to one of the four functions of
    queries.mjs, whatever was registered before; two requests get the same
    function only if they are of the same kind; and no other entry of
    [CONFIG.queries] is touched. *)
Theorem requests_are_registered (queries : gmap string Queries.t) :
  (∀ q, ∃ f, registerQueries queries !! queryName q = Some f
             ∧ (∀ name, f ≠ Queries.other name)
             ∧ ∀ q', registerQueries queries !! queryName q' = Some f →
                     queryName q' = queryName q)
  ∧ (∀ name, (∀ q, name ≠ queryName q) →
             registerQueries queries !! name = queries !! name).
Proof.
  split.
  - intros q. destruct q; simpl; eexists;
      (split; [by unfold registerQueries; simplify_map_eq|]);
      (split; [done|]);
      intros q'; destruct q'; simpl; unfold registerQueries; by simplify_map_eq.
  - intros name Hname. unfold registerQueries.
    rewrite !lookup_insert_ne; [done|..].
    + intros <-. by apply (Hname (applyEffect (effectData Scene1.auraE) [])).
    + intros <-. by apply (Hname (deleteEffects [])).
    + intros <-. by apply (Hname (applyAuraEffects "" [])).
    + intros <-. by apply (Hname (deleteAuraEffects "" [])).
Qed.

(** ** Each actor is listed once *)







